(** * GenFeatures-UI: the stream JSON extractor and the session state model

    A shallow embedding of the state-handling code of the [App] component
    (the async generator [parseJsonStream], the [setSessions] patches of
    [handleSendMessage] / [generateArtifact], the navigation callbacks and
    the vault handlers, the variation view, the effects that keep the vault
    in [localStorage] and the placeholders of the input) and of the overlay
    test of [ArtifactCard], with the properties of the specification, and
    further properties the code shows, stated and proved over it.

    Conventions.
    - A JavaScript string is the list of its UTF-16 code units, each an [N].
    - A value that may be [undefined] or [null] is an [option].
    - React state is a record; a handler is a function from the state it
      closes over to the state after its updates have been applied.
    - [JSON.parse] and [JSON.stringify] are built-ins of the platform; they
      are modelled in [Module JSON] from the JSON grammar (ECMA-404). *)

From Stdlib Require Import ZArith NArith Lia Bool Ascii String.
From stdpp Require Import base tactics option list strings.
From Equations Require Import Equations.

Local Open Scope N_scope.

(** * Part I. The embedding of the code *)

(** ** JavaScript strings *)

Abbreviation jsstring := (list N).

(** The code units of a literal. *)
Definition js (s : string) : jsstring :=
  map Ascii.N_of_ascii (String.list_ascii_of_string s).

(** Same, with every apostrophe of the literal standing for a double quote,
    so that JSON texts can be written down legibly. *)
Definition jsq (s : string) : jsstring :=
  map (fun c => if c =? 39 then 34 else c) (js s).

Definition lbrace : N := 123.
Definition rbrace : N := 125.
Definition lbracket : N := 91.
Definition rbracket : N := 93.
Definition dquote : N := 34.
Definition backslash : N := 92.
Definition backtick : N := 96.

(** [s.indexOf(c, from)]: the first position [>= from] holding [c];
    [None] for [-1]. *)
Fixpoint index_from (c : N) (s : jsstring) (i : nat) : option nat :=
  match s with
  | [] => None
  | d :: r => if d =? c then Some i else index_from c r (S i)
  end.

Definition indexOf (c : N) (s : jsstring) (from : nat) : option nat :=
  index_from c (drop from s) from.

(** [s.substring(a, b)] for [a <= b]. *)
Definition substring (a b : nat) (s : jsstring) : jsstring :=
  take (b - a) (drop a s).

(** [s.startsWith(p)] *)
Fixpoint startsWith (p s : jsstring) : bool :=
  match p, s with
  | [], _ => true
  | c :: p', d :: s' => (c =? d) && startsWith p' s'
  | _ :: _, [] => false
  end.

(** [s.endsWith(p)] *)
Definition endsWith (p s : jsstring) : bool :=
  startsWith (reverse p) (reverse s).

(** ECMAScript WhiteSpace and LineTerminator code units, the ones
    [String.prototype.trim] removes. *)
Definition is_white_space (c : N) : bool :=
  ((9 <=? c) && (c <=? 13)) || (c =? 32) || (c =? 160) || (c =? 5760)
  || ((8192 <=? c) && (c <=? 8202)) || (c =? 8232) || (c =? 8233)
  || (c =? 8239) || (c =? 8287) || (c =? 12288) || (c =? 65279).

Fixpoint trimStart (s : jsstring) : jsstring :=
  match s with
  | [] => []
  | c :: r => if is_white_space c then trimStart r else s
  end.

Definition trimEnd (s : jsstring) : jsstring :=
  reverse (trimStart (reverse s)).

Definition trim (s : jsstring) : jsstring := trimEnd (trimStart s).

(** ** JSON values, [JSON.parse] and [JSON.stringify] *)

Module JSON.

(** A number is kept as its token: the embedding never computes with it. An
    object is the list of its members in textual order. *)
#[warnings="-register-all"]
Inductive json : Type :=
| JNull
| JBool (b : bool)
| JNumber (lexeme : jsstring)
| JString (s : jsstring)
| JArray (elems : list json)
| JObject (members : list (jsstring * json)).

Definition is_ws (c : N) : bool :=
  (c =? 32) || (c =? 9) || (c =? 10) || (c =? 13).

Fixpoint skip_ws (s : jsstring) : jsstring :=
  match s with
  | [] => []
  | c :: r => if is_ws c then skip_ws r else s
  end.

Definition is_digit (c : N) : bool := (48 <=? c) && (c <=? 57).

Definition hex_val (c : N) : option N :=
  if is_digit c then Some (c - 48)
  else if (97 <=? c) && (c <=? 102) then Some (c - 87)
  else if (65 <=? c) && (c <=? 70) then Some (c - 55)
  else None.

Definition hex4 (a b c d : N) : option N :=
  match hex_val a, hex_val b, hex_val c, hex_val d with
  | Some x, Some y, Some z, Some w => Some (((x * 16 + y) * 16 + z) * 16 + w)
  | _, _, _, _ => None
  end.

Definition unescape (e : N) : option N :=
  if e =? 34 then Some 34            (* quote *)
  else if e =? 92 then Some 92       (* backslash *)
  else if e =? 47 then Some 47       (* slash *)
  else if e =? 98 then Some 8        (* b *)
  else if e =? 102 then Some 12      (* f *)
  else if e =? 110 then Some 10      (* n *)
  else if e =? 114 then Some 13      (* r *)
  else if e =? 116 then Some 9       (* t *)
  else None.

Definition cons_fst {A B} (a : A) (r : option (list A * B)) : option (list A * B) :=
  match r with
  | Some (l, b) => Some (a :: l, b)
  | None => None
  end.

(** The characters of a string token after its opening quote: the decoded
    string and the text after the closing quote. *)
Fixpoint parse_chars (s : jsstring) : option (jsstring * jsstring) :=
  match s with
  | [] => None
  | c :: r =>
      if c =? dquote then Some ([], r)
      else if c =? backslash then
        match r with
        | [] => None
        | e :: r1 =>
            if e =? 117 then                       (* u and four hex digits *)
              match r1 with
              | h1 :: h2 :: h3 :: h4 :: r2 =>
                  match hex4 h1 h2 h3 h4 with
                  | Some u => cons_fst u (parse_chars r2)
                  | None => None
                  end
              | _ => None
              end
            else
              match unescape e with
              | Some u => cons_fst u (parse_chars r1)
              | None => None
              end
        end
      else if c <? 32 then None
      else cons_fst c (parse_chars r)
  end.

Fixpoint take_digits (s : jsstring) : jsstring * jsstring :=
  match s with
  | [] => ([], [])
  | c :: r =>
      if is_digit c then let '(ds, rest) := take_digits r in (c :: ds, rest)
      else ([], s)
  end.

(** A number token: an optional minus sign, an integer part without a
    leading zero, an optional fraction, an optional exponent. *)
Definition lex_int (s : jsstring) : option (jsstring * jsstring) :=
  match s with
  | [] => None
  | c :: r =>
      if c =? 48 then Some ([c], r)
      else if is_digit c then let '(ds, rest) := take_digits r in Some (c :: ds, rest)
      else None
  end.

Definition lex_frac (s : jsstring) : option (jsstring * jsstring) :=
  match s with
  | c :: r =>
      if c =? 46 then
        match take_digits r with
        | ([], _) => None
        | (ds, rest) => Some (c :: ds, rest)
        end
      else Some ([], s)
  | [] => Some ([], s)
  end.

Definition lex_exp (s : jsstring) : option (jsstring * jsstring) :=
  match s with
  | c :: r =>
      if (c =? 101) || (c =? 69) then
        let '(sign, r1) :=
          match r with
          | g :: r' => if (g =? 43) || (g =? 45) then ([g], r') else ([], r)
          | [] => ([], r)
          end in
        match take_digits r1 with
        | ([], _) => None
        | (ds, rest) => Some (c :: sign ++ ds, rest)
        end
      else Some ([], s)
  | [] => Some ([], s)
  end.

Definition lex_number (s : jsstring) : option (jsstring * jsstring) :=
  let '(sign, s0) :=
    match s with
    | c :: r => if c =? 45 then ([c], r) else ([], s)
    | [] => ([], s)
    end in
  match lex_int s0 with
  | None => None
  | Some (ip, s1) =>
      match lex_frac s1 with
      | None => None
      | Some (fp, s2) =>
          match lex_exp s2 with
          | None => None
          | Some (ep, s3) => Some (sign ++ ip ++ fp ++ ep, s3)
          end
      end
  end.

(** [strip p s]: the text after the prefix [p] of [s]. *)
Fixpoint strip (p s : jsstring) : option jsstring :=
  match p, s with
  | [], _ => Some s
  | c :: p', d :: s' => if c =? d then strip p' s' else None
  | _ :: _, [] => None
  end.

(** Recursive descent; [fuel] bounds the number of nested calls. Each
    function returns the value read and the text after it. *)
Fixpoint parse_value (fuel : nat) (s : jsstring) {struct fuel}
  : option (json * jsstring) :=
  match fuel with
  | O => None
  | S fuel' =>
      match skip_ws s with
      | [] => None
      | c :: r =>
          if c =? lbrace then
            match skip_ws r with
            | [] => None
            | d :: r' =>
                if d =? rbrace then Some (JObject [], r')
                else
                  match parse_members fuel' (d :: r') with
                  | Some (ms, rest) => Some (JObject ms, rest)
                  | None => None
                  end
            end
          else if c =? lbracket then
            match skip_ws r with
            | [] => None
            | d :: r' =>
                if d =? rbracket then Some (JArray [], r')
                else
                  match parse_elements fuel' (d :: r') with
                  | Some (vs, rest) => Some (JArray vs, rest)
                  | None => None
                  end
            end
          else if c =? dquote then
            match parse_chars r with
            | Some (str, rest) => Some (JString str, rest)
            | None => None
            end
          else if c =? 116 then
            match strip (js "true") (c :: r) with
            | Some rest => Some (JBool true, rest)
            | None => None
            end
          else if c =? 102 then
            match strip (js "false") (c :: r) with
            | Some rest => Some (JBool false, rest)
            | None => None
            end
          else if c =? 110 then
            match strip (js "null") (c :: r) with
            | Some rest => Some (JNull, rest)
            | None => None
            end
          else
            match lex_number (c :: r) with
            | Some (lx, rest) => Some (JNumber lx, rest)
            | None => None
            end
      end
  end

with parse_elements (fuel : nat) (s : jsstring) {struct fuel}
  : option (list json * jsstring) :=
  match fuel with
  | O => None
  | S fuel' =>
      match parse_value fuel' s with
      | None => None
      | Some (v, rest) =>
          match skip_ws rest with
          | [] => None
          | c :: r =>
              if c =? 44 then cons_fst v (parse_elements fuel' r)
              else if c =? rbracket then Some ([v], r)
              else None
          end
      end
  end

with parse_members (fuel : nat) (s : jsstring) {struct fuel}
  : option (list (jsstring * json) * jsstring) :=
  match fuel with
  | O => None
  | S fuel' =>
      match skip_ws s with
      | [] => None
      | q :: r0 =>
          if q =? dquote then
            match parse_chars r0 with
            | None => None
            | Some (key, r1) =>
                match skip_ws r1 with
                | [] => None
                | colon :: r2 =>
                    if colon =? 58 then
                      match parse_value fuel' r2 with
                      | None => None
                      | Some (v, rest) =>
                          match skip_ws rest with
                          | [] => None
                          | c :: r =>
                              if c =? 44 then cons_fst (key, v) (parse_members fuel' r)
                              else if c =? rbrace then Some ([(key, v)], r)
                              else None
                          end
                      end
                    else None
                end
            end
          else None
      end
  end.

(** [JSON.parse(text)]: one value, with white space around it and nothing
    else; [None] when the built-in throws a [SyntaxError]. Two nested calls
    read at least one character, hence the fuel. *)
Definition parse (text : jsstring) : option json :=
  match parse_value (2 * length text + 2) text with
  | Some (v, rest) =>
      match skip_ws rest with
      | [] => Some v
      | _ :: _ => None
      end
  | None => None
  end.

Definition hex_digit (n : N) : N := if n <? 10 then 48 + n else 87 + n.

Definition uescape (c : N) : jsstring :=
  [backslash; 117; hex_digit (c / 4096 mod 16); hex_digit (c / 256 mod 16);
   hex_digit (c / 16 mod 16); hex_digit (c mod 16)].

Definition is_high_surrogate (c : N) : bool := (55296 <=? c) && (c <=? 56319).
Definition is_low_surrogate (c : N) : bool := (56320 <=? c) && (c <=? 57343).

(** One code unit of a string, as [JSON.stringify] writes it
    (QuoteJSONString), surrogates apart. *)
Definition quote_unit (c : N) : jsstring :=
  if c =? 8 then [backslash; 98]
  else if c =? 9 then [backslash; 116]
  else if c =? 10 then [backslash; 110]
  else if c =? 12 then [backslash; 102]
  else if c =? 13 then [backslash; 114]
  else if c =? dquote then [backslash; dquote]
  else if c =? backslash then [backslash; backslash]
  else if c <? 32 then uescape c
  else [c].

(** A surrogate pair is written as it is, a lone surrogate escaped. *)
Fixpoint quote_units (s : jsstring) : jsstring :=
  match s with
  | [] => []
  | c :: r =>
      if is_high_surrogate c then
        match r with
        | d :: r' =>
            if is_low_surrogate d then c :: d :: quote_units r'
            else uescape c ++ quote_units r
        | [] => uescape c
        end
      else if is_low_surrogate c then uescape c ++ quote_units r
      else quote_unit c ++ quote_units r
  end.

Definition quote (s : jsstring) : jsstring :=
  dquote :: quote_units s ++ [dquote].

Definition join_with (sep : N) (parts : list jsstring) : jsstring :=
  match parts with
  | [] => []
  | p :: ps => p ++ concat (map (cons sep) ps)
  end.

(** [JSON.stringify(v)] without indentation. *)
Fixpoint stringify (v : json) : jsstring :=
  match v with
  | JNull => js "null"
  | JBool true => js "true"
  | JBool false => js "false"
  | JNumber lx => lx
  | JString s => quote s
  | JArray vs => lbracket :: join_with 44 (map stringify vs) ++ [rbracket]
  | JObject ms =>
      lbrace :: join_with 44 (map (fun m => quote (fst m) ++ 58 :: stringify (snd m)) ms)
        ++ [rbrace]
  end.

End JSON.

Import JSON.

(** ** The stream JSON extractor: [parseJsonStream] *)

(** The [for] loop of [parseJsonStream]: [rest] is the buffer from index [i]
    on; the result is [end], [None] for [-1]. *)
Fixpoint scan_end (rest : jsstring) (i start : nat) (braceCount : Z) : option nat :=
  match rest with
  | [] => None
  | c :: rest' =>
      let braceCount :=
        if c =? lbrace then (braceCount + 1)%Z
        else if c =? rbrace then (braceCount - 1)%Z
        else braceCount in
      if (braceCount =? 0)%Z && (start <? i)%nat then Some i
      else scan_end rest' (S i) start braceCount
  end.

Definition find_end (buffer : jsstring) (start : nat) : option nat :=
  scan_end (drop start buffer) start start 0.

(** Where the positions found lie: what the loop below needs to end. *)
Lemma index_from_bounds c s i k :
  index_from c s i = Some k → (i ≤ k < i + length s)%nat.
Proof.
  revert i; induction s as [|d r IH]; intros i; simpl; [done|].
  destruct (d =? c); [intros [= <-]; lia|].
  intros H%IH. lia.
Qed.

Lemma indexOf_bounds c s from k :
  indexOf c s from = Some k → (from ≤ k < length s)%nat.
Proof.
  unfold indexOf. intros H%index_from_bounds.
  rewrite length_drop in H. lia.
Qed.

Lemma scan_end_bounds rest i start n e :
  scan_end rest i start n = Some e → (i ≤ e < i + length rest)%nat.
Proof.
  revert i n; induction rest as [|c r IH]; intros i n; simpl; [done|].
  destruct (_ && _); [intros [= <-]; lia|].
  intros Hr%IH. lia.
Qed.

Lemma find_end_bounds buffer start e :
  find_end buffer start = Some e → (start ≤ e < length buffer)%nat.
Proof.
  unfold find_end. intros H%scan_end_bounds.
  rewrite length_drop in H. lia.
Qed.

(** What is left of the [while] loop when [start] is at a given position:
    one more than the distance from [start] to the end of the buffer. *)
Definition to_scan (buffer : jsstring) (start : option nat) : nat :=
  match start with
  | None => 0
  | Some st => S (length buffer - st)
  end.

(** A value together with the equation that says where it comes from. *)
Definition inspect {A : Type} (x : A) : {y : A | x = y} := exist _ x eq_refl.

(** The [while (start !== -1)] loop of [parseJsonStream], run on the buffer
    after a fragment was appended: the values yielded, in order, and the
    buffer when the loop is left. *)
Equations? extract (buffer : jsstring) (start : option nat)
  : list json * jsstring by wf (to_scan buffer start) lt :=
  extract buffer None := ([], buffer);
  extract buffer (Some st) with inspect (find_end buffer st) := {
    | exist _ None _ => ([], buffer)
    | exist _ (Some e) He with JSON.parse (substring st (e + 1) buffer) := {
        | Some v =>
            let buffer' := drop (e + 1) buffer in
            let '(out, b) := extract buffer' (indexOf lbrace buffer' 0) in
            (v :: out, b)
        | None => extract buffer (indexOf lbrace buffer (st + 1)) } }.
Proof.
  all: apply find_end_bounds in He; unfold to_scan.
  all: match goal with |- context [indexOf ?c ?b ?f] =>
         destruct (indexOf c b f) as [k|] eqn:Hk; [apply indexOf_bounds in Hk|]
       end.
  all: try subst buffer'; rewrite ?length_drop in *; lia.
Qed.

(** One item of the response stream: [chunk.text], [None] when it is not a
    string. *)
Definition chunk := option jsstring.

(** One turn of the [for await] loop: the fragment is appended to the buffer
    and the [while] loop run. *)
Definition feed (buffer : jsstring) (c : chunk) : list json * jsstring :=
  match c with
  | None => ([], buffer)
  | Some text =>
      let buffer := buffer ++ text in
      extract buffer (indexOf lbrace buffer 0)
  end.

(** The generator run over a finite stream, from a given buffer: for each
    fragment the values yielded while it was being handled, and the buffer
    dropped when the stream ends. *)
Fixpoint run_from (buffer : jsstring) (chunks : list chunk)
  : list (list json) * jsstring :=
  match chunks with
  | [] => ([], buffer)
  | c :: rest =>
      let '(out, buffer') := feed buffer c in
      let '(outs, final) := run_from buffer' rest in
      (out :: outs, final)
  end.

(** [parseJsonStream(responseStream)]: the values yielded, grouped by the
    fragment that made the generator yield them. *)
Definition parseJsonStream (responseStream : list chunk) : list (list json) :=
  fst (run_from [] responseStream).

(** ** The data model *)

(** Modelled from the spec: the [status] of an artifact, one of
    [streaming | complete | error].  The types of this section are declared
    in [types.ts], which is not among the sources: their fields are those of
    section 3 of the specification, which are also the ones [App] reads and
    writes. *)
Inductive Status : Set := streaming | complete | error.

Module Artifact.
(** Modelled from the spec: the type [Artifact] of [types.ts], with the
    fields [id], [styleName], [html] and [status].  [styleName] is a human
    label; at run time it holds whatever element [JSON.parse] returned for
    the label, or [undefined]. *)
Record t : Type := mk {
  id : jsstring;
  styleName : option json;
  html : jsstring;
  status : Status
}.

(** [{ ...art, html }] *)
Definition with_html (h : jsstring) (art : t) : t :=
  mk (id art) (styleName art) h (status art).

(** [{ ...art, html, status }] *)
Definition with_html_status (h : jsstring) (s : Status) (art : t) : t :=
  mk (id art) (styleName art) h s.

(** [{ ...art, styleName }] *)
Definition with_styleName (n : option json) (art : t) : t :=
  mk (id art) n (html art) (status art).

(** [{ ...art, id }] *)
Definition with_id (i : jsstring) (art : t) : t :=
  mk i (styleName art) (html art) (status art).
End Artifact.

Module Session.
(** Modelled from the spec: the type [Session] of [types.ts], one prompt
    submission with its artifacts in order. *)
Record t : Type := mk {
  id : jsstring;
  prompt : jsstring;
  timestamp : Z;
  artifacts : list Artifact.t
}.

(** [{ ...sess, artifacts }] *)
Definition with_artifacts (arts : list Artifact.t) (sess : t) : t :=
  mk (id sess) (prompt sess) (timestamp sess) arts.
End Session.

Module SavedArtifact.
(** Modelled from the spec: the type [SavedArtifact] of [types.ts], the
    fields of an artifact plus [prompt] and [savedAt]; the code builds it
    as [{ ...artifact, prompt, savedAt }]. *)
Record t : Type := mk {
  artifact : Artifact.t;
  prompt : jsstring;
  savedAt : Z
}.

Definition id (s : t) : jsstring := Artifact.id (artifact s).
End SavedArtifact.

(** Modelled from the spec: the type [ViewMode] of [types.ts]; the three
    values are the ones [App] gives to [setView] and compares [view] with. *)
Inductive ViewMode : Set := main | stack | vault.

(** The [mode] of the side drawer, as the [useState] of [App] declares it. *)
Inductive DrawerMode : Set := code | variations.

(** The type argument of the [useState] that holds [drawerState]. *)
Record DrawerState : Type := {
  isOpen : bool;
  mode : option DrawerMode;
  title : jsstring;
  data : option jsstring
}.

(** The state of [App] that the handlers below read and write. *)
Record State : Type := {
  view : ViewMode;
  sessions : list Session.t;
  currentSessionIndex : Z;
  focusedArtifactIndex : option nat;
  savedArtifacts : list SavedArtifact.t;
  isFullscreen : bool;
  inputValue : jsstring;
  isLoading : bool;
  drawerState : DrawerState
}.


(** [array[i]] for a number [i]: [undefined] out of range. *)
Definition at_index {A} (l : list A) (i : Z) : option A :=
  if (i <? 0)%Z then None else l !! Z.to_nat i.

Definition set_sessions (f : list Session.t → list Session.t) (st : State) : State :=
  {| view := view st; sessions := f (sessions st);
     currentSessionIndex := currentSessionIndex st;
     focusedArtifactIndex := focusedArtifactIndex st;
     savedArtifacts := savedArtifacts st; isFullscreen := isFullscreen st;
     inputValue := inputValue st; isLoading := isLoading st;
     drawerState := drawerState st |}.

Definition set_focusedArtifactIndex (f : option nat) (st : State) : State :=
  {| view := view st; sessions := sessions st;
     currentSessionIndex := currentSessionIndex st;
     focusedArtifactIndex := f;
     savedArtifacts := savedArtifacts st; isFullscreen := isFullscreen st;
     inputValue := inputValue st; isLoading := isLoading st;
     drawerState := drawerState st |}.

Definition set_currentSessionIndex (i : Z) (st : State) : State :=
  {| view := view st; sessions := sessions st;
     currentSessionIndex := i;
     focusedArtifactIndex := focusedArtifactIndex st;
     savedArtifacts := savedArtifacts st; isFullscreen := isFullscreen st;
     inputValue := inputValue st; isLoading := isLoading st;
     drawerState := drawerState st |}.

Definition set_savedArtifacts (f : list SavedArtifact.t → list SavedArtifact.t)
    (st : State) : State :=
  {| view := view st; sessions := sessions st;
     currentSessionIndex := currentSessionIndex st;
     focusedArtifactIndex := focusedArtifactIndex st;
     savedArtifacts := f (savedArtifacts st); isFullscreen := isFullscreen st;
     inputValue := inputValue st; isLoading := isLoading st;
     drawerState := drawerState st |}.

Definition set_drawerState (f : DrawerState → DrawerState) (st : State) : State :=
  {| view := view st; sessions := sessions st;
     currentSessionIndex := currentSessionIndex st;
     focusedArtifactIndex := focusedArtifactIndex st;
     savedArtifacts := savedArtifacts st; isFullscreen := isFullscreen st;
     inputValue := inputValue st; isLoading := isLoading st;
     drawerState := f (drawerState st) |}.

(** ** The variation view: [applyVariation] *)

Definition applyVariation (html : jsstring) (st : State) : State :=
  match focusedArtifactIndex st with
  | None => st
  | Some focused =>
      set_drawerState
        (fun s => {| isOpen := false; mode := mode s; title := title s; data := data s |})
        (set_sessions
           (imap (fun i sess =>
              if (Z.of_nat i =? currentSessionIndex st)%Z then
                Session.with_artifacts
                  (imap (fun j art =>
                     if (j =? focused)%nat
                     then Artifact.with_html_status html complete art
                     else art) (Session.artifacts sess))
                  sess
              else sess))
           st)
  end.

(** ** The vault: [handleSaveArtifact], [handleRemoveFromVault], [handleRestoreFromVault] *)

(** [now] is the value of [Date.now()]. The handler returns early when there
    is no current session or nothing is focused. When the focused index lies
    outside the current session, [artifact] is [undefined]: with entries in
    the vault the handler throws on [artifact.id], with an empty vault it
    stores an object that has no artifact fields; neither is a [State], and
    the result is [None]. *)
Definition handleSaveArtifact (now : Z) (st : State) : option State :=
  match at_index (sessions st) (currentSessionIndex st), focusedArtifactIndex st with
  | Some currentSession, Some focused =>
      match Session.artifacts currentSession !! focused with
      | None => None
      | Some artifact =>
          if existsb (fun s => bool_decide (SavedArtifact.id s = Artifact.id artifact))
               (savedArtifacts st)
          then Some st
          else
            let toSave := SavedArtifact.mk artifact (Session.prompt currentSession) now in
            Some (set_savedArtifacts (cons toSave) st)
      end
  | _, _ => Some st
  end.

Definition handleRemoveFromVault (id : jsstring) (st : State) : State :=
  set_savedArtifacts (filter (fun s => SavedArtifact.id s ≠ id)) st.

(** [sessionId] and [artifactId] are the values of the two calls of
    [generateId()], [now] the value of [Date.now()]; [generateId] is
    defined in [utils.ts], which is not among the sources, so that its
    values are parameters and nothing is assumed of them. *)
Definition handleRestoreFromVault (sessionId artifactId : jsstring) (now : Z)
    (saved : SavedArtifact.t) (st : State) : State :=
  let newSession :=
    Session.mk sessionId (SavedArtifact.prompt saved) now
      [Artifact.with_id artifactId (SavedArtifact.artifact saved)] in
  let next := sessions st ++ [newSession] in
  {| view := main;
     sessions := next;
     currentSessionIndex := Z.of_nat (length next) - 1;
     focusedArtifactIndex := Some 0%nat;
     savedArtifacts := savedArtifacts st;
     isFullscreen := isFullscreen st;
     inputValue := inputValue st;
     isLoading := isLoading st;
     drawerState := drawerState st |}.

(** ** Navigation: [handleGoHome], [nextItem], [prevItem], focus *)

Definition handleGoHome (st : State) : State :=
  {| view := main;
     sessions := [];
     currentSessionIndex := -1;
     focusedArtifactIndex := None;
     savedArtifacts := savedArtifacts st;
     isFullscreen := false;
     inputValue := [];
     isLoading := isLoading st;
     drawerState := drawerState st |}.

Definition nextItem (st : State) : State :=
  match focusedArtifactIndex st with
  | Some focused =>
      if (focused <? 2)%nat then set_focusedArtifactIndex (Some (focused + 1)%nat) st
      else st
  | None =>
      if (currentSessionIndex st <? Z.of_nat (length (sessions st)) - 1)%Z
      then set_currentSessionIndex (currentSessionIndex st + 1) st
      else st
  end.

Definition prevItem (st : State) : State :=
  match focusedArtifactIndex st with
  | Some focused =>
      if (0 <? focused)%nat then set_focusedArtifactIndex (Some (focused - 1)%nat) st
      else st
  | None =>
      if (0 <? currentSessionIndex st)%Z
      then set_currentSessionIndex (currentSessionIndex st - 1) st
      else st
  end.

(** The [onClick] of the card at index [aIndex], and of the grid button. *)
Definition focus (aIndex : nat) (st : State) : State :=
  set_focusedArtifactIndex (Some aIndex) st.

Definition unfocus (st : State) : State := set_focusedArtifactIndex None st.

(** [canGoForward], as the render computes it for the right-hand handle that
    calls [nextItem]. *)
Definition hasStarted (st : State) : bool :=
  (0 <? length (sessions st))%nat || isLoading st.

Definition canGoForward (st : State) : bool :=
  if hasStarted st && match view st with main => true | _ => false end
     && negb (isFullscreen st)
  then
    match focusedArtifactIndex st with
    | Some focused =>
        (Z.of_nat focused
         <? Z.of_nat (from_option (fun s => length (Session.artifacts s)) 0%nat
                        (at_index (sessions st) (currentSessionIndex st))) - 1)%Z
    | None => (currentSessionIndex st <? Z.of_nat (length (sessions st)) - 1)%Z
    end
  else false.

(** ** A new session and its direction labels: [handleSendMessage] *)

(** The three placeholders of a new session: ids [sessionId_0], [sessionId_1],
    [sessionId_2]. *)
Definition placeholderArtifacts (sessionId : jsstring) : list Artifact.t :=
  map (fun i =>
    Artifact.mk (sessionId ++ js "_" ++ [48 + i]) (Some (JString (js "Designing...")))
      [] streaming) [0; 1; 2].

(** The synchronous part of [handleSendMessage]: [sessionId] is the value
    of [generateId()], [baseTime] that of [Date.now()]. *)
Definition handleSendMessage_begin (manualPrompt : option jsstring)
    (sessionId : jsstring) (baseTime : Z) (st : State) : State :=
  let promptToUse :=
    match manualPrompt with
    | Some (c :: p) => c :: p
    | _ => inputValue st
    end in
  let trimmedInput := trim promptToUse in
  match trimmedInput with
  | [] => st
  | _ :: _ =>
      if isLoading st then st
      else
        let newSession :=
          Session.mk sessionId trimmedInput baseTime (placeholderArtifacts sessionId) in
        {| view := main;
           sessions := sessions st ++ [newSession];
           currentSessionIndex := Z.of_nat (length (sessions st));
           focusedArtifactIndex := None;
           savedArtifacts := savedArtifacts st;
           isFullscreen := isFullscreen st;
           inputValue :=
             match manualPrompt with
             | Some (_ :: _) => inputValue st
             | _ => []
             end;
           isLoading := true;
           drawerState := drawerState st |}
  end.

(** The last position holding [c], counting from [i]. *)
Fixpoint last_index_from (c : N) (s : jsstring) (i : nat) : option nat :=
  match s with
  | [] => None
  | d :: r =>
      match last_index_from c r (S i) with
      | Some k => Some k
      | None => if d =? c then Some i else None
      end
  end.

(** [styleText.match(/\[[\s\S]*\]/)]: the match begins at the first opening
    bracket and, the star being greedy, ends at the last closing bracket
    after it; [None] when there is no such pair. *)
Definition match_brackets (text : jsstring) : option jsstring :=
  match indexOf lbracket text 0 with
  | None => None
  | Some p =>
      match last_index_from rbracket (drop (p + 1) text) (p + 1) with
      | None => None
      | Some q => Some (substring p (q + 1) text)
      end
  end.

Definition fallback_styles : list json :=
  [JString (js "Modern Minimal"); JString (js "High-Tech Dark");
   JString (js "Organic Flow")].

(** [generatedStyles] after the [slice(0, 3)], from [styleResponse.text].
    [JSON.parse] can only return an array here, the matched text opening
    with a bracket; for any other value the result is [None]. *)
Definition resolve_styles (responseText : option jsstring) : option (list json) :=
  let styleText :=
    match responseText with
    | Some (c :: t) => c :: t
    | _ => js "[]"
    end in
  let generatedStyles :=
    match match_brackets styleText with
    | Some jsonMatch =>
        match JSON.parse jsonMatch with
        | Some v => v
        | None => JArray []
        end
    | None => JArray []
    end in
  match generatedStyles with
  | JArray l =>
      let l := if (length l <? 3)%nat then fallback_styles else l in
      Some (take 3 l)
  | _ => None
  end.

(** The updater of [setSessions] that writes the labels. *)
Definition apply_styles (sessionId : jsstring) (generatedStyles : list json)
    (prev : list Session.t) : list Session.t :=
  map (fun s =>
    if bool_decide (Session.id s ≠ sessionId) then s
    else
      Session.with_artifacts
        (imap (fun i art => Artifact.with_styleName (generatedStyles !! i) art)
           (Session.artifacts s))
        s) prev.

(** ** The body generator: [generateArtifact] *)

(** The updater of [setSessions] for one text increment: in the session with
    id [sessionId], the artifact with id [artifactId] gets the text
    accumulated so far. *)
Definition publish_html (sessionId artifactId accumulatedHtml : jsstring)
    (prev : list Session.t) : list Session.t :=
  map (fun sess =>
    if bool_decide (Session.id sess = sessionId) then
      Session.with_artifacts
        (map (fun art =>
           if bool_decide (Artifact.id art = artifactId)
           then Artifact.with_html accumulatedHtml art
           else art) (Session.artifacts sess))
        sess
    else sess) prev.

(** [finalHtml ? 'complete' : 'error'] *)
Definition final_status (finalHtml : jsstring) : Status :=
  match finalHtml with
  | [] => error
  | _ :: _ => complete
  end.

(** The updater of [setSessions] when the stream has ended. *)
Definition publish_final (sessionId artifactId finalHtml : jsstring)
    (prev : list Session.t) : list Session.t :=
  map (fun sess =>
    if bool_decide (Session.id sess = sessionId) then
      Session.with_artifacts
        (map (fun art =>
           if bool_decide (Artifact.id art = artifactId)
           then Artifact.with_html_status finalHtml (final_status finalHtml) art
           else art) (Session.artifacts sess))
        sess
    else sess) prev.

Definition fence : jsstring := js "```".
Definition fence_html : jsstring := js "```html".

(** [finalHtml], computed from [accumulatedHtml] once the stream has ended. *)
Definition finalize (accumulatedHtml : jsstring) : jsstring :=
  let finalHtml := trim accumulatedHtml in
  let finalHtml :=
    if startsWith fence_html finalHtml then trimStart (drop 7 finalHtml)
    else finalHtml in
  let finalHtml :=
    if startsWith fence finalHtml then trimStart (drop 3 finalHtml)
    else finalHtml in
  let finalHtml :=
    if endsWith fence finalHtml
    then trimEnd (substring 0 (length finalHtml - 3) finalHtml)
    else finalHtml in
  finalHtml.

(** ** The batch: [Promise.all] over the calls of [generateArtifact] *)

(** What a response stream does once the request is sent: it delivers
    [delivered] and then ends, or breaks (a request that fails at once
    delivers nothing and breaks). *)
Record Stream : Type := {
  delivered : list chunk;
  breaks : bool
}.

Inductive Promise : Set := pending | fulfilled | rejected.

#[global] Instance Promise_eq_dec : EqDecision Promise.
Proof. solve_decision. Defined.

(** One call of [generateArtifact(artifact, styleInstruction)] in flight:
    its arguments, what its stream has yet to deliver, the local variable
    [accumulatedHtml], and the state of the promise it returned. *)
Record Generator : Type := {
  artifact : Artifact.t;
  styleInstruction : option json;
  incoming : list chunk;
  will_break : bool;
  accumulatedHtml : jsstring;
  promise : Promise
}.

Definition start_generator (art : Artifact.t) (style : option json) (s : Stream)
  : Generator :=
  {| artifact := art; styleInstruction := style; incoming := delivered s;
     will_break := breaks s; accumulatedHtml := []; promise := pending |}.

(** One turn of a generator, between two [await]s, on the history it
    patches: one fragment handled, or the end of the stream (the final
    publish), or the [catch] (nothing published). In both last cases the
    [async] function returns and its promise is fulfilled. *)
Definition generator_turn (sessionId : jsstring) (g : Generator)
    (prev : list Session.t) : Generator * list Session.t :=
  match incoming g with
  | Some text :: rest =>
      let acc := accumulatedHtml g ++ text in
      ({| artifact := artifact g; styleInstruction := styleInstruction g;
          incoming := rest; will_break := will_break g;
          accumulatedHtml := acc; promise := pending |},
       publish_html sessionId (Artifact.id (artifact g)) acc prev)
  | None :: rest =>
      ({| artifact := artifact g; styleInstruction := styleInstruction g;
          incoming := rest; will_break := will_break g;
          accumulatedHtml := accumulatedHtml g; promise := pending |},
       prev)
  | [] =>
      ({| artifact := artifact g; styleInstruction := styleInstruction g;
          incoming := []; will_break := will_break g;
          accumulatedHtml := accumulatedHtml g; promise := fulfilled |},
       if will_break g then prev
       else publish_final sessionId (Artifact.id (artifact g))
              (finalize (accumulatedHtml g)) prev)
  end.

(** The part of the state the batch works on: [sessions], [isLoading] and
    the generators. *)
Record Batch : Type := {
  history : list Session.t;
  loading : bool;
  generators : list Generator
}.

(** What the event loop runs next: a turn of the generator at an index, or
    the continuation of [await Promise.all(...)], which ends in the
    [finally] block. *)
Inductive Event : Type := Turn (k : nat) | Join.

(** [Promise.all] settles when every promise is fulfilled or as soon as one
    is rejected. *)
Definition all_settles (gens : list Generator) : bool :=
  forallb (fun g => match promise g with fulfilled => true | _ => false end) gens
  || existsb (fun g => match promise g with rejected => true | _ => false end) gens.

(** One event, [None] when it cannot happen in that state. *)
Definition batch_step (sessionId : jsstring) (b : Batch) (e : Event) : option Batch :=
  match e with
  | Turn k =>
      match generators b !! k with
      | Some g =>
          match promise g with
          | pending =>
              let '(g', h') := generator_turn sessionId g (history b) in
              Some {| history := h'; loading := loading b;
                      generators := <[k := g']> (generators b) |}
          | _ => None
          end
      | None => None
      end
  | Join =>
      if loading b && all_settles (generators b)
      then Some {| history := history b; loading := false;
                   generators := generators b |}
      else None
  end.

Fixpoint batch_run (sessionId : jsstring) (b : Batch) (schedule : list Event)
  : option Batch :=
  match schedule with
  | [] => Some b
  | e :: rest =>
      match batch_step sessionId b e with
      | Some b' => batch_run sessionId b' rest
      | None => None
      end
  end.

(** The batch as [handleSendMessage] starts it, the labels written: the new
    session is the last of the history, one generator per placeholder. *)
Definition start_batch (sessionId prompt : jsstring) (baseTime : Z)
    (styles : list json) (streams : nat → Stream) (prev : list Session.t) : Batch :=
  {| history :=
       apply_styles sessionId styles
         (prev ++ [Session.mk sessionId prompt baseTime (placeholderArtifacts sessionId)]);
     loading := true;
     generators :=
       imap (fun i art => start_generator art (styles !! i) (streams i))
         (placeholderArtifacts sessionId) |}.

(** ** The source drawer, the save button and the left-hand handle *)

(** [handleShowCode]: nothing happens without a current session or a
    focused index; when the focused index lies outside the current session
    [artifact] is [undefined], the handler throws on [artifact.html], and the
    result is [None]. *)
Definition handleShowCode (st : State) : option State :=
  match at_index (sessions st) (currentSessionIndex st), focusedArtifactIndex st with
  | Some currentSession, Some focused =>
      match Session.artifacts currentSession !! focused with
      | None => None
      | Some artifact =>
          Some (set_drawerState
                  (fun _ => {| isOpen := true; mode := Some code;
                               title := js "Source Code";
                               data := Some (Artifact.html artifact) |}) st)
      end
  | _, _ => Some st
  end.

(** [canGoBack], as the render computes it for the left-hand handle that
    calls [prevItem]. *)
Definition canGoBack (st : State) : bool :=
  if hasStarted st && match view st with main => true | _ => false end
     && negb (isFullscreen st)
  then
    match focusedArtifactIndex st with
    | Some focused => (0 <? focused)%nat
    | None => (0 <? currentSessionIndex st)%Z
    end
  else false.

(** The test the render makes for the save button, which reads [Saved] and
    has the class [saved-btn-active] when it holds: some entry of the vault
    has the id of the focused artifact. The button is rendered with a
    focused index only; with no current session or no artifact at that
    index the optional chain gives [undefined], which is the id of no
    entry. *)
Definition isSaved (st : State) : bool :=
  match at_index (sessions st) (currentSessionIndex st), focusedArtifactIndex st with
  | Some currentSession, Some focused =>
      match Session.artifacts currentSession !! focused with
      | Some artifact =>
          existsb (fun s => bool_decide (SavedArtifact.id s = Artifact.id artifact))
            (savedArtifacts st)
      | None => false
      end
  | _, _ => false
  end.

(** [setIsFullscreen(prev => !prev)] *)
Definition handleToggleFullscreen (st : State) : State :=
  {| view := view st; sessions := sessions st;
     currentSessionIndex := currentSessionIndex st;
     focusedArtifactIndex := focusedArtifactIndex st;
     savedArtifacts := savedArtifacts st; isFullscreen := negb (isFullscreen st);
     inputValue := inputValue st; isLoading := isLoading st;
     drawerState := drawerState st |}.

(** ** The card: [ArtifactCard] *)

(** [isBlurring]: the card shows the overlay with the text received so far,
    and has the class [generating], while its artifact is [streaming]. *)
Definition isBlurring (artifact : Artifact.t) : bool :=
  match Artifact.status artifact with
  | streaming => true
  | _ => false
  end.

(** ** The vault in [localStorage] *)

(** The decimal digits of a natural number, most significant first: what
    [Number::toString] gives for it. [fuel] bounds the number of digits. *)
Fixpoint digits_fuel (fuel : nat) (n : N) : jsstring :=
  match fuel with
  | O => [48 + n mod 10]
  | S fuel' =>
      if n <? 10 then [48 + n]
      else digits_fuel fuel' (n / 10) ++ [48 + n mod 10]
  end.

Definition digits (n : N) : jsstring := digits_fuel (N.to_nat (N.size n)) n.

(** [JSON.stringify] of a number that is an integer below [10^21] in
    magnitude, as the time values of [Date.now()] are: its decimal digits,
    after a minus sign when it is negative. *)
Definition number_to_string (z : Z) : jsstring :=
  if (z <? 0)%Z then 45 :: digits (Z.to_N (- z)) else digits (Z.to_N z).

(** The string a status is in the code. *)
Definition status_name (s : Status) : jsstring :=
  match s with
  | streaming => js "streaming"
  | complete => js "complete"
  | error => js "error"
  end.

(** An entry of the vault as a JavaScript value: the object
    [{ ...artifact, prompt, savedAt }], whose keys are those of the
    placeholder literal, in its order, then [prompt] and [savedAt]. A
    [styleName] that is [undefined] is left out by [JSON.stringify]. *)
Definition saved_value (s : SavedArtifact.t) : json :=
  let art := SavedArtifact.artifact s in
  JObject
    ((js "id", JString (Artifact.id art))
     :: match Artifact.styleName art with
        | Some v => [(js "styleName", v)]
        | None => []
        end
     ++ [(js "html", JString (Artifact.html art));
         (js "status", JString (status_name (Artifact.status art)));
         (js "prompt", JString (SavedArtifact.prompt s));
         (js "savedAt", JNumber (number_to_string (SavedArtifact.savedAt s)))]).

(** The array [savedArtifacts] as a JavaScript value. *)
Definition vault_value (savedArtifacts : list SavedArtifact.t) : json :=
  JArray (map saved_value savedArtifacts).

(** The effect that runs when [savedArtifacts] has changed: the text it
    stores under [genfeatures_vault]. *)
Definition sync_vault (savedArtifacts : list SavedArtifact.t) : jsstring :=
  stringify (vault_value savedArtifacts).


(** ** The variation view: [handleGenerateVariations] *)

(** [setIsLoading(b)] *)
Definition set_isLoading (b : bool) (st : State) : State :=
  {| view := view st; sessions := sessions st;
     currentSessionIndex := currentSessionIndex st;
     focusedArtifactIndex := focusedArtifactIndex st;
     savedArtifacts := savedArtifacts st; isFullscreen := isFullscreen st;
     inputValue := inputValue st; isLoading := b;
     drawerState := drawerState st |}.

(** [object.key] for an object read by [JSON.parse]: of two members with
    the same name the later one counts; [None] for [undefined]. *)
Fixpoint get_member (key : jsstring) (members : list (jsstring * json)) : option json :=
  match members with
  | [] => None
  | (k, v) :: rest =>
      match get_member key rest with
      | Some w => Some w
      | None => if bool_decide (k = key) then Some v else None
      end
  end.

(** ToBoolean of a value read by [JSON.parse]; [number_truthy] says, for a
    number token, whether the number it denotes is other than zero. *)
Definition truthy (number_truthy : jsstring → bool) (v : json) : bool :=
  match v with
  | JNull => false
  | JBool b => b
  | JNumber lexeme => number_truthy lexeme
  | JString s => match s with [] => false | _ :: _ => true end
  | JArray _ | JObject _ => true
  end.

(** [variation.name && variation.html], for a [variation] that is not
    [null]: a value that is not an object has neither property. *)
Definition wanted (number_truthy : jsstring → bool) (variation : json) : bool :=
  match variation with
  | JObject members =>
      from_option (truthy number_truthy) false (get_member (js "name") members)
      && from_option (truthy number_truthy) false (get_member (js "html") members)
  | _ => false
  end.

(** The [for await] loop over the values yielded: the values it appends.
    On [null] the test throws, which ends the loop. *)
Fixpoint collect (number_truthy : jsstring → bool) (yielded : list json) : list json :=
  match yielded with
  | [] => []
  | JNull :: _ => []
  | variation :: rest =>
      if wanted number_truthy variation
      then variation :: collect number_truthy rest
      else collect number_truthy rest
  end.

(** [handleGenerateVariations], from the click to the [finally] block, on
    the state and the list [componentVariations]. [request] is what the
    request gives: [None] when there is no API key or the request is
    rejected, otherwise the response stream; a stream that breaks throws
    inside the [try] once it has delivered its fragments, which ends the
    loop as the end of the stream does. Without a current session or a
    focused index the handler returns at once. When the focused index lies
    outside the current session, [currentArtifact] is [undefined] and the
    handler throws on [currentArtifact.id], before the [try]: the loading
    flag has been set, the list emptied, and nothing else happens. *)
Definition handleGenerateVariations (number_truthy : jsstring → bool)
    (request : option Stream) (st : State) (componentVariations : list json)
  : State * list json :=
  match at_index (sessions st) (currentSessionIndex st), focusedArtifactIndex st with
  | Some currentSession, Some focused =>
      match Session.artifacts currentSession !! focused with
      | None => (set_isLoading true st, [])
      | Some currentArtifact =>
          let st1 :=
            set_drawerState
              (fun _ => {| isOpen := true; mode := Some variations;
                           title := js "Variations";
                           data := Some (Artifact.id currentArtifact) |})
              (set_isLoading true st) in
          let listed :=
            match request with
            | None => []
            | Some responseStream =>
                collect number_truthy (concat (parseJsonStream (delivered responseStream)))
            end in
          (set_isLoading false st1, listed)
      end
  | _, _ => (st, componentVariations)
  end.

(** ** The placeholders of the input *)

(** The tick of the interval: [(prev + 1) % placeholders.length], [None]
    standing for [NaN], which is what an empty list gives and what stays. *)
Definition next_placeholder (placeholders : list json) (prev : option nat)
  : option nat :=
  match prev, placeholders with
  | Some i, _ :: _ => Some ((i + 1) mod length placeholders)%nat
  | _, _ => None
  end.

(** The updater [fetchDynamicPlaceholders] gives to [setPlaceholders], the
    identity when it gives none. [response] is [None] when there is no API
    key or the request fails, and otherwise [response.text]. [sorted] is the
    array after [sort(() => 0.5 - Math.random())], of which the embedding
    says nothing. *)
Definition fetchDynamicPlaceholders (response : option (option jsstring))
    (sorted : list json → list json) (prev : list json) : list json :=
  match response with
  | None => prev
  | Some responseText =>
      let text :=
        match responseText with
        | Some (c :: t) => c :: t
        | _ => js "[]"
        end in
      match match_brackets text with
      | None => prev
      | Some jsonMatch =>
          match JSON.parse jsonMatch with
          | Some (JArray newPlaceholders) =>
              if (0 <? length newPlaceholders)%nat
              then prev ++ take 10 (sorted newPlaceholders)
              else prev
          | _ => prev
          end
      end
  end.

(** * Part II. The vocabulary of the properties *)

(** ** Braces in a text *)

Definition brace_delta (c : N) : Z :=
  if c =? lbrace then 1 else if c =? rbrace then (-1) else 0.

(** Opening braces minus closing braces. *)
Fixpoint depth (s : jsstring) : Z :=
  match s with
  | [] => 0
  | c :: r => brace_delta c + depth r
  end.

Definition is_brace (c : N) : bool := (c =? lbrace) || (c =? rbrace).

(** No brace at all in the text. *)
Definition brace_free (s : jsstring) : Prop := forallb (fun c => negb (is_brace c)) s = true.

(** No prefix of the text closes more braces than it opens. *)
Definition nested (s : jsstring) : Prop := ∀ k, (0 ≤ depth (take k s))%Z.

(** [nested], as a check. *)
Fixpoint never_negative (s : jsstring) (d : Z) : bool :=
  match s with
  | [] => true
  | c :: r => (0 <=? d + brace_delta c)%Z && never_negative r (d + brace_delta c)
  end.

Definition balanced (s : jsstring) : Prop := depth s = 0%Z ∧ nested s.

(** The text of one object: an opening brace, a properly nested middle, the
    closing brace. *)
Definition object_text (t : jsstring) : Prop :=
  ∃ m, t = lbrace :: m ++ [rbrace] ∧ balanced m.

(** A buffer in which the loop finds nothing to yield: it has no brace, or
    its first opening brace is never closed. *)
Definition idle (buffer : jsstring) : Prop :=
  match indexOf lbrace buffer 0 with
  | None => True
  | Some st => find_end buffer st = None
  end.

(** Text of which no prefix gives the loop anything to yield. *)
Definition quiet (tail : jsstring) : Prop := ∀ n, idle (take n tail).

(** ** Values and their texts *)

(** No code unit of a string of the value, member names included, is a
    brace. *)
Fixpoint brace_free_value (v : json) : bool :=
  match v with
  | JNull | JBool _ | JNumber _ => true
  | JString s => forallb (fun c => negb (is_brace c)) s
  | JArray vs => forallb brace_free_value vs
  | JObject ms =>
      forallb (fun m => forallb (fun c => negb (is_brace c)) (fst m)
                        && brace_free_value (snd m)) ms
  end.

Definition is_object (v : json) : bool :=
  match v with
  | JObject _ => true
  | _ => false
  end.

(** Induction on a value, with the hypothesis for every element and every
    member. *)
Section json_induction.
Variable P : json → Prop.
Hypothesis Hnull : P JNull.
Hypothesis Hbool : ∀ b, P (JBool b).
Hypothesis Hnumber : ∀ lx, P (JNumber lx).
Hypothesis Hstring : ∀ s, P (JString s).
Hypothesis Harray : ∀ vs, Forall P vs → P (JArray vs).
Hypothesis Hobject : ∀ ms, Forall (fun m => P (snd m)) ms → P (JObject ms).

Fixpoint json_induction (v : json) : P v :=
  match v with
  | JNull => Hnull
  | JBool b => Hbool b
  | JNumber lx => Hnumber lx
  | JString s => Hstring s
  | JArray vs =>
      Harray vs
        ((fix elems (l : list json) : Forall P l :=
            match l with
            | [] => Forall_nil_2 P
            | x :: l' => Forall_cons_2 P x l' (json_induction x) (elems l')
            end) vs)
  | JObject ms =>
      Hobject ms
        ((fix membs (l : list (jsstring * json)) : Forall (fun m => P (snd m)) l :=
            match l with
            | [] => Forall_nil_2 _
            | x :: l' => Forall_cons_2 _ x l' (json_induction (snd x)) (membs l')
            end) ms)
  end.
End json_induction.

(** What may follow a value in a JSON text written by [stringify]: nothing,
    a comma, a closing bracket or a closing brace. *)
Definition delimited (rest : jsstring) : Prop :=
  match rest with
  | [] => True
  | c :: _ => c = 44 ∨ c = rbracket ∨ c = rbrace
  end.

(** What may follow a number token without changing what the lexer reads. *)
Definition number_end (rest : jsstring) : Prop :=
  match rest with
  | [] => True
  | c :: _ => is_digit c = false ∧ c ≠ 46 ∧ c ≠ 101 ∧ c ≠ 69
  end.

(** The code units a number token is made of. *)
Definition number_unit (c : N) : bool :=
  is_digit c || (c =? 45) || (c =? 43) || (c =? 46) || (c =? 101) || (c =? 69).

(** A number token: the lexer reads all of it. *)
Definition is_number_token (lx : jsstring) : bool :=
  match lex_number lx with
  | Some (_, []) => true
  | _ => false
  end.

(** Every number of the value is a number token. *)
Fixpoint valid_numbers (v : json) : bool :=
  match v with
  | JNull | JBool _ | JString _ => true
  | JNumber lx => is_number_token lx
  | JArray vs => forallb valid_numbers vs
  | JObject ms => forallb (fun m => valid_numbers (snd m)) ms
  end.

(** The fuel [parse_value] needs for the text of a value. *)
Fixpoint weight (v : json) : nat :=
  match v with
  | JArray vs => S (sum_list (map (fun x => S (weight x)) vs))
  | JObject ms => S (sum_list (map (fun m => S (weight (snd m))) ms))
  | _ => 1
  end.

(** The property proved by induction on the value. *)
Definition reads_back (v : json) : Prop :=
  valid_numbers v = true →
  ∀ f rest, delimited rest → (weight v ≤ f)%nat →
    parse_value f (stringify v ++ rest) = Some (v, rest).

(** ** A stream of serialized objects *)

(** The text of a stream of objects: each object is written after some
    separator text (nothing, a comma, a line break, the bracket that opens
    an array), and some text may follow the last one. *)
Definition item_text (it : jsstring * json) : jsstring :=
  fst it ++ stringify (snd it).

Definition render (items : list (jsstring * json)) : jsstring :=
  concat (map item_text items).

(** The separator has no brace; the value is an object none of whose strings
    has one, and its numbers are number tokens. *)
Definition well_formed (it : jsstring * json) : Prop :=
  brace_free (fst it) ∧ is_object (snd it) = true
  ∧ brace_free_value (snd it) = true
  ∧ valid_numbers (snd it) = true.

(** The objects whose closing brace lies within the first [n] code units of
    the stream text. *)
Fixpoint closed_within (items : list (jsstring * json)) (n : nat) : list json :=
  match items with
  | [] => []
  | it :: rest =>
      if decide (length (item_text it) ≤ n)%nat
      then snd it :: closed_within rest (n - length (item_text it))
      else []
  end.

(** The text carried by the fragments. *)
Definition text_of (chunks : list chunk) : jsstring :=
  concat (map (from_option id []) chunks).

(** ** Normalization in the words of the specification *)


Definition strip_trailing_fence (s : jsstring) : jsstring :=
  if endsWith fence s then take (length s - 3) s else s.


Definition all_ws (s : jsstring) : Prop := forallb is_white_space s = true.

(** The first, respectively the last, code unit is not white space. *)
Definition start_trimmed (s : jsstring) : Prop :=
  match head s with
  | Some c => is_white_space c = false
  | None => True
  end.

Definition end_trimmed (s : jsstring) : Prop := start_trimmed (reverse s).

(** The last step of [finalize]. *)
Definition strip_end (x : jsstring) : jsstring :=
  if endsWith fence x then trimEnd (substring 0 (length x - 3) x) else x.

(** A second fence follows the leading `html` fence. *)
Definition double_fence (text : jsstring) : bool :=
  startsWith fence_html (trim text)
  && startsWith fence (trimStart (drop 7 (trim text))).

(** ** Patches, focus and vault *)

(** Both increments applied: what either order of the two patches gives. *)
Definition both_published (sessionId a1 h1 a2 h2 : jsstring) (prev : list Session.t)
  : list Session.t :=
  map (fun sess =>
    if bool_decide (Session.id sess = sessionId) then
      Session.mk (Session.id sess) (Session.prompt sess) (Session.timestamp sess)
        (map (fun art =>
           Artifact.mk (Artifact.id art) (Artifact.styleName art)
             (if bool_decide (Artifact.id art = a1) then h1
              else if bool_decide (Artifact.id art = a2) then h2
              else Artifact.html art)
             (Artifact.status art)) (Session.artifacts sess))
    else sess) prev.

(** The artifact count of the current session, 0 when there is none. *)
Definition current_count (st : State) : nat :=
  from_option (fun s => length (Session.artifacts s)) 0%nat
    (at_index (sessions st) (currentSessionIndex st)).

(** The invariant of the navigation state: a focused index lies inside the
    current session. *)
Definition focus_in_range (st : State) : Prop :=
  match focusedArtifactIndex st with
  | Some focused => (focused < current_count st)%nat
  | None => True
  end.

Definition vault_ids (st : State) : list jsstring :=
  map SavedArtifact.id (savedArtifacts st).

(** ** A running batch *)

(** A generator that has settled through the end of its stream. *)
Definition completed (g : Generator) : bool :=
  match promise g with
  | fulfilled => negb (will_break g)
  | _ => false
  end.

(** The artifact a generator has published so far. *)
Definition shown (g : Generator) : Artifact.t :=
  Artifact.mk (Artifact.id (artifact g)) (styleInstruction g)
    (if completed g then finalize (accumulatedHtml g) else accumulatedHtml g)
    (if completed g then final_status (finalize (accumulatedHtml g)) else streaming).

(** A generator some turns after [g0]: same arguments and stream, the text
    handled so far and the text to come make up the text of the stream, the
    promise is never rejected and is fulfilled only once the stream is done. *)
Definition evolves (g0 g : Generator) : Prop :=
  artifact g = artifact g0
  ∧ styleInstruction g = styleInstruction g0
  ∧ will_break g = will_break g0
  ∧ accumulatedHtml g ++ text_of (incoming g)
    = accumulatedHtml g0 ++ text_of (incoming g0)
  ∧ promise g ≠ rejected
  ∧ (promise g = fulfilled → incoming g = []).

(** The invariant of a running batch, [n] being the position of its session
    in the history. *)
Definition batch_inv (sessionId prompt : jsstring) (baseTime : Z) (n : nat)
    (gens0 : list Generator) (b : Batch) : Prop :=
  Forall2 evolves gens0 (generators b)
  ∧ history b !! n
    = Some (Session.mk sessionId prompt baseTime (map shown (generators b)))
  ∧ (loading b = false → Forall (fun g => promise g = fulfilled) (generators b)).

(** The turns a generator still has to take, and the events a batch still
    has to run. *)
Definition turns_left (g : Generator) : nat :=
  match promise g with
  | pending => S (length (incoming g))
  | _ => 0
  end.

Definition events_left (b : Batch) : nat :=
  sum_list (map turns_left (generators b)) + (if loading b then 1 else 0).

(** ** More of the vocabulary: buffers, shapes, patches, storage *)

(** The opening braces before position [k] have been tried and given up:
    each closes inside the buffer, on a text that [JSON.parse] rejects. *)
Definition given_up (buffer : jsstring) (k : nat) : Prop :=
  ∀ s, (s < k)%nat → buffer !! s = Some lbrace →
    ∃ e, find_end buffer s = Some e
         ∧ JSON.parse (substring s (e + 1) buffer) = None.

(** The [while] loop entered from the first opening brace. *)
Definition drain (buffer : jsstring) : list json * jsstring :=
  extract buffer (indexOf lbrace buffer 0).

(** One object of a response as it is written in the stream: the text
    before it, its own text, and the value [JSON.parse] reads from that
    text. *)
Record Block : Type := {
  lead : jsstring;
  body : jsstring;
  value : json
}.

(** The text before the object has no brace; the text of the object runs
    from an opening brace to the closing brace that matches it by count,
    whatever braces strings hold in between as long as they match too; and
    [JSON.parse] accepts it. *)
Definition streamed (b : Block) : Prop :=
  brace_free (lead b) ∧ object_text (body b) ∧ JSON.parse (body b) = Some (value b).

Definition blocks_text (blocks : list Block) : jsstring :=
  concat (map (fun b => lead b ++ body b) blocks).

(** The values of the blocks whose closing brace lies within the first [n]
    code units of the text of the blocks. *)
Fixpoint closed_blocks (blocks : list Block) (n : nat) : list json :=
  match blocks with
  | [] => []
  | b :: rest =>
      if decide (length (lead b ++ body b) ≤ n)%nat
      then value b :: closed_blocks rest (n - length (lead b ++ body b))
      else []
  end.

(** The current session index points at a session of the history, or is
    [-1] with an empty history. *)
Definition session_in_range (st : State) : Prop :=
  (sessions st = [] ∧ currentSessionIndex st = (-1)%Z)
  ∨ (0 ≤ currentSessionIndex st < Z.of_nat (length (sessions st)))%Z.

(** Every session holds at most the three artifacts of a batch. *)
Definition batch_sized (st : State) : Prop :=
  Forall (fun s => (length (Session.artifacts s) ≤ 3)%nat) (sessions st).

(** The state the navigation relies on. *)
Definition well_shaped (st : State) : Prop :=
  session_in_range st ∧ batch_sized st.

(** [part] occurs in [text] as a run of consecutive code units. *)
Definition occurs_in (part text : jsstring) : Prop :=
  ∃ before after, text = before ++ part ++ after.

(** The shape the patches of [generateArtifact] share: in the sessions with
    id [sessionId], the artifacts with id [artifactId] are replaced by their
    image under [f]. *)
Definition patch (sessionId artifactId : jsstring) (f : Artifact.t → Artifact.t)
    (prev : list Session.t) : list Session.t :=
  map (fun sess =>
    if bool_decide (Session.id sess = sessionId) then
      Session.with_artifacts
        (map (fun art => if bool_decide (Artifact.id art = artifactId) then f art else art)
           (Session.artifacts sess))
        sess
    else sess) prev.




(** From one history to the next no artifact that had left [streaming] is
    [streaming] again, position by position. *)
Definition statuses_advance (prev next : list Session.t) : Prop :=
  Forall2 (fun s s' =>
    Forall2 (fun a a' =>
      Artifact.status a ≠ streaming → Artifact.status a' ≠ streaming)
      (Session.artifacts s) (Session.artifacts s')) prev next.

(** ** Sample inputs *)

(** The scenario of the specification: two objects, the second one cut in
    the middle of a member. *)
Definition scenario_items : list (jsstring * json) :=
  [([], JObject [(js "a", JNumber (js "1"))]);
   ([], JObject [(js "b", JNumber (js "2"))])].

Definition scenario_stream : list chunk :=
  [Some (jsq "{'a':1}{'b'"); Some (jsq ":2}")].

(** A stream that ends inside its second object. *)
Definition cut_stream : list chunk :=
  [Some (jsq "{'a':1} {'b':{'c'"); Some (jsq ":2}")].


Definition sample_session : Session.t :=
  Session.mk (js "s1") (js "a pricing card") 0
    [Artifact.mk (js "s1_0") (Some (JString (js "Soft Glass"))) (js "<p>a</p>") complete;
     Artifact.mk (js "s1_1") (Some (JString (js "Brutalist"))) (js "<p>b") streaming;
     Artifact.mk (js "s1_2") (Some (JString (js "Neon"))) [] streaming].

Definition sample_state : State := {|
  view := main;
  sessions := [sample_session];
  currentSessionIndex := 0;
  focusedArtifactIndex := Some 1%nat;
  savedArtifacts := [];
  isFullscreen := false;
  inputValue := [];
  isLoading := false;
  drawerState := {| isOpen := true; mode := Some variations;
                    title := js "Variations"; data := Some (js "s1_1") |}
|}.

(** A batch in which the second stream breaks after one fragment. *)
Definition sample_streams (k : nat) : Stream :=
  match k with
  | 0%nat => {| delivered := [Some (js "<p>"); Some (js "a</p>")]; breaks := false |}
  | 1%nat => {| delivered := [Some (js "<div")]; breaks := true |}
  | _ => {| delivered := [None; Some (js "```html <b>c</b> ```")]; breaks := false |}
  end.

Definition sample_schedule : list Event :=
  [Turn 1; Turn 0; Turn 2; Turn 1; Turn 0; Turn 2; Turn 2; Turn 0; Join].

Definition sample_batch : Batch :=
  start_batch (js "s1") (js "a pricing card") 0 fallback_styles sample_streams [].

(** A variation whose markup has a style sheet, written with white space
    as a pretty printer would. *)
Definition styled_members : jsstring :=
  jsq " 'name': 'Calm', 'html': '<style>p { margin: 0 }</style><p>x</p>' ".

Definition styled_block : Block :=
  {| lead := js "data: ";
     body := lbrace :: styled_members ++ [rbrace];
     value := JObject [(js "name", JString (js "Calm"));
                       (js "html", JString (js "<style>p { margin: 0 }</style><p>x</p>"))] |}.

Definition styled_stream : list chunk :=
  [Some (jsq "data: { 'name': 'Calm', 'html': '<style>p { mar"); None;
   Some (jsq "gin: 0 }</style><p>x</p>' } done")].

(** A stream with a block that is not JSON before its object. *)
Definition junk_stream : list chunk :=
  [Some (js "data: {oo"); Some (jsq "ps}{'a':1}")].

(** The second artifact of the sample session, the focused one. *)
Definition sample_artifact : Artifact.t :=
  Artifact.mk (js "s1_1") (Some (JString (js "Brutalist"))) (js "<p>b") streaming.

Definition sample_vault : list SavedArtifact.t :=
  [SavedArtifact.mk sample_artifact (js "a pricing card") 1700000000000;
   SavedArtifact.mk (Artifact.mk (js "s0_2") None (js "<b>c</b>") complete)
     (js "a clock") (-1)].

(** A batch started after the sample session. *)
Definition later_batch : Batch :=
  start_batch (js "s2") (js "a clock") 9 fallback_styles sample_streams [sample_session].

(** Two variations, as the service streams them: the first has a style
    sheet in its markup, the second has no name. *)
Definition variation_blocks : list Block :=
  [styled_block;
   {| lead := js " done";
      body := jsq "{'name':'','html':'<p>y</p>'}";
      value := JObject [(js "name", JString []); (js "html", JString (js "<p>y</p>"))] |}].

Definition variation_stream : Stream :=
  {| delivered := styled_stream ++ [Some (jsq "{'name':'','html':'<p>y</")
                                    ; Some (jsq "p>'}")];
     breaks := true |}.

(** * Part III. Lemmas and theorems *)

(** ** The loop of the extractor *)

(** The loop, equation by equation, as it stands in the source. *)
Lemma extract_body buffer start :
  extract buffer start =
  match start with
  | None => ([], buffer)
  | Some st =>
      match find_end buffer st with
      | None => ([], buffer)
      | Some e =>
          match JSON.parse (substring st (e + 1) buffer) with
          | Some v =>
              let buffer' := drop (e + 1) buffer in
              let '(out, b) := extract buffer' (indexOf lbrace buffer' 0) in
              (v :: out, b)
          | None => extract buffer (indexOf lbrace buffer (st + 1))
          end
      end
  end.
Proof.
  destruct start as [st|]; simp extract; [|done].
  generalize (inspect (find_end buffer st)). intros [fe He].
  symmetry. rewrite He at 1. symmetry.
  destruct fe as [e|]; simp extract; [|done].
  destruct (JSON.parse _); simp extract; done.
Qed.

(** ** Brace depth *)

Lemma depth_app a b : depth (a ++ b) = (depth a + depth b)%Z.
Proof. induction a as [|c a IH]; simpl; lia. Qed.

Lemma brace_free_cons c s :
  brace_free (c :: s) ↔ is_brace c = false ∧ brace_free s.
Proof.
  unfold brace_free; simpl. rewrite andb_true_iff, negb_true_iff. done.
Qed.

Lemma brace_free_app a b : brace_free (a ++ b) ↔ brace_free a ∧ brace_free b.
Proof. unfold brace_free. rewrite forallb_app, andb_true_iff. done. Qed.

Lemma brace_free_nil : brace_free [].
Proof. done. Qed.

Lemma brace_free_take k s : brace_free s → brace_free (take k s).
Proof.
  intros H. rewrite <- (take_drop k s) in H. by apply brace_free_app in H as [? _].
Qed.

Lemma brace_delta_free c : is_brace c = false → brace_delta c = 0%Z.
Proof.
  unfold is_brace, brace_delta. intros [-> ->]%orb_false_iff. done.
Qed.

Lemma brace_free_depth s : brace_free s → depth s = 0%Z.
Proof.
  induction s as [|c s IH]; [done|].
  intros [Hc Hs]%brace_free_cons. simpl. rewrite (brace_delta_free _ Hc), IH; done.
Qed.

Lemma brace_free_balanced s : brace_free s → balanced s.
Proof.
  intros H. split; [by apply brace_free_depth|].
  intros k. rewrite brace_free_depth; [done|by apply brace_free_take].
Qed.

Lemma nested_app a b : nested a → (0 ≤ depth a)%Z → nested b → nested (a ++ b).
Proof.
  intros Ha Hd Hb k. rewrite take_app, depth_app.
  destruct (decide (k ≤ length a)%nat) as [Hk|Hk].
  - replace (k - length a)%nat with 0%nat by lia. rewrite take_0. simpl.
    specialize (Ha k). lia.
  - rewrite take_ge by lia. specialize (Hb (k - length a)%nat). lia.
Qed.

Lemma balanced_app a b : balanced a → balanced b → balanced (a ++ b).
Proof.
  intros [Ha1 Ha2] [Hb1 Hb2]. split.
  - rewrite depth_app. lia.
  - apply nested_app; [done|lia|done].
Qed.

Lemma balanced_nil : balanced [].
Proof. by apply brace_free_balanced. Qed.

Lemma balanced_concat l : Forall balanced l → balanced (concat l).
Proof.
  induction 1; simpl; [apply balanced_nil|by apply balanced_app].
Qed.

Lemma balanced_wrap m : balanced m → balanced (lbrace :: m ++ [rbrace]).
Proof.
  intros [Hd Hn]. split.
  - simpl. rewrite depth_app. simpl. unfold brace_delta. simpl. lia.
  - intros [|k]; [simpl; lia|]. simpl. rewrite take_app, depth_app.
    specialize (Hn k). change (brace_delta lbrace) with 1%Z.
    destruct (k - length m)%nat as [|[|?]]; simpl; unfold brace_delta; simpl; lia.
Qed.

(** ** [JSON.parse] reads back what [JSON.stringify] writes *)

Lemma hex_val_digit n : n < 16 → hex_val (hex_digit n) = Some n.
Proof.
  intros Hn. unfold hex_digit, hex_val, is_digit.
  destruct (n <? 10) eqn:E.
  - apply N.ltb_lt in E.
    replace ((48 <=? 48 + n) && (48 + n <=? 57)) with true
      by (symmetry; apply andb_true_iff; split; apply N.leb_le; lia).
    f_equal. lia.
  - apply N.ltb_ge in E.
    replace ((48 <=? 87 + n) && (87 + n <=? 57)) with false
      by (symmetry; apply andb_false_iff; right; apply N.leb_gt; lia).
    replace ((97 <=? 87 + n) && (87 + n <=? 102)) with true
      by (symmetry; apply andb_true_iff; split; apply N.leb_le; lia).
    f_equal. lia.
Qed.

Lemma hex4_uescape c :
  c < 65536 →
  hex4 (hex_digit (c / 4096 mod 16)) (hex_digit (c / 256 mod 16))
       (hex_digit (c / 16 mod 16)) (hex_digit (c mod 16)) = Some c.
Proof.
  intros Hc. unfold hex4.
  rewrite !hex_val_digit by (apply N.mod_lt; done). f_equal.
  zify. Z.to_euclidean_division_equations. lia.
Qed.

Lemma parse_chars_uescape c rest :
  c < 65536 → parse_chars (uescape c ++ rest) = cons_fst c (parse_chars rest).
Proof.
  intros Hc. unfold uescape. cbn [app parse_chars].
  change (backslash =? dquote) with false. change (backslash =? backslash) with true.
  change (117 =? 117) with true. cbv iota. by rewrite hex4_uescape.
Qed.

Lemma parse_chars_literal c rest :
  32 ≤ c → c ≠ dquote → c ≠ backslash →
  parse_chars (c :: rest) = cons_fst c (parse_chars rest).
Proof.
  intros H1 H2 H3. cbn [parse_chars].
  replace (c =? dquote) with false by (symmetry; by apply N.eqb_neq).
  replace (c =? backslash) with false by (symmetry; by apply N.eqb_neq).
  by replace (c <? 32) with false by (symmetry; by apply N.ltb_ge).
Qed.

Lemma parse_chars_quote_unit c rest :
  parse_chars (quote_unit c ++ rest) = cons_fst c (parse_chars rest).
Proof.
  unfold quote_unit.
  destruct (c =? 8) eqn:E8; [apply N.eqb_eq in E8 as ->; done|].
  destruct (c =? 9) eqn:E9; [apply N.eqb_eq in E9 as ->; done|].
  destruct (c =? 10) eqn:E10; [apply N.eqb_eq in E10 as ->; done|].
  destruct (c =? 12) eqn:E12; [apply N.eqb_eq in E12 as ->; done|].
  destruct (c =? 13) eqn:E13; [apply N.eqb_eq in E13 as ->; done|].
  destruct (c =? dquote) eqn:Eq; [apply N.eqb_eq in Eq as ->; done|].
  destruct (c =? backslash) eqn:Eb; [apply N.eqb_eq in Eb as ->; done|].
  destruct (c <? 32) eqn:E32.
  - apply N.ltb_lt in E32. apply parse_chars_uescape. lia.
  - apply N.ltb_ge in E32. apply N.eqb_neq in Eq, Eb.
    by apply parse_chars_literal.
Qed.

Lemma parse_chars_quote_units s rest :
  parse_chars (quote_units s ++ dquote :: rest) = Some (s, rest).
Proof.
  remember (length s) as n eqn:Hn. revert s Hn.
  induction n as [n IH] using lt_wf_ind. intros s Hn.
  destruct s as [|c r]; [done|]. cbn [quote_units]. cbn [length] in Hn.
  destruct (is_high_surrogate c) eqn:Hh.
  - unfold is_high_surrogate in Hh. apply andb_true_iff in Hh as [Hh1 Hh2].
    apply N.leb_le in Hh1, Hh2.
    destruct r as [|d r'].
    + rewrite parse_chars_uescape by lia. done.
    + destruct (is_low_surrogate d) eqn:Hl.
      * unfold is_low_surrogate in Hl. apply andb_true_iff in Hl as [Hl1 Hl2].
        apply N.leb_le in Hl1, Hl2. rewrite <- !app_comm_cons.
        rewrite parse_chars_literal by (unfold dquote, backslash; lia).
        rewrite parse_chars_literal by (unfold dquote, backslash; lia).
        rewrite (IH (length r')) by (cbn in Hn; done || lia). done.
      * rewrite <- app_assoc, parse_chars_uescape by lia.
        rewrite (IH (length (d :: r'))) by (done || lia). done.
  - destruct (is_low_surrogate c) eqn:Hl.
    + unfold is_low_surrogate in Hl. apply andb_true_iff in Hl as [Hl1 Hl2].
      apply N.leb_le in Hl1, Hl2.
      rewrite <- app_assoc, parse_chars_uescape by lia.
      rewrite (IH (length r)) by (done || lia). done.
    + rewrite <- app_assoc, parse_chars_quote_unit.
      rewrite (IH (length r)) by (done || lia). done.
Qed.

Lemma delimited_number_end rest : delimited rest → number_end rest.
Proof.
  destruct rest as [|c rest]; [done|]. unfold rbracket, rbrace.
  intros [-> | [-> | ->]]; repeat split; done.
Qed.

Lemma take_digits_split s : s = fst (take_digits s) ++ snd (take_digits s).
Proof.
  induction s as [|c s IH]; [done|]. cbn.
  destruct (is_digit c); [|done].
  destruct (take_digits s) as [ds r]. cbn in *. by rewrite <- IH.
Qed.

Lemma take_digits_ext s rest :
  snd (take_digits s) ≠ [] ∨ number_end rest →
  take_digits (s ++ rest)
  = (fst (take_digits s), snd (take_digits s) ++ rest).
Proof.
  induction s as [|c s IH]; cbn.
  - intros [H|H]; [done|]. destruct rest as [|d rest]; [done|].
    destruct H as (Hd & _). cbn. by rewrite Hd.
  - destruct (is_digit c); [|done].
    destruct (take_digits s) as [ds r]. cbn in *. intros H. by rewrite IH.
Qed.

Lemma lex_int_ext s rest ip r :
  lex_int s = Some (ip, r) → r ≠ [] ∨ number_end rest →
  lex_int (s ++ rest) = Some (ip, r ++ rest) ∧ s = ip ++ r.
Proof.
  destruct s as [|c s]; [done|]. cbn.
  destruct (c =? 48); [by intros [= <- <-]|].
  destruct (is_digit c); [|done].
  pose proof (take_digits_ext s rest) as Hext.
  pose proof (take_digits_split s) as Hsplit.
  destruct (take_digits s) as [ds r']. cbn in *.
  intros [= <- <-] H. rewrite Hext by done. by rewrite Hsplit at 1.
Qed.

Lemma lex_frac_ext s rest fp r :
  lex_frac s = Some (fp, r) → r ≠ [] ∨ number_end rest →
  lex_frac (s ++ rest) = Some (fp, r ++ rest) ∧ s = fp ++ r.
Proof.
  destruct s as [|c s]; cbn.
  - intros [= <- <-] [H|H]; [done|]. split; [|done].
    destruct rest as [|d rest]; [done|]. destruct H as (_ & Hd & _). cbn.
    by replace (d =? 46) with false by (symmetry; by apply N.eqb_neq).
  - destruct (c =? 46) eqn:Hc; [|by intros [= <- <-]].
    pose proof (take_digits_ext s rest) as Hext.
    pose proof (take_digits_split s) as Hsplit.
    destruct (take_digits s) as [[|d ds] r']; [done|]. cbn in *.
    intros [= <- <-] H. rewrite Hext by done. by rewrite Hsplit at 1.
Qed.

Lemma lex_exp_ext s rest ep r :
  lex_exp s = Some (ep, r) → r ≠ [] ∨ number_end rest →
  lex_exp (s ++ rest) = Some (ep, r ++ rest) ∧ s = ep ++ r.
Proof.
  destruct s as [|c s]; cbn.
  - intros [= <- <-] [H|H]; [done|]. split; [|done].
    destruct rest as [|d rest]; [done|]. destruct H as (_ & _ & H1 & H2). cbn.
    replace (d =? 101) with false by (symmetry; by apply N.eqb_neq).
    by replace (d =? 69) with false by (symmetry; by apply N.eqb_neq).
  - destruct ((c =? 101) || (c =? 69)) eqn:Hc; [|by intros [= <- <-]].
    destruct s as [|g s'].
    + done.
    + cbn. destruct ((g =? 43) || (g =? 45)) eqn:Hg.
      * pose proof (take_digits_ext s' rest) as Hext.
        pose proof (take_digits_split s') as Hsplit.
        destruct (take_digits s') as [[|d ds] r']; [done|]. cbn in *.
        intros [= <- <-] H. rewrite Hext by done. by rewrite Hsplit at 1.
      * pose proof (take_digits_ext (g :: s') rest) as Hext.
        pose proof (take_digits_split (g :: s')) as Hsplit.
        change ((g :: s') ++ rest) with (g :: s' ++ rest) in Hext.
        destruct (take_digits (g :: s')) as [[|d ds] r'] eqn:Htd; [done|].
        cbn [fst snd] in *.
        intros [= <- <-] H. rewrite Hext by done. by rewrite Hsplit at 1.
Qed.

Lemma lex_number_ext lx rest :
  is_number_token lx = true → number_end rest →
  lex_number (lx ++ rest) = Some (lx, rest).
Proof.
  unfold is_number_token, lex_number. intros Htok Hrest.
  set (sign := match lx with c :: r => if c =? 45 then ([c], r) else ([], lx) | [] => ([], lx) end) in *.
  assert (Hsign : match lx ++ rest with
                  | c :: r => if c =? 45 then ([c], r) else ([], lx ++ rest)
                  | [] => ([], lx ++ rest)
                  end = (fst sign, snd sign ++ rest) ∨ lx = []).
  { subst sign. destruct lx as [|c r]; [by right|]. left. cbn.
    by destruct (c =? 45). }
  destruct Hsign as [Hsign| ->]; [|done].
  rewrite Hsign.
  assert (Hlx : lx = fst sign ++ snd sign).
  { subst sign. destruct lx as [|c r]; [done|]. by destruct (c =? 45). }
  destruct sign as [sg s0]. cbn [fst snd] in *.
  destruct (lex_int s0) as [[ip s1]|] eqn:Hint; [|done].
  destruct (lex_frac s1) as [[fp s2]|] eqn:Hfrac; [|done].
  destruct (lex_exp s2) as [[ep s3]|] eqn:Hexp; [|done].
  destruct s3 as [|? ?]; [|done].
  destruct (lex_exp_ext _ rest _ _ Hexp (or_intror Hrest)) as [Hexp' Hs2].
  assert (H2 : s2 ≠ [] ∨ number_end rest).
  { destruct s2; [by right|by left]. }
  destruct (lex_frac_ext _ rest _ _ Hfrac H2) as [Hfrac' Hs1].
  assert (H1 : s1 ≠ [] ∨ number_end rest).
  { destruct s1; [by right|by left]. }
  destruct (lex_int_ext _ rest _ _ Hint H1) as [Hint' Hs0].
  rewrite Hint', Hfrac', Hexp'. cbn [app].
  by rewrite Hlx, Hs0, Hs1, Hs2, app_nil_r.
Qed.

Lemma number_token_head lx :
  is_number_token lx = true →
  ∃ c r, lx = c :: r ∧ (c = 45 ∨ is_digit c = true).
Proof.
  unfold is_number_token, lex_number. destruct lx as [|c r]; [done|].
  intros H. exists c, r. split; [done|].
  destruct (c =? 45) eqn:Hc; [left; by apply N.eqb_eq|right].
  cbn [lex_int] in H. destruct (c =? 48) eqn:H0.
  - apply N.eqb_eq in H0 as ->. done.
  - by destruct (is_digit c).
Qed.

Lemma skip_ws_head c r : is_ws c = false → skip_ws (c :: r) = c :: r.
Proof. intros H. cbn. by rewrite H. Qed.

Lemma parse_value_array f r :
  parse_value (S f) (lbracket :: r)
  = match skip_ws r with
    | [] => None
    | d :: r' =>
        if d =? rbracket then Some (JArray [], r')
        else
          match parse_elements f (d :: r') with
          | Some (vs, rest) => Some (JArray vs, rest)
          | None => None
          end
    end.
Proof. reflexivity. Qed.

Lemma parse_value_object f r :
  parse_value (S f) (lbrace :: r)
  = match skip_ws r with
    | [] => None
    | d :: r' =>
        if d =? rbrace then Some (JObject [], r')
        else
          match parse_members f (d :: r') with
          | Some (ms, rest) => Some (JObject ms, rest)
          | None => None
          end
    end.
Proof. reflexivity. Qed.

Lemma parse_value_string f r :
  parse_value (S f) (dquote :: r)
  = match parse_chars r with
    | Some (str, rest) => Some (JString str, rest)
    | None => None
    end.
Proof. reflexivity. Qed.

Lemma parse_value_number f c r :
  c = 45 ∨ is_digit c = true →
  parse_value (S f) (c :: r)
  = match lex_number (c :: r) with
    | Some (lx, rest) => Some (JNumber lx, rest)
    | None => None
    end.
Proof.
  intros Hc.
  assert (Hr : c = 45 ∨ (48 ≤ c ∧ c ≤ 57)).
  { destruct Hc as [->|Hd]; [by left|right]. unfold is_digit in Hd.
    apply andb_true_iff in Hd as [H1 H2]. apply N.leb_le in H1, H2. done. }
  assert (Hne : ∀ k, k ≠ 45 → ¬ (48 ≤ k ∧ k ≤ 57) → (c =? k) = false).
  { intros k H1 H2. apply N.eqb_neq. intros ->. destruct Hr as [?|?]; done. }
  cbn [parse_value skip_ws]. unfold is_ws.
  rewrite !(Hne 32), !(Hne 9), !(Hne 10), !(Hne 13) by lia. cbn [orb].
  unfold lbrace, lbracket, dquote.
  rewrite (Hne 123), (Hne 91), (Hne 34), (Hne 116), (Hne 102), (Hne 110) by lia.
  done.
Qed.

Lemma parse_elements_S f s :
  parse_elements (S f) s
  = match parse_value f s with
    | None => None
    | Some (v, rest) =>
        match skip_ws rest with
        | [] => None
        | c :: r =>
            if c =? 44 then cons_fst v (parse_elements f r)
            else if c =? rbracket then Some ([v], r)
            else None
        end
    end.
Proof. reflexivity. Qed.

Lemma parse_members_S f r0 :
  parse_members (S f) (dquote :: r0)
  = match parse_chars r0 with
    | None => None
    | Some (key, r1) =>
        match skip_ws r1 with
        | [] => None
        | colon :: r2 =>
            if colon =? 58 then
              match parse_value f r2 with
              | None => None
              | Some (v, rest) =>
                  match skip_ws rest with
                  | [] => None
                  | c :: r =>
                      if c =? 44 then cons_fst (key, v) (parse_members f r)
                      else if c =? rbrace then Some ([(key, v)], r)
                      else None
                  end
              end
            else None
        end
    end.
Proof. reflexivity. Qed.

Lemma join_with_cons sep a b l :
  join_with sep (a :: b :: l) = a ++ sep :: join_with sep (b :: l).
Proof. done. Qed.

Lemma join_with_one sep a : join_with sep [a] = a.
Proof. cbn. by rewrite app_nil_r. Qed.

(** The first code unit of the text of a value. *)
Lemma stringify_head v :
  valid_numbers v = true →
  ∃ c t, stringify v = c :: t ∧ is_ws c = false ∧ c ≠ rbracket ∧ c ≠ rbrace.
Proof.
  destruct v as [ |b|lx|s|vs|ms]; cbn [stringify valid_numbers]; intros Hv.
  - by eexists _, _.
  - destruct b; by eexists _, _.
  - apply number_token_head in Hv as (c & r & -> & Hc). exists c, r.
    split; [done|]. destruct Hc as [->|Hd]; [done|].
    unfold is_digit in Hd. apply andb_true_iff in Hd as [H1 H2].
    apply N.leb_le in H1, H2. unfold is_ws, rbracket, rbrace.
    repeat split; try lia.
    repeat (apply orb_false_iff; split); apply N.eqb_neq; lia.
  - by eexists _, _.
  - by eexists _, _.
  - by eexists _, _.
Qed.

Lemma parse_elements_stringify vs :
  vs ≠ [] → Forall reads_back vs → forallb valid_numbers vs = true →
  ∀ f rest, (sum_list (map (fun x => S (weight x)) vs) ≤ f)%nat →
    parse_elements f (join_with 44 (map stringify vs) ++ rbracket :: rest)
    = Some (vs, rest).
Proof.
  intros Hne Hall. induction Hall as [|v vs Hv Hvs IH]; [done|]. clear Hne.
  cbn [forallb]. intros [Hvalid Hvalids]%andb_true_iff f rest Hf.
  cbn [map sum_list_with id] in Hf. destruct f as [|f]; [lia|].
  rewrite parse_elements_S. destruct vs as [|v2 vs].
  - cbn [map]. rewrite join_with_one.
    rewrite (Hv Hvalid f (rbracket :: rest)); [|by right; left|cbn in Hf; lia].
    rewrite skip_ws_head by done. done.
  - cbn [map]. rewrite join_with_cons, <- app_assoc. cbn [app].
    rewrite (Hv Hvalid f (44 :: _)); [|by left|lia].
    rewrite skip_ws_head by done. change (44 =? 44) with true. cbv iota.
    change (stringify v2 :: map stringify vs) with (map stringify (v2 :: vs)).
    rewrite IH; [done|done|done|lia].
Qed.

Lemma parse_members_stringify ms :
  ms ≠ [] → Forall (fun m => reads_back (snd m)) ms →
  forallb (fun m => valid_numbers (snd m)) ms = true →
  ∀ f rest, (sum_list (map (fun m => S (weight (snd m))) ms) ≤ f)%nat →
    parse_members f
      (join_with 44 (map (fun m => quote (fst m) ++ 58 :: stringify (snd m)) ms)
       ++ rbrace :: rest)
    = Some (ms, rest).
Proof.
  intros Hne Hall. induction Hall as [|[key v] ms Hv Hvs IH]; [done|]. clear Hne.
  cbn [forallb fst snd] in *.
  intros [Hvalid Hvalids]%andb_true_iff f rest Hf.
  cbn [map sum_list_with id fst snd] in Hf. destruct f as [|f]; [lia|].
  destruct ms as [|m2 ms].
  - cbn [map fst snd]. rewrite join_with_one. unfold quote.
    rewrite <- !app_assoc. cbn [app]. rewrite <- !app_assoc. cbn [app].
    rewrite parse_members_S, parse_chars_quote_units.
    rewrite skip_ws_head by done. change (58 =? 58) with true. cbv iota.
    rewrite (Hv Hvalid f (rbrace :: rest)); [|by right; right|cbn in Hf; lia].
    rewrite skip_ws_head by done. done.
  - cbn [map fst snd]. rewrite join_with_cons. unfold quote at 1.
    rewrite <- !app_assoc. cbn [app]. rewrite <- !app_assoc. cbn [app].
    rewrite parse_members_S, parse_chars_quote_units.
    rewrite skip_ws_head by done. change (58 =? 58) with true. cbv iota.
    rewrite (Hv Hvalid f (44 :: _)); [|by left|lia].
    rewrite skip_ws_head by done. change (44 =? 44) with true. cbv iota.
    change ((quote m2.1 ++ 58 :: stringify m2.2)
            :: map (fun m => quote m.1 ++ 58 :: stringify m.2) ms)
      with (map (fun m => quote m.1 ++ 58 :: stringify m.2) (m2 :: ms)).
    rewrite IH; [done|done|done|lia].
Qed.

Lemma parse_value_stringify v : reads_back v.
Proof.
  induction v as [ |b|lx|s|vs IH|ms IH] using json_induction;
    intros Hvalid f rest Hrest Hf; cbn [weight] in Hf;
    (destruct f as [|f]; [lia|]); cbn [stringify valid_numbers] in *.
  - reflexivity.
  - destruct b; reflexivity.
  - destruct (number_token_head lx Hvalid) as (c & r & Hlx & Hc).
    rewrite Hlx at 1. rewrite <- app_comm_cons, parse_value_number by done.
    rewrite app_comm_cons, <- Hlx.
    by rewrite lex_number_ext by (done || by apply delimited_number_end).
  - unfold quote. rewrite <- app_comm_cons, <- app_assoc. cbn [app].
    by rewrite parse_value_string, parse_chars_quote_units.
  - rewrite <- app_comm_cons, <- app_assoc. cbn [app]. rewrite parse_value_array.
    destruct vs as [|v vs].
    + reflexivity.
    + assert (Hv : valid_numbers v = true)
        by (cbn in Hvalid; by apply andb_true_iff in Hvalid as [? _]).
      destruct (stringify_head v Hv) as (c & t & Hs & Hw & Hb & _).
      assert (Hjoin : ∃ t', join_with 44 (map stringify (v :: vs)) ++ rbracket :: rest
                            = c :: t').
      { destruct vs; cbn [map]; [rewrite join_with_one|rewrite join_with_cons];
          rewrite Hs; by eexists. }
      destruct Hjoin as (t' & Hjoin). rewrite Hjoin, skip_ws_head by done.
      replace (c =? rbracket) with false by (symmetry; by apply N.eqb_neq).
      rewrite <- Hjoin. rewrite parse_elements_stringify; [done|done|done|done|lia].
  - rewrite <- app_comm_cons, <- app_assoc. cbn [app]. rewrite parse_value_object.
    destruct ms as [|[key v] ms].
    + reflexivity.
    + assert (Hjoin : ∃ t', join_with 44
                  (map (fun m => quote m.1 ++ 58 :: stringify m.2) ((key, v) :: ms))
                ++ rbrace :: rest = dquote :: t').
      { destruct ms; cbn [map]; [rewrite join_with_one|rewrite join_with_cons];
          unfold quote; by eexists. }
      destruct Hjoin as (t' & Hjoin). rewrite Hjoin, skip_ws_head by done.
      change (dquote =? rbrace) with false. cbv iota.
      rewrite <- Hjoin. rewrite parse_members_stringify; [done|done|done|done|lia].
Qed.

Lemma join_with_length sep parts :
  (sum_list (map length parts) ≤ length (join_with sep parts))%nat.
Proof.
  destruct parts as [|p ps]; [done|]. cbn. rewrite length_app.
  apply Nat.add_le_mono_l. induction ps as [|q ps IH]; [done|].
  cbn. rewrite length_app. lia.
Qed.

(** The fuel [JSON.parse] starts with is enough for the text of a value. *)
Lemma weight_stringify v :
  valid_numbers v = true → (weight v < 2 * length (stringify v))%nat.
Proof.
  induction v as [ |b|lx|s|vs IH|ms IH] using json_induction;
    cbn [weight stringify valid_numbers]; intros Hvalid.
  - cbn. lia.
  - destruct b; cbn; lia.
  - apply number_token_head in Hvalid as (c & r & -> & _). cbn. lia.
  - unfold quote. cbn. lia.
  - assert (H : (sum_list (map (fun x => S (weight x)) vs)
                 ≤ 2 * sum_list (map length (map stringify vs)))%nat).
    { induction IH as [|v vs Hv _ IHvs]; [done|]. cbn in Hvalid.
      apply andb_true_iff in Hvalid as [H1 H2]. cbn [map sum_list_with id].
      specialize (Hv H1). specialize (IHvs H2). lia. }
    pose proof (join_with_length 44 (map stringify vs)).
    cbn [length]. rewrite length_app. cbn [length]. lia.
  - assert (H : (sum_list (map (fun m => S (weight (snd m))) ms)
                 ≤ 2 * sum_list (map length
                         (map (fun m => quote m.1 ++ 58%N :: stringify m.2) ms)))%nat).
    { induction IH as [|[key v] ms Hv _ IHms]; [done|]. cbn [forallb fst snd] in *.
      apply andb_true_iff in Hvalid as [H1 H2]. cbn [map sum_list_with id fst snd].
      specialize (Hv H1). specialize (IHms H2).
      rewrite length_app. cbn [length]. lia. }
    pose proof (join_with_length 44
                  (map (fun m => quote m.1 ++ 58 :: stringify m.2) ms)).
    cbn [length]. rewrite length_app. cbn [length]. lia.
Qed.

(** [JSON.parse(JSON.stringify(v))] is [v]. *)
Theorem parse_stringify v :
  valid_numbers v = true → JSON.parse (stringify v) = Some v.
Proof.
  intros Hv. unfold JSON.parse.
  pose proof (parse_value_stringify v Hv (2 * length (stringify v) + 2)%nat []) as H.
  rewrite app_nil_r in H. rewrite H; [done|done|].
  pose proof (weight_stringify v Hv). lia.
Qed.

Lemma take_digits_units s : forallb number_unit (fst (take_digits s)) = true.
Proof.
  induction s as [|c s IH]; [done|]. cbn.
  destruct (is_digit c) eqn:Hc; [|done].
  destruct (take_digits s) as [ds r]. cbn in *. unfold number_unit at 1.
  by rewrite Hc, IH.
Qed.

Lemma lex_int_units s ip r : lex_int s = Some (ip, r) → forallb number_unit ip = true.
Proof.
  destruct s as [|c s]; [done|]. cbn.
  destruct (c =? 48) eqn:H0; [apply N.eqb_eq in H0 as ->; by intros [= <- <-]|].
  destruct (is_digit c) eqn:Hc; [|done].
  pose proof (take_digits_units s) as Hd.
  destruct (take_digits s) as [ds r']. intros [= <- <-]. cbn in *.
  unfold number_unit at 1. by rewrite Hc, Hd.
Qed.

Lemma lex_frac_units s fp r : lex_frac s = Some (fp, r) → forallb number_unit fp = true.
Proof.
  destruct s as [|c s]; cbn; [by intros [= <- <-]|].
  destruct (c =? 46) eqn:Hc; [|by intros [= <- <-]].
  pose proof (take_digits_units s) as Hd.
  destruct (take_digits s) as [[|d ds] r']; [done|]. intros [= <- <-].
  apply N.eqb_eq in Hc as ->. cbn in *. done.
Qed.

Lemma lex_exp_units s ep r : lex_exp s = Some (ep, r) → forallb number_unit ep = true.
Proof.
  destruct s as [|c s]; cbn; [by intros [= <- <-]|].
  destruct ((c =? 101) || (c =? 69)) eqn:Hc; [|by intros [= <- <-]].
  assert (Hcu : number_unit c = true).
  { unfold number_unit. apply orb_true_iff in Hc as [Hc|Hc];
      apply N.eqb_eq in Hc as ->; done. }
  destruct s as [|g s'].
  - done.
  - destruct ((g =? 43) || (g =? 45)) eqn:Hg.
    + pose proof (take_digits_units s') as Hd.
      destruct (take_digits s') as [[|d ds] r']; [done|]. intros [= <- <-].
      cbn [fst] in Hd. cbn [forallb app]. rewrite Hcu. cbn [andb].
      change (forallb number_unit (d :: ds)) with
        (number_unit d && forallb number_unit ds) in Hd. rewrite Hd.
      unfold number_unit. apply orb_true_iff in Hg as [Hg|Hg];
        apply N.eqb_eq in Hg as ->; done.
    + pose proof (take_digits_units (g :: s')) as Hd.
      destruct (take_digits (g :: s')) as [[|d ds] r']; [done|]. intros [= <- <-].
      cbn [fst] in Hd. cbn [forallb app]. rewrite Hcu. cbn [andb].
      exact Hd.
Qed.

Lemma lex_number_split s l r : lex_number s = Some (l, r) → s = l ++ r.
Proof.
  unfold lex_number.
  set (sign := match s with c :: r => if c =? 45 then ([c], r) else ([], s) | [] => ([], s) end).
  assert (Hs : s = fst sign ++ snd sign).
  { subst sign. destruct s as [|c t]; [done|]. by destruct (c =? 45). }
  destruct sign as [sg s0]. cbn [fst snd] in Hs.
  destruct (lex_int s0) as [[ip s1]|] eqn:Hint; [|done].
  destruct (lex_frac s1) as [[fp s2]|] eqn:Hfrac; [|done].
  destruct (lex_exp s2) as [[ep s3]|] eqn:Hexp; [|done].
  intros [= <- <-].
  destruct (lex_int_ext _ [] _ _ Hint (or_intror I)) as [_ H0].
  destruct (lex_frac_ext _ [] _ _ Hfrac (or_intror I)) as [_ H1].
  destruct (lex_exp_ext _ [] _ _ Hexp (or_intror I)) as [_ H2].
  by rewrite Hs, H0, H1, H2, <- !app_assoc.
Qed.

Lemma number_token_units lx :
  is_number_token lx = true → forallb number_unit lx = true.
Proof.
  unfold is_number_token. destruct (lex_number lx) as [[l [|? ?]]|] eqn:Hlex; try done.
  intros _. apply lex_number_split in Hlex as Hlx. rewrite app_nil_r in Hlx. subst l.
  revert Hlex. unfold lex_number.
  set (sign := match lx with c :: r => if c =? 45 then ([c], r) else ([], lx) | [] => ([], lx) end).
  assert (Hsg : forallb number_unit (fst sign) = true).
  { subst sign. destruct lx as [|c t]; [done|].
    destruct (c =? 45) eqn:Hc; [|done]. apply N.eqb_eq in Hc as ->. done. }
  destruct sign as [sg s0]. cbn [fst] in Hsg.
  destruct (lex_int s0) as [[ip s1]|] eqn:Hint; [|done].
  destruct (lex_frac s1) as [[fp s2]|] eqn:Hfrac; [|done].
  destruct (lex_exp s2) as [[ep s3]|] eqn:Hexp; [|done].
  intros [= Hl _]. rewrite <- Hl, !forallb_app, Hsg.
  by rewrite (lex_int_units _ _ _ Hint), (lex_frac_units _ _ _ Hfrac),
    (lex_exp_units _ _ _ Hexp).
Qed.

Lemma number_token_brace_free lx : is_number_token lx = true → brace_free lx.
Proof.
  intros H%number_token_units. unfold brace_free.
  rewrite forallb_forall in *. intros c Hc. specialize (H c Hc).
  unfold number_unit, is_digit in H. unfold is_brace, lbrace, rbrace.
  apply negb_true_iff, orb_false_iff. split; apply N.eqb_neq; intros ->; done.
Qed.

(** ** Texts of values with brace-free strings *)

Arguments uescape : simpl never.
Arguments quote_unit : simpl never.
Arguments quote : simpl never.

Lemma hex_digit_no_brace n : n < 16 → is_brace (hex_digit n) = false.
Proof.
  intros Hn. unfold hex_digit, is_brace, lbrace, rbrace.
  destruct (n <? 10) eqn:E; [apply N.ltb_lt in E|apply N.ltb_ge in E];
    apply orb_false_iff; split; apply N.eqb_neq; lia.
Qed.

Lemma uescape_brace_free c : brace_free (uescape c).
Proof.
  unfold uescape.
  repeat (apply brace_free_cons; split); try done;
    apply hex_digit_no_brace, N.mod_lt; done.
Qed.

Lemma quote_unit_brace_free c : is_brace c = false → brace_free (quote_unit c).
Proof.
  intros Hc. unfold quote_unit.
  repeat (case_match; [done|]).
  case_match; [apply uescape_brace_free|].
  apply brace_free_cons. done.
Qed.

Lemma quote_units_brace_free s : brace_free s → brace_free (quote_units s).
Proof.
  remember (length s) as n eqn:Hn. revert s Hn.
  induction n as [n IH] using lt_wf_ind. intros s Hn.
  destruct s as [|c r]; [done|]. intros [Hc Hr]%brace_free_cons.
  cbn [quote_units]. simpl in Hn.
  destruct (is_high_surrogate c).
  - destruct r as [|d r']; [apply uescape_brace_free|].
    apply brace_free_cons in Hr as Hr'. destruct Hr' as [Hd Hr'].
    destruct (is_low_surrogate d).
    + apply brace_free_cons; split; [done|]. apply brace_free_cons; split; [done|].
      apply (IH (length r')); [simpl in Hn; lia|done|done].
    + apply brace_free_app; split; [apply uescape_brace_free|].
      apply (IH (length (d :: r'))); [lia|done|done].
  - destruct (is_low_surrogate c); apply brace_free_app; split;
      try apply uescape_brace_free; try (by apply quote_unit_brace_free);
      apply (IH (length r)); try done; lia.
Qed.

Lemma quote_brace_free s : brace_free s → brace_free (quote s).
Proof.
  intros H. unfold quote. apply brace_free_cons; split; [done|].
  apply brace_free_app; split; [by apply quote_units_brace_free|done].
Qed.

Lemma join_with_balanced sep parts :
  is_brace sep = false → Forall balanced parts → balanced (join_with sep parts).
Proof.
  intros Hsep Hparts. destruct Hparts as [|p ps Hp Hps]; [apply balanced_nil|].
  simpl. apply balanced_app; [done|].
  apply balanced_concat. apply Forall_fmap.
  eapply Forall_impl; [exact Hps|]. intros q Hq. simpl.
  change (sep :: q) with ([sep] ++ q). apply balanced_app; [|done].
  apply brace_free_balanced, brace_free_cons. done.
Qed.

(** The text of a value with brace-free strings nests its braces
    properly. *)
Lemma stringify_balanced v :
  brace_free_value v = true → valid_numbers v = true → balanced (stringify v).
Proof.
  induction v as [ | b | lx | s | vs IH | ms IH ] using json_induction;
    cbn [stringify]; intros Hv Hn; cbn [brace_free_value valid_numbers] in Hv, Hn.
  - by apply brace_free_balanced.
  - destruct b; by apply brace_free_balanced.
  - by apply brace_free_balanced, number_token_brace_free.
  - by apply brace_free_balanced, quote_brace_free.
  - change (lbracket :: ?x) with ([lbracket] ++ x).
    apply balanced_app; [by apply brace_free_balanced|].
    apply balanced_app; [|by apply brace_free_balanced].
    apply join_with_balanced; [done|]. apply Forall_fmap.
    rewrite forallb_forall in Hv, Hn. rewrite Forall_forall in IH.
    apply Forall_forall. intros x Hx. apply IH; [done| |].
    + apply Hv. by apply list_elem_of_In.
    + apply Hn. by apply list_elem_of_In.
  - apply balanced_wrap. apply join_with_balanced; [done|]. apply Forall_fmap.
    rewrite forallb_forall in Hv, Hn. rewrite Forall_forall in IH.
    apply Forall_forall. intros [key x] Hx. cbn [fst snd].
    pose proof Hx as Hkx. apply list_elem_of_In, Hv in Hkx. cbn [fst snd] in Hkx.
    pose proof Hx as Hnx. apply list_elem_of_In, Hn in Hnx. cbn [fst snd] in Hnx.
    apply andb_true_iff in Hkx as [Hk Hx'].
    apply balanced_app; [by apply brace_free_balanced, quote_brace_free|].
    change (58 :: ?y) with ([58] ++ y).
    apply balanced_app; [by apply brace_free_balanced|]. by apply (IH (key, x)).
Qed.

Lemma stringify_object_text v :
  is_object v = true → brace_free_value v = true → valid_numbers v = true →
  object_text (stringify v).
Proof.
  destruct v as [ | | | | | ms]; try done. intros _ Hv Hn.
  eexists. split; [reflexivity|]. cbn [brace_free_value valid_numbers] in Hv, Hn.
  apply join_with_balanced; [done|]. apply Forall_fmap.
  rewrite forallb_forall in Hv, Hn. apply Forall_forall. intros [key x] Hx.
  cbn [fst snd].
  pose proof Hx as Hnx. apply list_elem_of_In, Hn in Hnx. cbn [fst snd] in Hnx.
  apply list_elem_of_In, Hv in Hx. cbn [fst snd] in Hx.
  apply andb_true_iff in Hx as [Hk Hx].
  apply balanced_app; [by apply brace_free_balanced, quote_brace_free|].
  change (58 :: ?y) with ([58] ++ y).
  apply balanced_app; [by apply brace_free_balanced|]. by apply stringify_balanced.
Qed.

(** ** What the scan does on properly nested text *)

Lemma index_from_brace_free s rest i :
  brace_free s →
  index_from lbrace (s ++ rest) i = index_from lbrace rest (i + length s).
Proof.
  revert i; induction s as [|c s IH]; intros i Hs; simpl.
  - f_equal. lia.
  - apply brace_free_cons in Hs as [Hc Hs].
    unfold is_brace in Hc. apply orb_false_iff in Hc as [-> _].
    rewrite IH by done. f_equal. lia.
Qed.

Lemma indexOf_brace_free s : brace_free s → indexOf lbrace s 0 = None.
Proof.
  intros Hs. unfold indexOf. rewrite drop_0.
  rewrite <- (app_nil_r s), index_from_brace_free by done. done.
Qed.

Lemma indexOf_first_brace s rest :
  brace_free s → indexOf lbrace (s ++ lbrace :: rest) 0 = Some (length s).
Proof.
  intros Hs. unfold indexOf. rewrite drop_0, index_from_brace_free by done.
  simpl. done.
Qed.

Lemma scan_end_step c rest i start n :
  scan_end (c :: rest) i start n =
  if ((n + brace_delta c =? 0)%Z && (start <? i)%nat) then Some i
  else scan_end rest (S i) start (n + brace_delta c).
Proof.
  simpl. unfold brace_delta.
  destruct (c =? lbrace); [done|]. destruct (c =? rbrace); [done|].
  by rewrite Z.add_0_r.
Qed.

(** As long as the count stays positive the scan goes on. *)
Lemma scan_end_skip m rest i start n :
  (∀ k, (0 < n + depth (take k m))%Z) →
  scan_end (m ++ rest) i start n
  = scan_end rest (i + length m) start (n + depth m).
Proof.
  revert i n; induction m as [|c m IH]; intros i n Hpos.
  - simpl. rewrite Z.add_0_r. f_equal. lia.
  - rewrite <- app_comm_cons, scan_end_step.
    pose proof (Hpos 1%nat) as H1. cbn [take depth] in H1.
    replace (depth (take 0 m)) with 0%Z in H1 by (by destruct m).
    replace (n + brace_delta c =? 0)%Z with false by (symmetry; apply Z.eqb_neq; lia).
    simpl andb. cbv iota. rewrite IH.
    + simpl. f_equal; lia.
    + intros k. specialize (Hpos (S k)). simpl in Hpos. lia.
Qed.

(** The scan from the opening brace of an object text ends on its closing
    brace. *)
Lemma find_end_object s m rest :
  balanced m →
  find_end (s ++ lbrace :: m ++ rbrace :: rest) (length s)
  = Some (length s + length m + 1)%nat.
Proof.
  intros [Hd Hn]. unfold find_end.
  rewrite drop_app_length, scan_end_step.
  change (0 + brace_delta lbrace)%Z with 1%Z.
  change (1 =? 0)%Z with false. cbn [andb].
  rewrite scan_end_skip by (intros k; specialize (Hn k); lia).
  rewrite scan_end_step, Hd.
  change (1 + 0 + brace_delta rbrace =? 0)%Z with true. cbn [andb].
  replace (length s <? S (length s) + length m)%nat with true
    by (symmetry; apply Nat.ltb_lt; lia).
  f_equal. lia.
Qed.

(** The scan from the opening brace of an object text that was cut short
    finds no end. *)
Lemma find_end_cut s m k :
  nested m →
  find_end (s ++ lbrace :: take k m) (length s) = None.
Proof.
  intros Hn. unfold find_end.
  rewrite drop_app_length, scan_end_step.
  change (0 + brace_delta lbrace)%Z with 1%Z.
  change (1 =? 0)%Z with false. cbn [andb].
  rewrite <- (app_nil_r (take k m)), scan_end_skip; [done|].
  intros j. rewrite take_take. specialize (Hn (j `min` k)%nat). lia.
Qed.

Lemma extract_idle buffer :
  idle buffer → extract buffer (indexOf lbrace buffer 0) = ([], buffer).
Proof.
  unfold idle. intros H. rewrite extract_body.
  destruct (indexOf lbrace buffer 0); [by rewrite H|done].
Qed.

Lemma idle_brace_free s : brace_free s → idle s.
Proof. intros H. unfold idle. by rewrite indexOf_brace_free. Qed.

(** A proper prefix of a separator followed by an object text is idle. *)
Lemma idle_cut s t n :
  brace_free s → object_text t → (n < length (s ++ t))%nat →
  idle (take n (s ++ t)).
Proof.
  intros Hs (m & -> & Hm) Hn.
  destruct (decide (n ≤ length s)%nat) as [Hle|Hgt].
  - rewrite take_app_le by done. apply idle_brace_free. by apply brace_free_take.
  - rewrite take_app_ge by lia.
    destruct (n - length s)%nat as [|k] eqn:Hk; [lia|].
    cbn [take]. rewrite take_app_le
      by (rewrite length_app, length_cons, length_app in Hn; simpl in Hn; lia).
    unfold idle. rewrite indexOf_first_brace by done.
    apply find_end_cut, Hm.
Qed.

(** One object at the front of the buffer is yielded and the loop goes on
    with what follows it. *)
Lemma extract_one s t v rest :
  brace_free s → object_text t → JSON.parse t = Some v →
  extract (s ++ t ++ rest) (indexOf lbrace (s ++ t ++ rest) 0)
  = let '(out, b) := extract rest (indexOf lbrace rest 0) in (v :: out, b).
Proof.
  intros Hs (m & -> & Hm) Hv.
  rewrite <- !app_comm_cons, <- app_assoc. cbn [app].
  rewrite indexOf_first_brace by done.
  rewrite extract_body, find_end_object by done.
  assert (Hsub : substring (length s) (length s + length m + 1 + 1)
                   (s ++ lbrace :: m ++ rbrace :: rest) = lbrace :: m ++ [rbrace]).
  { unfold substring. rewrite drop_app_length.
    replace (length s + length m + 1 + 1 - length s)%nat with (S (length m + 1)) by lia.
    cbn [take]. f_equal.
    replace (rbrace :: rest) with ([rbrace] ++ rest) by done.
    rewrite app_assoc, take_app_length'; [done|]. rewrite length_app. simpl. lia. }
  rewrite Hsub, Hv.
  assert (Hdrop : drop (length s + length m + 1 + 1)
                    (s ++ lbrace :: m ++ rbrace :: rest) = rest).
  { replace (length s + length m + 1 + 1)%nat
      with (length s + S (length m + 1))%nat by lia.
    rewrite <- drop_drop, drop_app_length. cbn [drop].
    replace (rbrace :: rest) with ([rbrace] ++ rest) by done.
    rewrite app_assoc, drop_app_length'; [done|]. rewrite length_app. simpl. lia. }
  cbv zeta. rewrite Hdrop. done.
Qed.

(** ** The extractor on a stream of serialized objects *)

Lemma render_app a b : render (a ++ b) = render a ++ render b.
Proof. unfold render. by rewrite map_app, concat_app. Qed.

Lemma render_cons it items : render (it :: items) = item_text it ++ render items.
Proof. done. Qed.

Lemma closed_within_app done rest n :
  closed_within (done ++ rest) (length (render done) + n)
  = map snd done ++ closed_within rest n.
Proof.
  induction done as [|it done IH]; [done|].
  rewrite <- app_comm_cons, render_cons. cbn [closed_within map].
  rewrite length_app. rewrite decide_True by lia.
  replace (length (item_text it) + length (render done) + n
           - length (item_text it))%nat
    with (length (render done) + n)%nat by lia.
  by rewrite IH.
Qed.

Lemma closed_within_all items n :
  closed_within items (length (render items) + n) = map snd items.
Proof.
  rewrite <- (app_nil_r items) at 1. rewrite closed_within_app. simpl.
  by rewrite app_nil_r.
Qed.

Lemma well_formed_object_text it : well_formed it → object_text (stringify (snd it)).
Proof. intros (_ & Ho & Hb & Hn). by apply stringify_object_text. Qed.

(** The loop yields every object that is complete in the buffer and leaves
    what follows the last one. *)
Lemma extract_items done r :
  Forall well_formed done → idle r →
  extract (render done ++ r) (indexOf lbrace (render done ++ r) 0)
  = (map snd done, r).
Proof.
  intros Hwf Hr. induction Hwf as [|it done Hit _ IH].
  - simpl. by apply extract_idle.
  - rewrite render_cons. unfold item_text at 1 2. rewrite <- !app_assoc.
    rewrite (extract_one (fst it) (stringify (snd it)) (snd it)).
    + by rewrite IH.
    + apply Hit.
    + by apply well_formed_object_text.
    + apply parse_stringify, Hit.
Qed.

Lemma quiet_brace_free s : brace_free s → quiet s.
Proof. intros H n. by apply idle_brace_free, brace_free_take. Qed.

(** An object that is opened and never closed, after a separator. *)
Lemma quiet_open s p : brace_free s → nested p → quiet (s ++ lbrace :: p).
Proof.
  intros Hs Hp n.
  destruct (decide (n ≤ length s)%nat) as [Hle|Hgt].
  - rewrite take_app_le by done. by apply idle_brace_free, brace_free_take.
  - rewrite take_app_ge by lia.
    destruct (n - length s)%nat as [|k] eqn:Hk; [lia|]. cbn [take].
    unfold idle. rewrite indexOf_first_brace by done. by apply find_end_cut.
Qed.

(** A prefix of the stream text is the text of the objects closed within it
    followed by an idle rest. *)
Lemma prefix_split items tail n :
  Forall well_formed items → quiet tail →
  ∃ done rest r,
    items = done ++ rest
    ∧ take n (render items ++ tail) = render done ++ r
    ∧ idle r
    ∧ closed_within rest (length r) = [].
Proof.
  intros Hwf Htail. revert n. induction Hwf as [|it items Hit Hwf IH]; intros n.
  - exists [], [], (take n tail). repeat split; try done.
  - destruct (decide (length (item_text it) ≤ n)%nat) as [Hle|Hgt].
    + destruct (IH (n - length (item_text it))%nat) as (done & rest & r & -> & Ht & Hr & Hc).
      exists (it :: done), rest, r. repeat split; try done.
      rewrite !render_cons, <- !app_assoc.
      rewrite take_app_ge by done. by rewrite Ht.
    + exists [], (it :: items), (take n (item_text it)).
      assert (Hlen : length (take n (item_text it)) = n)
        by (rewrite length_take; lia).
      repeat split.
      * rewrite render_cons, <- app_assoc.
        rewrite take_app_le by lia. done.
      * destruct Hit as (Hs & Ho & Hb & Hn).
        apply idle_cut; [done|by apply stringify_object_text|].
        fold (item_text it). lia.
      * cbn [closed_within]. rewrite Hlen. by rewrite decide_False by lia.
Qed.

Lemma text_of_cons c chunks :
  text_of (c :: chunks) = from_option id [] c ++ text_of chunks.
Proof. done. Qed.

Lemma text_of_app a b : text_of (a ++ b) = text_of a ++ text_of b.
Proof. unfold text_of. by rewrite map_app, concat_app. Qed.

Lemma run_from_length buffer chunks :
  length (fst (run_from buffer chunks)) = length chunks.
Proof.
  revert buffer; induction chunks as [|c chunks IH]; intros buffer; [done|].
  cbn [run_from]. destruct (feed buffer c) as [out b].
  specialize (IH b). destruct (run_from b chunks). simpl in *. lia.
Qed.

(** The generator, started with a buffer that holds no complete object, has
    yielded after [k] fragments the objects closed within the text received
    so far. *)
Lemma run_from_closed chunks : ∀ buffer items tail,
  Forall well_formed items → quiet tail →
  buffer ++ text_of chunks = render items ++ tail →
  closed_within items (length buffer) = [] →
  ∀ k, concat (take k (fst (run_from buffer chunks)))
       = closed_within items (length buffer + length (text_of (take k chunks))).
Proof.
  induction chunks as [|c chunks IH]; intros buffer items tail Hwf Htail Htext Hnone k.
  - cbn [run_from fst]. rewrite !take_nil. cbn. by rewrite Nat.add_0_r, Hnone.
  - destruct k as [|k]; [simpl; by rewrite Nat.add_0_r, Hnone|].
    cbn [run_from take]. destruct c as [t|].
    + cbn [feed].
      destruct (prefix_split items tail (length (buffer ++ t)) Hwf Htail)
        as (done & rest & r & -> & Ht & Hr & Hc).
      rewrite text_of_cons in Htext. cbn [from_option id] in Htext.
      rewrite app_assoc in Htext. rewrite <- Htext in Ht.
      rewrite take_app_length in Ht. rewrite Ht.
      apply Forall_app in Hwf as [Hdone Hrest].
      rewrite (extract_items done r Hdone Hr).
      assert (Hnext : r ++ text_of chunks = render rest ++ tail).
      { rewrite Ht, render_app, <- !app_assoc in Htext.
        by apply app_inv_head in Htext. }
      specialize (IH r rest tail Hrest Htail Hnext Hc k).
      destruct (run_from r chunks) as [outs final]. cbn [fst take concat] in *.
      rewrite IH, text_of_cons. cbn [from_option id].
      rewrite <- closed_within_app. f_equal.
      apply (f_equal length) in Ht. rewrite !length_app in *. lia.
    + cbn [feed]. rewrite text_of_cons in Htext. cbn [from_option id app] in Htext.
      specialize (IH buffer items tail Hwf Htail Htext Hnone k).
      destruct (run_from buffer chunks) as [outs final]. cbn [fst take concat] in *.
      rewrite IH, text_of_cons. done.
Qed.

(** When the stream ends the buffer holds what follows the last object. *)
Lemma run_from_final chunks : ∀ buffer items tail,
  Forall well_formed items → quiet tail →
  buffer ++ text_of chunks = render items ++ tail →
  closed_within items (length buffer) = [] →
  snd (run_from buffer chunks) = tail.
Proof.
  induction chunks as [|c chunks IH]; intros buffer items tail Hwf Htail Htext Hnone.
  - cbn in *. rewrite app_nil_r in Htext. subst buffer.
    rewrite length_app, closed_within_all in Hnone.
    apply fmap_nil_inv in Hnone as ->. done.
  - cbn [run_from]. destruct c as [t|].
    + cbn [feed].
      destruct (prefix_split items tail (length (buffer ++ t)) Hwf Htail)
        as (done & rest & r & -> & Ht & Hr & Hc).
      rewrite text_of_cons in Htext. cbn [from_option id] in Htext.
      rewrite app_assoc in Htext. rewrite <- Htext in Ht.
      rewrite take_app_length in Ht. rewrite Ht.
      apply Forall_app in Hwf as [Hdone Hrest].
      rewrite (extract_items done r Hdone Hr).
      assert (Hnext : r ++ text_of chunks = render rest ++ tail).
      { rewrite Ht, render_app, <- !app_assoc in Htext.
        by apply app_inv_head in Htext. }
      specialize (IH r rest tail Hrest Htail Hnext Hc).
      by destruct (run_from r chunks) as [outs final].
    + cbn [feed]. rewrite text_of_cons in Htext. cbn [from_option id app] in Htext.
      specialize (IH buffer items tail Hwf Htail Htext Hnone).
      by destruct (run_from buffer chunks) as [outs final].
Qed.

Lemma closed_within_0 items :
  Forall well_formed items → closed_within items 0 = [].
Proof.
  intros [|it rest Hit _]; [done|]. cbn [closed_within].
  apply well_formed_object_text in Hit as (m & Hm & _).
  rewrite decide_False; [done|]. unfold item_text. rewrite Hm, length_app. simpl. lia.
Qed.

Lemma never_negative_nested s d :
  never_negative s d = true → ∀ k, (0 ≤ d → 0 ≤ d + depth (take k s))%Z.
Proof.
  revert d; induction s as [|c s IH]; intros d H k Hd.
  - rewrite take_nil. simpl. lia.
  - destruct k as [|k]; [simpl; lia|]. cbn [take depth].
    cbn [never_negative] in H. apply andb_true_iff in H as [H1 H2].
    apply Z.leb_le in H1. specialize (IH _ H2 k H1). lia.
Qed.

Lemma nested_check s : never_negative s 0 = true → nested s.
Proof. intros H k. by apply (never_negative_nested s 0 H k). Qed.

(** C1. Extractor completeness: objects whose strings hold no brace,
    serialized one after the other (with any brace-free text before, between
    and after them) and cut into fragments anywhere, come out of
    [parseJsonStream] as the original sequence, in order; and after any
    number [k] of fragments exactly those objects have been yielded whose
    closing brace lies in the text of the first [k] fragments. *)
Theorem parseJsonStream_complete
    (items : list (jsstring * json)) (tail : jsstring) (responseStream : list chunk) :
  Forall well_formed items →
  brace_free tail →
  text_of responseStream = render items ++ tail →
  concat (parseJsonStream responseStream) = map snd items
  ∧ ∀ k, concat (take k (parseJsonStream responseStream))
         = closed_within items (length (text_of (take k responseStream))).
Proof.
  intros Hwf Htail Htext.
  assert (Hk : ∀ k, concat (take k (parseJsonStream responseStream))
         = closed_within items (length (text_of (take k responseStream)))).
  { intros k. unfold parseJsonStream.
    rewrite (run_from_closed responseStream [] items tail); try done.
    - by apply quiet_brace_free.
    - by apply closed_within_0. }
  split; [|done].
  specialize (Hk (length responseStream)).
  rewrite take_ge in Hk by (unfold parseJsonStream; by rewrite run_from_length).
  rewrite firstn_all, Htext, length_app, closed_within_all in Hk. done.
Qed.

Lemma parseJsonStream_complete_witness :
  Forall well_formed scenario_items
  ∧ brace_free []
  ∧ text_of scenario_stream = render scenario_items ++ []
  ∧ concat (parseJsonStream scenario_stream) = map snd scenario_items
  ∧ ∀ k, concat (take k (parseJsonStream scenario_stream))
         = closed_within scenario_items (length (text_of (take k scenario_stream))).
Proof.
  assert (H1 : Forall well_formed scenario_items)
    by (repeat constructor; vm_compute; reflexivity).
  assert (H2 : brace_free []) by reflexivity.
  assert (H3 : text_of scenario_stream = render scenario_items ++ [])
    by (vm_compute; reflexivity).
  split; [exact H1|]. split; [exact H2|]. split; [exact H3|].
  exact (parseJsonStream_complete scenario_items [] scenario_stream H1 H2 H3).
Defined.

Example parseJsonStream_scenario :
  parseJsonStream scenario_stream
  = [[JObject [(js "a", JNumber (js "1"))]]; [JObject [(js "b", JNumber (js "2"))]]].
Proof. vm_compute. reflexivity. Qed.

(** C9. Extractor partial safety: when the text of the stream ends inside
    an object that was opened and never closed (after any number of complete
    objects), the generator yields the complete objects and nothing for the
    open one; the text from its separator on is in the buffer when the
    stream ends, where it is dropped; and from the fragment that brought the
    opening brace on, the buffer holds all the text received after the last
    complete object. The generator is a total function: nothing is thrown. *)
Theorem parseJsonStream_partial
    (items : list (jsstring * json)) (sep p : jsstring) (responseStream : list chunk) :
  Forall well_formed items →
  brace_free sep →
  nested p →
  text_of responseStream = render items ++ sep ++ lbrace :: p →
  concat (parseJsonStream responseStream) = map snd items
  ∧ snd (run_from [] responseStream) = sep ++ lbrace :: p
  ∧ ∀ k, (length (render items) ≤ length (text_of (take k responseStream)))%nat →
         snd (run_from [] (take k responseStream))
         = drop (length (render items)) (text_of (take k responseStream)).
Proof.
  intros Hwf Hsep Hp Htext.
  pose proof (quiet_open sep p Hsep Hp) as Hq.
  assert (Hnone : closed_within items (length (@nil N)) = [])
    by (by apply closed_within_0).
  split; [|split].
  - pose proof (run_from_closed responseStream [] items _ Hwf Hq Htext Hnone
                  (length responseStream)) as Hk.
    rewrite take_ge in Hk by (by rewrite run_from_length).
    rewrite firstn_all, Htext, length_app in Hk. cbn [length Nat.add] in Hk.
    rewrite closed_within_all in Hk. done.
  - by apply (run_from_final responseStream [] items).
  - intros k Hk.
    set (tk := text_of (take k responseStream)) in *.
    assert (Hpre : tk = take (length tk) (render items ++ sep ++ lbrace :: p)).
    { rewrite <- Htext, <- (take_drop k responseStream), text_of_app.
      fold tk. by rewrite take_app_length. }
    rewrite take_app_ge in Hpre by done.
    rewrite (run_from_final (take k responseStream) [] items
               (take (length tk - length (render items)) (sep ++ lbrace :: p)));
      try done.
    + rewrite Hpre at 2. by rewrite drop_app_length.
    + intros n. rewrite take_take. apply Hq.
Qed.

Lemma parseJsonStream_partial_witness :
  Forall well_formed [([], JObject [(js "a", JNumber (js "1"))])]
  ∧ brace_free (js " ")
  ∧ nested (jsq "'b':{'c':2}")
  ∧ text_of cut_stream
    = render [([], JObject [(js "a", JNumber (js "1"))])]
      ++ js " " ++ lbrace :: jsq "'b':{'c':2}"
  ∧ concat (parseJsonStream cut_stream) = [JObject [(js "a", JNumber (js "1"))]]
  ∧ snd (run_from [] cut_stream) = js " " ++ lbrace :: jsq "'b':{'c':2}".
Proof.
  assert (H1 : Forall well_formed [([], JObject [(js "a", JNumber (js "1"))])])
    by (repeat constructor; vm_compute; reflexivity).
  assert (H2 : brace_free (js " ")) by reflexivity.
  assert (H3 : nested (jsq "'b':{'c':2}")) by (apply nested_check; reflexivity).
  assert (H4 : text_of cut_stream
    = render [([], JObject [(js "a", JNumber (js "1"))])]
      ++ js " " ++ lbrace :: jsq "'b':{'c':2}") by (vm_compute; reflexivity).
  split; [exact H1|]. split; [exact H2|]. split; [exact H3|]. split; [exact H4|].
  pose proof (parseJsonStream_partial _ _ _ _ H1 H2 H3 H4) as (Ha & Hb & _).
  split; [exact Ha|exact Hb].
Defined.

(** ** Applying a variation *)

(** Replacing the element at one index, written with [map] and an index
    test, is an insertion at that index. *)
Lemma imap_insert {A} (g : A → A) (k : nat) (l : list A) (x : A) :
  l !! k = Some x →
  imap (fun i y => if (i =? k)%nat then g y else y) l = <[k := g x]> l.
Proof.
  intros Hk. apply list_eq. intros i. rewrite list_lookup_imap.
  destruct (decide (i = k)) as [->|Hne].
  - rewrite Hk, list_lookup_insert_eq by (by eapply lookup_lt_Some).
    simpl. by rewrite Nat.eqb_refl.
  - rewrite list_lookup_insert_ne by done.
    destruct (l !! i) as [y|]; [|done]. simpl.
    by replace (i =? k)%nat with false by (symmetry; by apply Nat.eqb_neq).
Qed.

Lemma at_index_Some {A} (l : list A) (i : Z) (x : A) :
  at_index l i = Some x → (0 ≤ i)%Z ∧ l !! Z.to_nat i = Some x.
Proof.
  unfold at_index. destruct (i <? 0)%Z eqn:E; [done|].
  apply Z.ltb_ge in E. done.
Qed.

(** C8. Applying a variation: with a current session and a focused
    artifact, [applyVariation h] replaces the focused artifact by the same
    artifact with [html = h] and [status = complete] (its [id] and
    [styleName] kept), changes no other artifact of the session, no other
    field of the session and no other session, closes the drawer, and
    leaves the rest of the state as it was. *)
Theorem applyVariation_focused
    (h : jsstring) (st : State) (sess : Session.t) (focused : nat) (art : Artifact.t) :
  at_index (sessions st) (currentSessionIndex st) = Some sess →
  focusedArtifactIndex st = Some focused →
  Session.artifacts sess !! focused = Some art →
  let st' := applyVariation h st in
  sessions st'
  = <[Z.to_nat (currentSessionIndex st) :=
        Session.with_artifacts
          (<[focused := Artifact.mk (Artifact.id art) (Artifact.styleName art) h complete]>
             (Session.artifacts sess))
          sess]> (sessions st)
  ∧ isOpen (drawerState st') = false
  ∧ mode (drawerState st') = mode (drawerState st)
  ∧ title (drawerState st') = title (drawerState st)
  ∧ data (drawerState st') = data (drawerState st)
  ∧ currentSessionIndex st' = currentSessionIndex st
  ∧ focusedArtifactIndex st' = focusedArtifactIndex st
  ∧ savedArtifacts st' = savedArtifacts st
  ∧ view st' = view st ∧ isLoading st' = isLoading st.
Proof.
  intros Hsess Hfocus Hart st'. subst st'. unfold applyVariation. rewrite Hfocus.
  apply at_index_Some in Hsess as [Hpos Hsess].
  split; [|done]. cbn [sessions set_drawerState set_sessions].
  change (Artifact.mk (Artifact.id art) (Artifact.styleName art) h complete)
    with (Artifact.with_html_status h complete art).
  rewrite <- (imap_insert (Artifact.with_html_status h complete) focused _ art Hart).
  rewrite <- (imap_insert
    (fun s => Session.with_artifacts
       (imap (fun j a => if (j =? focused)%nat
                         then Artifact.with_html_status h complete a else a)
          (Session.artifacts s)) s) _ _ sess Hsess).
  - apply imap_ext. intros i s _. cbn beta.
    destruct (Z.of_nat i =? currentSessionIndex st)%Z eqn:Ei.
    + apply Z.eqb_eq in Ei. by replace (i =? Z.to_nat (currentSessionIndex st))%nat
        with true by (symmetry; apply Nat.eqb_eq; lia).
    + apply Z.eqb_neq in Ei. by replace (i =? Z.to_nat (currentSessionIndex st))%nat
        with false by (symmetry; apply Nat.eqb_neq; lia).
Qed.

(** ** White space and fences *)

Lemma trimStart_split s : ∃ w, all_ws w ∧ s = w ++ trimStart s.
Proof.
  induction s as [|c s (w & Hw & Hs)]; [by exists []|]. simpl.
  destruct (is_white_space c) eqn:Hc.
  - exists (c :: w). split; [|by rewrite Hs at 1].
    unfold all_ws in *. simpl. by rewrite Hc, Hw.
  - by exists [].
Qed.

Lemma trimStart_start_trimmed s : start_trimmed (trimStart s).
Proof.
  induction s as [|c s IH]; [done|]. simpl.
  destruct (is_white_space c) eqn:Hc; [done|]. by unfold start_trimmed.
Qed.

Lemma trimStart_id s : start_trimmed s → trimStart s = s.
Proof. destruct s as [|c s]; [done|]. unfold start_trimmed. simpl. by intros ->. Qed.

Lemma trimStart_ws_app w s : all_ws w → trimStart (w ++ s) = trimStart s.
Proof.
  unfold all_ws. induction w as [|c w IH]; [done|]. simpl.
  intros [-> Hw]%andb_true_iff. by apply IH.
Qed.

Lemma all_ws_reverse w : all_ws w → all_ws (reverse w).
Proof.
  unfold all_ws. induction w as [|c w IH]; [done|]. simpl.
  intros [Hc Hw]%andb_true_iff. rewrite reverse_cons, forallb_app, IH by done.
  simpl. by rewrite Hc.
Qed.

Lemma trimEnd_split s : ∃ w, all_ws w ∧ s = trimEnd s ++ w.
Proof.
  destruct (trimStart_split (reverse s)) as (w & Hw & Hs).
  exists (reverse w). split; [by apply all_ws_reverse|].
  unfold trimEnd. rewrite <- reverse_app, <- Hs. by rewrite reverse_involutive.
Qed.

Lemma trimEnd_id s : end_trimmed s → trimEnd s = s.
Proof.
  intros H. unfold trimEnd. rewrite trimStart_id by done. apply reverse_involutive.
Qed.

Lemma trimEnd_end_trimmed s : end_trimmed (trimEnd s).
Proof.
  unfold end_trimmed, trimEnd. rewrite reverse_involutive.
  apply trimStart_start_trimmed.
Qed.


Lemma start_trimmed_app a b : a ≠ [] → start_trimmed (a ++ b) ↔ start_trimmed a.
Proof. by destruct a. Qed.

Lemma start_trimmed_prefix a b : start_trimmed (a ++ b) → start_trimmed a.
Proof. destruct a; [done|]. by apply start_trimmed_app. Qed.

Lemma end_trimmed_suffix a b : end_trimmed (a ++ b) → end_trimmed b.
Proof. unfold end_trimmed. rewrite reverse_app. apply start_trimmed_prefix. Qed.

Lemma end_trimmed_drop k s : end_trimmed s → end_trimmed (drop k s).
Proof. intros H. rewrite <- (take_drop k s) in H. by apply end_trimmed_suffix in H. Qed.

Lemma start_trimmed_trimEnd s : start_trimmed s → start_trimmed (trimEnd s).
Proof.
  intros H. destruct (trimEnd_split s) as (w & _ & Hs). rewrite Hs in H.
  by apply start_trimmed_prefix in H.
Qed.

Lemma end_trimmed_trimStart s : end_trimmed s → end_trimmed (trimStart s).
Proof.
  intros H. destruct (trimStart_split s) as (w & _ & Hs). rewrite Hs in H.
  by apply end_trimmed_suffix in H.
Qed.

Lemma trim_start_trimmed s : start_trimmed (trim s).
Proof. apply start_trimmed_trimEnd, trimStart_start_trimmed. Qed.

Lemma trim_end_trimmed s : end_trimmed (trim s).
Proof. apply trimEnd_end_trimmed. Qed.

Lemma trim_id s : start_trimmed s → end_trimmed s → trim s = s.
Proof. intros Hs He. unfold trim. by rewrite trimStart_id, trimEnd_id. Qed.

Lemma startsWith_spec p s : startsWith p s = true ↔ ∃ r, s = p ++ r.
Proof.
  revert s; induction p as [|c p IH]; intros s; simpl.
  - split; [by exists s|done].
  - destruct s as [|d s]; [split; [done|by intros (? & ?)]|].
    rewrite andb_true_iff, N.eqb_eq, IH. split.
    + intros [-> (r & ->)]. by exists r.
    + intros (r & [= -> ->]). split; [done|by exists r].
Qed.

Lemma endsWith_spec p s : endsWith p s = true ↔ ∃ v, s = v ++ p.
Proof.
  unfold endsWith. rewrite startsWith_spec. split.
  - intros (r & Hr). exists (reverse r).
    apply (f_equal reverse) in Hr. rewrite reverse_involutive in Hr.
    by rewrite Hr, reverse_app, reverse_involutive.
  - intros (v & ->). exists (reverse v). by rewrite reverse_app.
Qed.

Lemma startsWith_false p s : startsWith p s = false ↔ ¬ ∃ r, s = p ++ r.
Proof. rewrite <- startsWith_spec. by destruct (startsWith p s). Qed.

Lemma endsWith_false p s : endsWith p s = false ↔ ¬ ∃ v, s = v ++ p.
Proof. rewrite <- endsWith_spec. by destruct (endsWith p s). Qed.


Lemma substring_0 n s : substring 0 n s = take n s.
Proof. unfold substring. by rewrite Nat.sub_0_r, drop_0. Qed.

Lemma strip_end_fence v : strip_end (v ++ fence) = trimEnd v.
Proof.
  unfold strip_end.
  replace (endsWith fence (v ++ fence)) with true
    by (symmetry; apply endsWith_spec; by exists v).
  rewrite substring_0, length_app. f_equal.
  replace (length v + length fence - 3)%nat with (length v) by (simpl; lia).
  by rewrite take_app_length.
Qed.

(** On text trimmed at its end, trimming the start and then stripping the
    trailing fence the way the code does is the specification's stripping
    followed by a trim. *)
Lemma strip_end_trimStart u :
  end_trimmed u → strip_end (trimStart u) = trim (strip_trailing_fence u).
Proof.
  intros Hu. destruct (trimStart_split u) as (w & Hw & Hsplit).
  pose proof (trimStart_start_trimmed u) as Hx.
  pose proof (end_trimmed_trimStart u Hu) as Hxe.
  set (x := trimStart u) in *. unfold strip_trailing_fence.
  destruct (endsWith fence u) eqn:Hew.
  - apply endsWith_spec in Hew as (v & Hv).
    assert (Hx' : ∃ v', x = v' ++ fence ∧ v = w ++ v') .
    { rewrite Hv in Hsplit. symmetry in Hsplit.
      apply app_eq_inv in Hsplit as [(k & Hk1 & Hk2)|(k & Hk1 & Hk2)];
        [|exists k; by split].
      destruct k as [|c k].
      - exists []. rewrite app_nil_r in Hk1. by split; [|rewrite app_nil_r].
      - exfalso. injection Hk2 as Hc _. subst w. unfold all_ws in Hw.
        rewrite forallb_app in Hw. apply andb_true_iff in Hw as [_ Hw].
        simpl in Hw. rewrite <- Hc in Hw. done. }
    destruct Hx' as (v' & Hxv & Hvv). rewrite Hxv, strip_end_fence.
    rewrite Hv, length_app.
    replace (length v + length fence - 3)%nat with (length v) by (simpl; lia).
    rewrite take_app_length, Hvv. unfold trim. rewrite trimStart_ws_app by done.
    f_equal. symmetry. apply trimStart_id.
    rewrite Hxv in Hx. by apply start_trimmed_prefix in Hx.
  - assert (Hewx : endsWith fence x = false).
    { apply endsWith_false. intros (v' & Hv'). apply endsWith_false in Hew.
      apply Hew. exists (w ++ v'). by rewrite Hsplit, Hv', app_assoc. }
    unfold strip_end. rewrite Hewx. unfold trim. fold x. by rewrite trimEnd_id.
Qed.

Lemma finalize_strip_end text :
  finalize text
  = strip_end
      (let t0 := trim text in
       let t1 := if startsWith fence_html t0 then trimStart (drop 7 t0) else t0 in
       if startsWith fence t1 then trimStart (drop 3 t1) else t1).
Proof. done. Qed.


(** With a second fence, that one is stripped as well. *)
Lemma finalize_double text :
  double_fence text = true →
  finalize text
  = trim (strip_trailing_fence (drop 3 (trimStart (drop 7 (trim text))))).
Proof.
  unfold double_fence. intros [Hh Hf]%andb_true_iff.
  rewrite finalize_strip_end. cbv zeta. rewrite Hh, Hf.
  apply strip_end_trimStart, end_trimmed_drop, end_trimmed_trimStart, end_trimmed_drop.
  apply trim_end_trimmed.
Qed.












(** ** Concurrent patches of one session *)

Lemma artifact_eta (art : Artifact.t) :
  Artifact.mk (Artifact.id art) (Artifact.styleName art) (Artifact.html art)
    (Artifact.status art) = art.
Proof. by destruct art. Qed.

Lemma session_eta (sess : Session.t) :
  Session.mk (Session.id sess) (Session.prompt sess) (Session.timestamp sess)
    (Session.artifacts sess) = sess.
Proof. by destruct sess. Qed.

Lemma publish_html_twice sessionId a1 h1 a2 h2 prev :
  a1 ≠ a2 →
  publish_html sessionId a1 h1 (publish_html sessionId a2 h2 prev)
  = both_published sessionId a1 h1 a2 h2 prev.
Proof.
  intros Hne. unfold publish_html, both_published. rewrite map_map.
  apply map_ext. intros sess.
  destruct (bool_decide (Session.id sess = sessionId)) eqn:Hs; cbn [Session.id Session.with_artifacts].
  - rewrite Hs. unfold Session.with_artifacts. cbn. f_equal.
    rewrite map_map. apply map_ext. intros art.
    destruct (bool_decide (Artifact.id art = a2)) eqn:H2.
    + apply bool_decide_eq_true in H2. cbn.
      by rewrite !bool_decide_false by congruence.
    + destruct (bool_decide (Artifact.id art = a1)) eqn:H1; [done|].
      symmetry. apply artifact_eta.
  - by rewrite Hs.
Qed.

Lemma both_published_comm sessionId a1 h1 a2 h2 prev :
  a1 ≠ a2 →
  both_published sessionId a2 h2 a1 h1 prev = both_published sessionId a1 h1 a2 h2 prev.
Proof.
  intros Hne. unfold both_published. apply map_ext. intros sess.
  destruct (bool_decide (Session.id sess = sessionId)); [|done]. f_equal.
  apply map_ext. intros art. f_equal.
  destruct (bool_decide (Artifact.id art = a1)) eqn:H1;
    destruct (bool_decide (Artifact.id art = a2)) eqn:H2; try done.
  apply bool_decide_eq_true in H1, H2. congruence.
Qed.

(** C2. Per-id patch isolation: two increments addressed to the same
    session and to artifacts with different ids give the same history in
    either order; in it every session with that id keeps its [id], [prompt]
    and [timestamp], each of its artifacts keeps its [id], [styleName] and
    [status], the artifacts with the first id hold the first text, those
    with the second id the second text and the others their own; sessions
    with another id are as they were. *)
Theorem publish_html_isolated
    (sessionId a1 h1 a2 h2 : jsstring) (prev : list Session.t) :
  a1 ≠ a2 →
  publish_html sessionId a1 h1 (publish_html sessionId a2 h2 prev)
  = publish_html sessionId a2 h2 (publish_html sessionId a1 h1 prev)
  ∧ ∀ i sess, prev !! i = Some sess →
      publish_html sessionId a1 h1 (publish_html sessionId a2 h2 prev) !! i
      = Some
          (if bool_decide (Session.id sess = sessionId) then
             Session.mk (Session.id sess) (Session.prompt sess) (Session.timestamp sess)
               (map (fun art =>
                  Artifact.mk (Artifact.id art) (Artifact.styleName art)
                    (if bool_decide (Artifact.id art = a1) then h1
                     else if bool_decide (Artifact.id art = a2) then h2
                     else Artifact.html art)
                    (Artifact.status art)) (Session.artifacts sess))
           else sess).
Proof.
  intros Hne. split.
  - rewrite publish_html_twice by done.
    rewrite (publish_html_twice sessionId a2 h2 a1 h1) by done.
    symmetry. by apply both_published_comm.
  - intros i sess Hi. rewrite publish_html_twice by done.
    unfold both_published. by rewrite list_lookup_fmap, Hi.
Qed.

(** ** Updates for a session that is gone *)

Lemma publish_html_orphan sessionId artifactId h prev :
  Forall (fun sess => Session.id sess ≠ sessionId) prev →
  publish_html sessionId artifactId h prev = prev.
Proof.
  intros H. unfold publish_html. rewrite <- (map_id prev) at 2.
  apply map_ext_Forall. eapply Forall_impl; [exact H|].
  intros sess Hs. by rewrite bool_decide_false.
Qed.

Lemma publish_final_orphan sessionId artifactId h prev :
  Forall (fun sess => Session.id sess ≠ sessionId) prev →
  publish_final sessionId artifactId h prev = prev.
Proof.
  intros H. unfold publish_final. rewrite <- (map_id prev) at 2.
  apply map_ext_Forall. eapply Forall_impl; [exact H|].
  intros sess Hs. by rewrite bool_decide_false.
Qed.

Lemma set_sessions_id f st : f (sessions st) = sessions st → set_sessions f st = st.
Proof. intros H. unfold set_sessions. rewrite H. by destruct st. Qed.

(** C3. Orphan drop: an increment or a final update addressed to a session
    id that no session of the history has leaves the history, and with it
    the whole state, as it is; in particular after [handleGoHome], whatever
    the id. The patches are total functions: nothing is raised. *)
Theorem orphan_update_dropped
    (sessionId artifactId h : jsstring) (st : State) :
  Forall (fun sess => Session.id sess ≠ sessionId) (sessions st) →
  set_sessions (publish_html sessionId artifactId h) st = st
  ∧ set_sessions (publish_final sessionId artifactId h) st = st
  ∧ set_sessions (publish_html sessionId artifactId h) (handleGoHome st)
    = handleGoHome st
  ∧ set_sessions (publish_final sessionId artifactId h) (handleGoHome st)
    = handleGoHome st.
Proof.
  intros H. repeat split.
  - by apply set_sessions_id, publish_html_orphan.
  - by apply set_sessions_id, publish_final_orphan.
Qed.

(** ** Direction labels *)

Lemma index_from_skip c a rest i :
  c ∉ a → index_from c (a ++ rest) i = index_from c rest (i + length a).
Proof.
  revert i; induction a as [|d a IH]; intros i Ha; simpl.
  - f_equal. lia.
  - apply not_elem_of_cons in Ha as [Hd Ha].
    replace (d =? c) with false by (symmetry; apply N.eqb_neq; congruence).
    rewrite IH by done. f_equal. lia.
Qed.

Lemma index_from_absent c s i : c ∉ s → index_from c s i = None.
Proof.
  intros H. rewrite <- (app_nil_r s). by rewrite index_from_skip.
Qed.

Lemma last_index_from_absent c s i : c ∉ s → last_index_from c s i = None.
Proof.
  revert i; induction s as [|d s IH]; intros i Hs; [done|]. simpl.
  apply not_elem_of_cons in Hs as [Hd Hs]. rewrite IH by done.
  by replace (d =? c) with false by (symmetry; apply N.eqb_neq; congruence).
Qed.

Lemma last_index_from_last c m b i :
  c ∉ b → last_index_from c (m ++ c :: b) i = Some (i + length m)%nat.
Proof.
  intros Hb. revert i; induction m as [|d m IH]; intros i; simpl.
  - rewrite last_index_from_absent by done. rewrite N.eqb_refl. f_equal. lia.
  - rewrite IH. f_equal. lia.
Qed.

Lemma drop_past {A} (a : list A) x r : drop (length a + 1) (a ++ x :: r) = r.
Proof. induction a as [|y a IH]; [done|]. simpl. apply IH. Qed.

(** The match of the regular expression: from the first opening bracket to
    the last closing bracket. *)
Lemma match_brackets_span a m b :
  lbracket ∉ a → rbracket ∉ b →
  match_brackets (a ++ lbracket :: m ++ rbracket :: b)
  = Some (lbracket :: m ++ [rbracket]).
Proof.
  intros Ha Hb. unfold match_brackets, indexOf.
  rewrite drop_0, index_from_skip by done. cbn [index_from].
  rewrite N.eqb_refl. cbn [Nat.add].
  rewrite drop_past, last_index_from_last by done.
  f_equal. unfold substring. rewrite drop_app_length.
  replace (length a + 1 + length m + 1 - length a)%nat with (S (length m + 1)) by lia.
  cbn [take]. f_equal.
  replace (rbracket :: b) with ([rbracket] ++ b) by done.
  rewrite app_assoc, take_app_length'; [done|]. rewrite length_app. simpl. lia.
Qed.

Lemma match_brackets_no_open text : lbracket ∉ text → match_brackets text = None.
Proof.
  intros H. unfold match_brackets, indexOf. by rewrite drop_0, index_from_absent.
Qed.

Lemma match_brackets_no_close a r :
  lbracket ∉ a → rbracket ∉ r → match_brackets (a ++ lbracket :: r) = None.
Proof.
  intros Ha Hr. unfold match_brackets, indexOf.
  rewrite drop_0, index_from_skip by done. cbn [index_from].
  rewrite N.eqb_refl. cbn [Nat.add].
  by rewrite drop_past, last_index_from_absent.
Qed.

(** A text that opens with a bracket is read as an array or not at all. *)
Lemma parse_bracket_array s v :
  JSON.parse (lbracket :: s) = Some v → ∃ l, v = JArray l.
Proof.
  unfold JSON.parse.
  replace (2 * length (lbracket :: s) + 2)%nat
    with (S (2 * length (lbracket :: s) + 1)) by lia.
  cbn [parse_value skip_ws]. change (is_ws lbracket) with false. cbv iota.
  change (lbracket =? lbrace) with false. change (lbracket =? lbracket) with true.
  cbv iota. intros H.
  destruct (skip_ws s) as [|d r']; [done|].
  destruct (d =? rbracket).
  - destruct (skip_ws r'); [|done]. injection H as <-. by eexists.
  - destruct (parse_elements _ _) as [[vs rest]|]; [|done].
    destruct (skip_ws rest); [|done]. injection H as <-. by eexists.
Qed.

Lemma index_from_found c s i k :
  index_from c s i = Some k → ∃ r, drop (k - i) s = c :: r.
Proof.
  revert i; induction s as [|d t IH]; intros i; simpl; [done|].
  destruct (d =? c) eqn:Hd.
  - intros [= <-]. apply N.eqb_eq in Hd as ->. rewrite Nat.sub_diag. by eexists.
  - intros Hk. apply index_from_bounds in Hk as Hb.
    destruct (k - i)%nat as [|j] eqn:Hj; [lia|].
    apply IH in Hk. by replace (k - S i)%nat with j in Hk by lia.
Qed.

Lemma last_index_from_bounds c s i q :
  last_index_from c s i = Some q → (i ≤ q)%nat.
Proof.
  revert i; induction s as [|d t IH]; intros i; simpl; [done|].
  destruct (last_index_from c t (S i)) eqn:E.
  - intros [= <-]. apply IH in E. lia.
  - destruct (d =? c); [intros [= <-]; lia|done].
Qed.

Lemma match_brackets_open text jsonMatch :
  match_brackets text = Some jsonMatch → ∃ s, jsonMatch = lbracket :: s.
Proof.
  unfold match_brackets, indexOf. rewrite drop_0.
  destruct (index_from lbracket text 0) as [p|] eqn:Hp; [|done].
  destruct (last_index_from _ _ _) as [q|] eqn:Hq; [|done].
  intros [= <-]. unfold substring.
  apply index_from_found in Hp as (r & Hr). rewrite Nat.sub_0_r in Hr. rewrite Hr.
  apply last_index_from_bounds in Hq.
  destruct (q + 1 - p)%nat as [|k] eqn:Hk; [lia|]. simpl. by eexists.
Qed.

Lemma resolve_styles_total responseText : is_Some (resolve_styles responseText).
Proof.
  unfold resolve_styles. cbv zeta.
  destruct (match_brackets _) as [jsonMatch|] eqn:Hm; [|by eexists].
  apply match_brackets_open in Hm as (s & ->).
  destruct (JSON.parse (lbracket :: s)) as [v|] eqn:Hv; [|by eexists].
  apply parse_bracket_array in Hv as (l & ->). by eexists.
Qed.

Lemma apply_styles_new sessionId styles prompt baseTime prev :
  Forall (fun s => Session.id s ≠ sessionId) prev →
  apply_styles sessionId styles
    (prev ++ [Session.mk sessionId prompt baseTime (placeholderArtifacts sessionId)])
  = prev ++ [Session.mk sessionId prompt baseTime
       (map (fun i =>
          Artifact.mk (sessionId ++ js "_" ++ [48 + N.of_nat i]) (styles !! i) [] streaming)
          [0; 1; 2]%nat)].
Proof.
  intros Hprev. unfold apply_styles. rewrite map_app. f_equal.
  - rewrite <- (map_id prev) at 2. apply map_ext_Forall.
    eapply Forall_impl; [exact Hprev|]. intros s Hs. by rewrite bool_decide_true.
  - cbn [map Session.id]. rewrite bool_decide_false by (intros H; by apply H). done.
Qed.

(** C6, as the code has it. The text parsed is the span from the first
    opening bracket of the response to its last closing bracket (the text
    [[]] standing for a missing or empty response). When there is no such
    span, when [JSON.parse] rejects it or when it gives fewer than 3
    elements, the labels are the three fallback labels; otherwise they are
    the first 3 elements parsed. There are always exactly 3 of them, and
    they are written in order into the [styleName]s of the three
    placeholders of the new session, whose other fields and the other
    sessions stay as they are. *)
Theorem resolve_styles_spec (responseText : option jsstring) :
  let styleText :=
    match responseText with
    | Some (c :: t) => c :: t
    | _ => js "[]"
    end in
  (∃ styles, resolve_styles responseText = Some styles ∧ length styles = 3%nat)
  ∧ (lbracket ∉ styleText → resolve_styles responseText = Some fallback_styles)
  ∧ (∀ a r, styleText = a ++ lbracket :: r → lbracket ∉ a → rbracket ∉ r →
       resolve_styles responseText = Some fallback_styles)
  ∧ (∀ a m b, styleText = a ++ lbracket :: m ++ rbracket :: b →
       lbracket ∉ a → rbracket ∉ b →
       resolve_styles responseText
       = Some match JSON.parse (lbracket :: m ++ [rbracket]) with
              | Some (JArray l) =>
                  if (length l <? 3)%nat then fallback_styles else take 3 l
              | _ => fallback_styles
              end)
  ∧ (∀ styles sessionId prompt baseTime prev,
       resolve_styles responseText = Some styles →
       Forall (fun s => Session.id s ≠ sessionId) prev →
       apply_styles sessionId styles
         (prev ++ [Session.mk sessionId prompt baseTime (placeholderArtifacts sessionId)])
       = prev ++ [Session.mk sessionId prompt baseTime
            (map (fun i =>
               Artifact.mk (sessionId ++ js "_" ++ [48 + N.of_nat i]) (styles !! i)
                 [] streaming) [0; 1; 2]%nat)]).
Proof.
  intros styleText. unfold resolve_styles. cbv zeta. fold styleText.
  split; [|split; [|split; [|split]]].
  - destruct (match_brackets styleText) as [jsonMatch|] eqn:Hm; [|by eexists].
    apply match_brackets_open in Hm as (s & ->).
    destruct (JSON.parse (lbracket :: s)) as [v|] eqn:Hv; [|by eexists].
    apply parse_bracket_array in Hv as (l & ->).
    eexists. split; [done|].
    destruct (length l <? 3)%nat eqn:Hl; [done|].
    apply Nat.ltb_ge in Hl. rewrite length_take. lia.
  - intros H. by rewrite match_brackets_no_open.
  - intros a r -> Ha Hr. by rewrite match_brackets_no_close.
  - intros a m b -> Ha Hb. rewrite match_brackets_span by done.
    destruct (JSON.parse (lbracket :: m ++ [rbracket])) as [v|] eqn:Hv; [|done].
    apply parse_bracket_array in Hv as (l & ->).
    by destruct (length l <? 3)%nat.
  - intros styles sessionId prompt baseTime prev _ Hprev.
    by apply apply_styles_new.
Qed.

(** The scenarios of the specification. *)
Example resolve_styles_not_json :
  resolve_styles (Some (js "not json")) = Some fallback_styles.
Proof. vm_compute. reflexivity. Qed.

Example resolve_styles_three :
  resolve_styles (Some (jsq "['Soft Glass','Brutalist','Neon']"))
  = Some [JString (js "Soft Glass"); JString (js "Brutalist"); JString (js "Neon")].
Proof. vm_compute. reflexivity. Qed.

(** The claim as the specification words it, the first balanced array that
    parses, fails on a response with a second bracket after the array: the
    array of the first 13 code units parses and has 3 labels, and the labels
    used are the fallback ones, the span parsed being the whole response. *)
Lemma resolve_styles_greedy :
  let text := jsq "['a','b','c'] [x]" in
  JSON.parse (substring 0 13 text)
  = Some (JArray [JString (js "a"); JString (js "b"); JString (js "c")])
  ∧ match_brackets text = Some text
  ∧ JSON.parse text = None
  ∧ resolve_styles (Some text) = Some fallback_styles
  ∧ resolve_styles (Some text)
    ≠ Some [JString (js "a"); JString (js "b"); JString (js "c")].
Proof. vm_compute. repeat split; discriminate. Qed.

(** ** Focus and the current session *)

Lemma at_index_last {A} (l : list A) (x : A) :
  at_index (l ++ [x]) (Z.of_nat (length (l ++ [x])) - 1) = Some x.
Proof.
  unfold at_index. rewrite length_app. simpl.
  replace (Z.of_nat (length l + 1) - 1 <? 0)%Z with false
    by (symmetry; apply Z.ltb_ge; lia).
  replace (Z.to_nat (Z.of_nat (length l + 1) - 1)) with (length l) by lia.
  by rewrite list_lookup_middle.
Qed.



(** ** The vault *)

Lemma existsb_vault (i : jsstring) (l : list SavedArtifact.t) :
  existsb (fun s => bool_decide (SavedArtifact.id s = i)) l
  = bool_decide (i ∈ map SavedArtifact.id l).
Proof.
  induction l as [|s l IH]; simpl.
  - done.
  - rewrite IH. destruct (bool_decide (SavedArtifact.id s = i)) eqn:E1.
    + apply bool_decide_eq_true in E1. simpl. symmetry.
      apply bool_decide_eq_true. rewrite E1. apply list_elem_of_here.
    + apply bool_decide_eq_false in E1. simpl.
      apply bool_decide_ext. rewrite elem_of_cons.
      split; [by right|]. intros [Heq|Hin]; [congruence|done].
Qed.

Lemma handleSaveArtifact_focused now st sess focused art :
  at_index (sessions st) (currentSessionIndex st) = Some sess →
  focusedArtifactIndex st = Some focused →
  Session.artifacts sess !! focused = Some art →
  handleSaveArtifact now st
  = Some (if bool_decide (Artifact.id art ∈ vault_ids st) then st
          else set_savedArtifacts
                 (cons (SavedArtifact.mk art (Session.prompt sess) now)) st).
Proof.
  intros Hs Hf Ha. unfold handleSaveArtifact. rewrite Hs, Hf, Ha, existsb_vault.
  fold (vault_ids st). by destruct (bool_decide _).
Qed.




(** ** The batch *)

Lemma evolves_start g0 : promise g0 = pending → evolves g0 g0.
Proof. intros H. unfold evolves. rewrite H. by repeat split. Qed.

Lemma evolves_turn sessionId g0 g prev :
  evolves g0 g → evolves g0 (fst (generator_turn sessionId g prev)).
Proof.
  intros (Ha & Hs & Hb & Ht & Hr & Hf). unfold generator_turn.
  destruct (incoming g) as [|[text|] rest] eqn:Hin; cbn; unfold evolves; cbn;
    repeat split; try done.
  rewrite <- Ht. cbn. by rewrite app_assoc.
Qed.

(** What a turn publishes is what the generator shows after it, in place of
    what it showed before. *)
Lemma shown_turn sessionId g prev :
  promise g = pending →
  let '(g', h') := generator_turn sessionId g prev in
  ∃ f : Artifact.t → Artifact.t,
    shown g' = f (shown g)
    ∧ h' = map (fun sess =>
             if bool_decide (Session.id sess = sessionId) then
               Session.with_artifacts
                 (map (fun art =>
                    if bool_decide (Artifact.id art = Artifact.id (artifact g))
                    then f art else art) (Session.artifacts sess)) sess
             else sess) prev.
Proof.
  intros Hp. unfold generator_turn.
  destruct (incoming g) as [|[text|] rest] eqn:Hin.
  - destruct (will_break g) eqn:Hb.
    + exists (fun art => art). split; [unfold shown, completed; cbn; by rewrite Hp, ?Hb|].
      rewrite <- (map_id prev) at 1. apply map_ext. intros sess.
      destruct (bool_decide _); [|done].
      rewrite <- (session_eta sess) at 1. unfold Session.with_artifacts. f_equal.
      rewrite <- (map_id (Session.artifacts sess)) at 1. apply map_ext.
      intros art. by destruct (bool_decide _).
    + exists (Artifact.with_html_status (finalize (accumulatedHtml g))
                (final_status (finalize (accumulatedHtml g)))).
      split; [unfold shown, completed; cbn; by rewrite Hp, ?Hb|done].
  - exists (Artifact.with_html (accumulatedHtml g ++ text)).
    split; [unfold shown, completed; cbn; by rewrite Hp|done].
  - exists (fun art => art). split; [unfold shown, completed; cbn; by rewrite Hp|].
    rewrite <- (map_id prev) at 1. apply map_ext. intros sess.
    destruct (bool_decide _); [|done].
    rewrite <- (session_eta sess) at 1. unfold Session.with_artifacts. f_equal.
    rewrite <- (map_id (Session.artifacts sess)) at 1. apply map_ext.
    intros art. by destruct (bool_decide _).
Qed.

(** Among generators for artifacts with different ids, a patch addressed to
    the artifact of one of them changes what that one shows and nothing
    else. *)
Lemma patch_shown (gens : list Generator) k g g' (f : Artifact.t → Artifact.t) :
  NoDup (map (fun g => Artifact.id (artifact g)) gens) →
  gens !! k = Some g →
  shown g' = f (shown g) →
  map (fun art =>
         if bool_decide (Artifact.id art = Artifact.id (artifact g))
         then f art else art) (map shown gens)
  = map shown (<[k := g']> gens).
Proof.
  intros Hnd Hk Hf. apply list_eq. intros j.
  rewrite !list_lookup_fmap.
  destruct (decide (k = j)) as [<-|Hne].
  - rewrite Hk, list_lookup_insert_eq by (by eapply lookup_lt_Some). cbn.
    rewrite bool_decide_true by done. by rewrite Hf.
  - rewrite list_lookup_insert_ne by done.
    destruct (gens !! j) as [gj|] eqn:Hj; [|done]. cbn.
    rewrite bool_decide_false; [done|].
    intros Heq. apply Hne. eapply (NoDup_lookup _ k j); [exact Hnd| |].
    + rewrite list_lookup_fmap, Hk. done.
    + rewrite list_lookup_fmap, Hj. cbn. by rewrite <- Heq.
Qed.

Lemma evolves_ids gens0 gens :
  Forall2 evolves gens0 gens →
  map (fun g => Artifact.id (artifact g)) gens
  = map (fun g => Artifact.id (artifact g)) gens0.
Proof.
  induction 1 as [|g0 g gens0 gens (Ha & _) _ IH]; [done|].
  cbn. by rewrite Ha, IH.
Qed.

Lemma all_settles_fulfilled gens :
  Forall (fun g => promise g ≠ rejected) gens →
  all_settles gens = true → Forall (fun g => promise g = fulfilled) gens.
Proof.
  intros Hnr. unfold all_settles.
  replace (existsb _ gens) with false.
  - rewrite orb_false_r. clear Hnr. induction gens as [|g gens IH]; [done|].
    cbn. destruct (promise g) eqn:Hp; try done. cbn.
    intros H. constructor; [done|]. by apply IH.
  - symmetry. induction Hnr as [|g gens Hg _ IH]; [done|].
    cbn. rewrite IH. by destruct (promise g).
Qed.

Lemma batch_step_inv sessionId prompt baseTime n gens0 b e b' :
  NoDup (map (fun g => Artifact.id (artifact g)) gens0) →
  batch_inv sessionId prompt baseTime n gens0 b →
  batch_step sessionId b e = Some b' →
  batch_inv sessionId prompt baseTime n gens0 b'.
Proof.
  intros Hnd (Hev & Hh & Hl). destruct e as [k|]; cbn [batch_step].
  - destruct (generators b !! k) as [g|] eqn:Hk; [|done].
    destruct (promise g) eqn:Hp; try done.
    pose proof (shown_turn sessionId g (history b) Hp) as Hturn.
    pose proof (evolves_turn sessionId) as Hevt.
    destruct (generator_turn sessionId g (history b)) as [g' h'] eqn:Hgt.
    destruct Hturn as (f & Hf & ->). intros [= <-].
    destruct (Forall2_lookup_r _ _ _ _ _ Hev Hk) as (g0 & Hk0 & Hg0).
    split; [|split]; cbn [generators history loading].
    + rewrite <- (list_insert_id gens0 k g0 Hk0). apply Forall2_insert; [done|].
      specialize (Hevt g0 g (history b) Hg0). by rewrite Hgt in Hevt.
    + rewrite list_lookup_fmap, Hh. cbn. rewrite bool_decide_true by done.
      unfold Session.with_artifacts. cbn. do 2 f_equal.
      apply patch_shown; [|done|done]. by rewrite (evolves_ids gens0).
    + intros Hfalse. apply Hl in Hfalse.
      apply (Forall_lookup_1 _ _ _ _ Hfalse) in Hk. congruence.
  - destruct (loading b && all_settles (generators b)) eqn:E; [|done].
    apply andb_true_iff in E as [_ Hall]. intros [= <-].
    split; [done|]. split; [done|]. intros _. cbn.
    apply all_settles_fulfilled; [|done].
    eapply Forall2_Forall_r; [exact Hev|]. apply Forall_true.
    intros g0 g (_ & _ & _ & _ & Hr & _). done.
Qed.

Lemma batch_run_inv sessionId prompt baseTime n gens0 schedule : ∀ b b',
  NoDup (map (fun g => Artifact.id (artifact g)) gens0) →
  batch_inv sessionId prompt baseTime n gens0 b →
  batch_run sessionId b schedule = Some b' →
  batch_inv sessionId prompt baseTime n gens0 b'.
Proof.
  induction schedule as [|e rest IH]; intros b b' Hnd Hinv; cbn.
  - by intros [= <-].
  - destruct (batch_step sessionId b e) as [b1|] eqn:Hstep; [|done].
    apply IH; [done|]. by eapply batch_step_inv.
Qed.

Lemma sum_list_insert_lt (l : list Generator) k g g' :
  l !! k = Some g → (turns_left g' < turns_left g)%nat →
  (sum_list (map turns_left (<[k := g']> l)) < sum_list (map turns_left l))%nat.
Proof.
  revert k; induction l as [|x l IH]; intros k; [done|].
  destruct k as [|k]; cbn -[turns_left].
  - intros [= ->] Hlt. by apply Nat.add_lt_mono_r.
  - intros Hk Hlt. apply Nat.add_lt_mono_l. by apply IH.
Qed.

Lemma generator_turn_left sessionId g prev :
  promise g = pending →
  (turns_left (fst (generator_turn sessionId g prev)) < turns_left g)%nat.
Proof.
  intros Hp. unfold generator_turn, turns_left. rewrite Hp.
  destruct (incoming g) as [|[text|] rest]; cbn; lia.
Qed.

Lemma batch_step_left sessionId b e b' :
  batch_step sessionId b e = Some b' → (events_left b' < events_left b)%nat.
Proof.
  destruct e as [k|]; cbn [batch_step].
  - destruct (generators b !! k) as [g|] eqn:Hk; [|done].
    destruct (promise g) eqn:Hp; try done.
    pose proof (generator_turn_left sessionId g (history b) Hp) as Hlt.
    destruct (generator_turn sessionId g (history b)) as [g' h'].
    cbn [fst] in Hlt. intros [= <-].
    unfold events_left. cbn [generators loading].
    apply Nat.add_lt_mono_r. by eapply sum_list_insert_lt.
  - destruct (loading b) eqn:Hl; [|done]. destruct (all_settles _); [|done].
    intros [= <-]. unfold events_left. cbn. rewrite Hl. lia.
Qed.

Lemma batch_run_left sessionId schedule : ∀ b b',
  batch_run sessionId b schedule = Some b' →
  (length schedule + events_left b' ≤ events_left b)%nat.
Proof.
  induction schedule as [|e rest IH]; intros b b'; cbn.
  - intros [= <-]. lia.
  - destruct (batch_step sessionId b e) as [b1|] eqn:Hstep; [|done].
    intros Hrun. apply IH in Hrun. apply batch_step_left in Hstep. lia.
Qed.

(** While the batch is loading some event can happen. *)
Lemma batch_progress sessionId b :
  Forall (fun g => promise g ≠ rejected) (generators b) →
  loading b = true → ∃ e b', batch_step sessionId b e = Some b'.
Proof.
  intros Hnr Hl.
  destruct (decide (Exists (fun g => promise g = pending) (generators b)))
    as [Hex|Hall].
  - apply Exists_exists in Hex as (g & Hin & Hp).
    apply list_elem_of_lookup in Hin as (k & Hk).
    exists (Turn k). cbn. rewrite Hk, Hp.
    destruct (generator_turn sessionId g (history b)). by eexists.
  - exists Join. cbn. rewrite Hl.
    assert (Hful : forallb (fun g => match promise g with fulfilled => true | _ => false end)
                     (generators b) = true).
    { apply forallb_forall. intros g Hin. apply list_elem_of_In in Hin.
      destruct (promise g) eqn:Hp; [|done|].
      - exfalso. apply Hall. apply Exists_exists. by exists g.
      - exfalso. by apply (proj1 (Forall_forall _ _) Hnr g Hin). }
    unfold all_settles. rewrite Hful. cbn. by eexists.
Qed.

Lemma placeholder_ids_NoDup sessionId :
  NoDup (map Artifact.id (placeholderArtifacts sessionId)).
Proof.
  cbn. repeat (apply NoDup_cons; split); [..|apply NoDup_nil_2].
  - intros H. repeat (apply elem_of_cons in H as [H|H]);
      [by apply app_inv_head in H..|by apply elem_of_nil in H].
  - intros H. repeat (apply elem_of_cons in H as [H|H]);
      [by apply app_inv_head in H..|by apply elem_of_nil in H].
  - apply not_elem_of_nil.
Qed.

Lemma start_batch_inv sessionId prompt baseTime styles streams prev :
  let b0 := start_batch sessionId prompt baseTime styles streams prev in
  NoDup (map (fun g => Artifact.id (artifact g)) (generators b0))
  ∧ batch_inv sessionId prompt baseTime (length prev) (generators b0) b0.
Proof.
  cbv zeta. split.
  - pose proof (placeholder_ids_NoDup sessionId) as H. exact H.
  - split; [|split]; [| |done].
    + apply Forall2_same_length_lookup_2; [done|].
      intros k g g' Hg Hg'. rewrite Hg in Hg'. injection Hg' as <-.
      apply evolves_start. cbn [start_batch generators] in Hg.
      apply list_lookup_imap_Some in Hg as (art & _ & ->). done.
    + unfold start_batch, apply_styles. cbn [history generators].
      rewrite list_lookup_fmap, list_lookup_middle by done. cbn.
      rewrite bool_decide_false by (intros H; by apply H). done.
Qed.

Lemma placeholder_id sessionId k p :
  placeholderArtifacts sessionId !! k = Some p →
  Artifact.id p = sessionId ++ js "_" ++ [48 + N.of_nat k].
Proof.
  destruct k as [|[|[|k]]]; cbn; try done; by intros [= <-].
Qed.

(** C7. Failure isolation in a batch. Whatever the order in which the event
    loop runs the turns of the three generators: no promise is ever
    rejected, so that [Promise.all] settles only when every generator has
    returned, and the loading flag is cleared only then; as long as it is
    set some event can happen, and a run has no more events than the
    fragments, the three stream ends and the join make up; the session of
    the batch keeps its three artifacts, each with its id and its label; the
    artifact of a generator whose stream breaks stays [streaming]; and once
    the flag is cleared the artifact of a generator whose stream broke holds
    the text received before the break, still [streaming], while the
    artifact of every other generator holds its normalized text with status
    [complete], or [error] when that text is empty, as if it had run
    alone. *)
Theorem batch_tolerates_failure
    (sessionId prompt : jsstring) (baseTime : Z) (styles : list json)
    (streams : nat → Stream) (prev : list Session.t)
    (schedule : list Event) (b : Batch) :
  batch_run sessionId
    (start_batch sessionId prompt baseTime styles streams prev) schedule = Some b →
  Forall (fun g => promise g ≠ rejected) (generators b)
  ∧ (loading b = false → Forall (fun g => promise g = fulfilled) (generators b))
  ∧ (loading b = true → ∃ e b', batch_step sessionId b e = Some b')
  ∧ (length schedule
     ≤ events_left (start_batch sessionId prompt baseTime styles streams prev))%nat
  ∧ ∃ arts,
      history b !! length prev = Some (Session.mk sessionId prompt baseTime arts)
      ∧ length arts = 3%nat
      ∧ ∀ k art, arts !! k = Some art →
          Artifact.id art = sessionId ++ js "_" ++ [48 + N.of_nat k]
          ∧ Artifact.styleName art = styles !! k
          ∧ (breaks (streams k) = true → Artifact.status art = streaming)
          ∧ (loading b = false →
             art = Artifact.mk (sessionId ++ js "_" ++ [48 + N.of_nat k]) (styles !! k)
                     (if breaks (streams k) then text_of (delivered (streams k))
                      else finalize (text_of (delivered (streams k))))
                     (if breaks (streams k) then streaming
                      else final_status (finalize (text_of (delivered (streams k)))))).
Proof.
  intros Hrun.
  destruct (start_batch_inv sessionId prompt baseTime styles streams prev) as [Hnd Hinv0].
  set (b0 := start_batch sessionId prompt baseTime styles streams prev) in *.
  destruct (batch_run_inv _ _ _ _ _ _ _ _ Hnd Hinv0 Hrun) as (Hev & Hh & Hl).
  assert (Hnr : Forall (fun g => promise g ≠ rejected) (generators b)).
  { eapply Forall2_Forall_r; [exact Hev|]. apply Forall_true.
    intros g0 g (_ & _ & _ & _ & Hr & _). done. }
  split; [done|]. split; [done|]. split; [by apply batch_progress|]. split.
  { apply batch_run_left in Hrun. lia. }
  exists (map shown (generators b)). split; [done|]. split.
  { rewrite length_map, <- (Forall2_length _ _ _ Hev). done. }
  intros k art Hart. rewrite list_lookup_fmap in Hart.
  destruct (generators b !! k) as [g|] eqn:Hg; [|done]. injection Hart as <-.
  destruct (Forall2_lookup_r _ _ _ _ _ Hev Hg) as (g0 & Hg0 & Ha & Hs & Hb & Ht & Hr & Hf).
  cbn [b0 start_batch generators] in Hg0.
  apply list_lookup_imap_Some in Hg0 as (p & Hp & ->).
  apply placeholder_id in Hp. cbn [start_generator artifact styleInstruction
    will_break accumulatedHtml incoming] in *.
  assert (Hid : Artifact.id (shown g) = sessionId ++ js "_" ++ [48 + N.of_nat k])
    by (cbn; by rewrite Ha).
  split; [done|]. split; [done|]. split.
  - intros Hbr. unfold shown, completed. cbn. rewrite Hb, Hbr.
    by destruct (promise g).
  - intros Hfalse. apply Hl in Hfalse.
    pose proof (Forall_lookup_1 _ _ _ _ Hfalse Hg) as Hful. cbn beta in Hful.
    rewrite (Hf Hful) in Ht. cbn in Ht. rewrite app_nil_r in Ht.
    unfold shown, completed. rewrite Hful, Hb, Ht, Ha, Hp, Hs.
    by destruct (breaks (streams k)).
Qed.

(** ** The extractor on any text *)

Lemma index_from_spec c s i k :
  index_from c s i = Some k ↔
  (i ≤ k)%nat ∧ s !! (k - i)%nat = Some c ∧ ∀ j, (j < k - i)%nat → s !! j ≠ Some c.
Proof.
  revert i; induction s as [|d r IH]; intros i; simpl.
  - split; [done|]. by intros (_ & H & _).
  - destruct (d =? c) eqn:Hd.
    + apply N.eqb_eq in Hd as ->. split.
      * intros [= <-]. rewrite Nat.sub_diag. split; [lia|]. split; [done|]. lia.
      * intros (Hle & Hk & Hno). f_equal.
        destruct (k - i)%nat as [|n] eqn:E; [lia|].
        by destruct (Hno 0%nat); [lia|].
    + apply N.eqb_neq in Hd. rewrite IH. split.
      * intros (Hle & Hk & Hno).
        replace (k - i)%nat with (S (k - S i)) by lia.
        split; [lia|]. split; [done|].
        intros [|j] Hj; cbn; [congruence|]. apply Hno. lia.
      * intros (Hle & Hk & Hno).
        destruct (k - i)%nat as [|n] eqn:E; [cbn in Hk; congruence|].
        replace (k - S i)%nat with n by lia.
        split; [lia|]. split; [done|].
        intros j Hj. apply (Hno (S j)). lia.
Qed.

Lemma indexOf_spec c s from k :
  indexOf c s from = Some k ↔
  (from ≤ k)%nat ∧ s !! k = Some c ∧ ∀ j, (from ≤ j < k)%nat → s !! j ≠ Some c.
Proof.
  unfold indexOf. rewrite index_from_spec. split.
  - intros (Hle & Hk & Hno). rewrite lookup_drop in Hk.
    replace (from + (k - from))%nat with k in Hk by lia.
    split; [done|]. split; [done|].
    intros j Hj. specialize (Hno (j - from)%nat). rewrite lookup_drop in Hno.
    replace (from + (j - from))%nat with j in Hno by lia. apply Hno. lia.
  - intros (Hle & Hk & Hno). split; [done|]. rewrite lookup_drop.
    replace (from + (k - from))%nat with k by lia. split; [done|].
    intros j Hj. rewrite lookup_drop. apply Hno. lia.
Qed.

Lemma index_from_None c s i :
  index_from c s i = None ↔ ∀ j, s !! j ≠ Some c.
Proof.
  revert i; induction s as [|d r IH]; intros i; simpl.
  - split; [by intros _ j|done].
  - destruct (d =? c) eqn:Hd.
    + apply N.eqb_eq in Hd as ->. split; [done|]. intros H. by destruct (H 0%nat).
    + apply N.eqb_neq in Hd. rewrite IH. split.
      * intros H [|j]; cbn; [congruence|apply H].
      * intros H j. apply (H (S j)).
Qed.

Lemma indexOf_None c s from :
  indexOf c s from = None ↔ ∀ j, (from ≤ j)%nat → s !! j ≠ Some c.
Proof.
  unfold indexOf. rewrite index_from_None. split.
  - intros H j Hj. specialize (H (j - from)%nat). rewrite lookup_drop in H.
    by replace (from + (j - from))%nat with j in H by lia.
  - intros H j. rewrite lookup_drop. apply H. lia.
Qed.

(** What was found in a buffer is found again once text is appended. *)
Lemma indexOf_app_Some c b t from k :
  indexOf c b from = Some k → indexOf c (b ++ t) from = Some k.
Proof.
  intros H. pose proof (indexOf_bounds _ _ _ _ H) as Hb.
  apply indexOf_spec in H as (Hle & Hk & Hno). apply indexOf_spec.
  split; [done|]. split; [by rewrite lookup_app_l by lia|].
  intros j Hj. rewrite lookup_app_l by lia. by apply Hno.
Qed.

Lemma scan_end_app_Some rest t i start n e :
  scan_end rest i start n = Some e → scan_end (rest ++ t) i start n = Some e.
Proof.
  revert i n; induction rest as [|c r IH]; intros i n; [done|].
  rewrite <- app_comm_cons, !scan_end_step.
  destruct (_ && _); [done|]. apply IH.
Qed.

Lemma find_end_app_Some b t start e :
  find_end b start = Some e → find_end (b ++ t) start = Some e.
Proof.
  intros H. pose proof (find_end_bounds _ _ _ H) as Hb. unfold find_end in *.
  rewrite drop_app_le by lia. by apply scan_end_app_Some.
Qed.

Lemma substring_app_l a e (b t : jsstring) :
  (e ≤ length b)%nat → substring a e (b ++ t) = substring a e b.
Proof.
  intros He. unfold substring.
  destruct (decide (a ≤ length b)%nat) as [Ha|Ha].
  - rewrite drop_app_le by done. apply take_app_le. rewrite length_drop. lia.
  - by replace (e - a)%nat with 0%nat by lia.
Qed.

Lemma given_up_app b t k :
  (k ≤ length b)%nat → given_up b k → given_up (b ++ t) k.
Proof.
  intros Hk Hg s Hs Hb. rewrite lookup_app_l in Hb by lia.
  destruct (Hg s Hs Hb) as (e & He & Hp). exists e.
  pose proof (find_end_bounds _ _ _ He) as Hbd.
  split; [by apply find_end_app_Some|].
  by rewrite substring_app_l by lia.
Qed.

Lemma given_up_next b k s e :
  given_up b k → indexOf lbrace b k = Some s → find_end b s = Some e →
  JSON.parse (substring s (e + 1) b) = None → given_up b (s + 1).
Proof.
  intros Hg Hs He Hp s' Hlt Hb. apply indexOf_spec in Hs as (Hle & Hbs & Hno).
  destruct (decide (s' < k)%nat) as [H1|H1]; [by apply Hg|].
  destruct (decide (s' = s)) as [->|H2]; [by exists e|].
  destruct (Hno s'); [lia|done].
Qed.

(** Starts that were given up are passed over again with the same result. *)
Lemma extract_given_up b k :
  given_up b k → drain b = extract b (indexOf lbrace b k).
Proof.
  unfold drain. intros Hg.
  assert (H : ∀ n j, (k - j ≤ n)%nat → (j ≤ k)%nat →
            extract b (indexOf lbrace b j) = extract b (indexOf lbrace b k)).
  { induction n as [|n IH]; intros j Hn Hj.
    - by replace j with k by lia.
    - destruct (decide (j = k)) as [->|Hne]; [done|].
      destruct (indexOf lbrace b j) as [s|] eqn:Hs.
      + pose proof Hs as Hs'. apply indexOf_spec in Hs' as (Hle & Hbs & Hno).
        destruct (decide (s < k)%nat) as [Hlt|Hge].
        * destruct (Hg s Hlt Hbs) as (e & He & Hp).
          rewrite extract_body, He, Hp. apply IH; lia.
        * f_equal. symmetry. apply indexOf_spec. split; [lia|]. split; [done|].
          intros i Hi. apply Hno. lia.
      + f_equal. symmetry. apply indexOf_None. intros i Hi.
        apply (proj1 (indexOf_None _ _ _) Hs). lia. }
  apply (H k 0%nat); lia.
Qed.

(** The loop on a buffer to which text is appended: what it yields from the
    buffer alone, then what it yields from what it left and the new text. *)
Lemma extract_app t : ∀ n b k,
  (to_scan b (indexOf lbrace b k) ≤ n)%nat → (k ≤ length b)%nat → given_up b k →
  extract (b ++ t) (indexOf lbrace (b ++ t) k)
  = let '(o1, b1) := extract b (indexOf lbrace b k) in
    let '(o2, b2) := drain (b1 ++ t) in (o1 ++ o2, b2).
Proof.
  induction n as [|n IH]; intros b k Hn Hk Hg.
  all: destruct (indexOf lbrace b k) as [s|] eqn:Hs;
    [|rewrite (extract_body b None); rewrite <- extract_given_up by (by apply given_up_app);
      by destruct (drain (b ++ t))].
  { cbn in Hn. lia. }
  pose proof (indexOf_bounds _ _ _ _ Hs) as Hsb.
  rewrite (extract_body b (Some s)).
  destruct (find_end b s) as [e|] eqn:He;
    [|rewrite <- extract_given_up by (by apply given_up_app);
      by destruct (drain (b ++ t))].
  pose proof (find_end_bounds _ _ _ He) as Heb.
  rewrite (indexOf_app_Some _ _ t _ _ Hs), extract_body.
  rewrite (find_end_app_Some _ t _ _ He), substring_app_l by lia.
  destruct (JSON.parse (substring s (e + 1) b)) as [v|] eqn:Hp.
  - cbv zeta. rewrite drop_app_le by lia.
    rewrite (IH (drop (e + 1) b) 0%nat); [| |lia|intros ? ?; lia].
    + destruct (extract (drop (e + 1) b) _) as [o1 b1].
      by destruct (drain (b1 ++ t)) as [o2 b2].
    + cbn in Hn. destruct (indexOf lbrace (drop (e + 1) b) 0) as [s'|] eqn:Hs';
        [|cbn; lia].
      apply indexOf_bounds in Hs'. cbn. rewrite length_drop in *. lia.
  - rewrite (IH b (s + 1)%nat); [done| |lia|by eapply given_up_next].
    cbn in Hn. destruct (indexOf lbrace b (s + 1)) as [s'|] eqn:Hs'; [|cbn; lia].
    apply indexOf_bounds in Hs'. cbn. lia.
Qed.

Lemma drain_settled b : drain (snd (drain b)) = ([], snd (drain b)).
Proof.
  pose proof (extract_app [] _ b 0%nat (Nat.le_refl _) ltac:(lia)
                ltac:(intros ? ?; lia)) as H.
  rewrite app_nil_r in H. fold (drain b) in H.
  destruct (drain b) as [o1 b1]. rewrite app_nil_r in H. cbn [snd].
  destruct (drain b1) as [o2 b2]. injection H as Ho ->.
  f_equal. rewrite <- (app_nil_r o1) in Ho at 1. by apply app_inv_head in Ho.
Qed.

Lemma run_from_drain chunks : ∀ b,
  drain b = ([], b) →
  (concat (fst (run_from b chunks)), snd (run_from b chunks))
  = drain (b ++ text_of chunks).
Proof.
  induction chunks as [|[text|] rest IH]; intros b Hb.
  - cbn. by rewrite app_nil_r, Hb.
  - cbn [run_from feed]. fold (drain (b ++ text)).
    pose proof (drain_settled (b ++ text)) as Hs.
    pose proof (extract_app (text_of rest) _ (b ++ text) 0%nat (Nat.le_refl _)
                  ltac:(lia) ltac:(intros ? ?; lia)) as H.
    fold (drain (b ++ text)) in H. fold (drain ((b ++ text) ++ text_of rest)) in H.
    rewrite text_of_cons. cbn [from_option id]. rewrite app_assoc, H.
    destruct (drain (b ++ text)) as [o1 b1]. cbn [snd] in Hs.
    specialize (IH b1 Hs).
    destruct (run_from b1 rest) as [outs final]. cbn [fst snd concat] in *.
    by rewrite <- IH.
  - cbn [run_from feed]. rewrite text_of_cons. cbn [from_option]. rewrite app_nil_l.
    specialize (IH b Hb). destruct (run_from b rest) as [outs final].
    cbn [fst snd concat app] in *. done.
Qed.

(** X1. How the text of the stream is cut into fragments does not matter,
    and items that carry no text do not count: the values yielded, in
    order, and the buffer left when the stream ends are those of the same
    text delivered as one fragment. *)
Theorem parseJsonStream_regroup (responseStream : list chunk) :
  concat (parseJsonStream responseStream)
  = concat (parseJsonStream [Some (text_of responseStream)])
  ∧ snd (run_from [] responseStream)
    = snd (run_from [] [Some (text_of responseStream)]).
Proof.
  assert (H0 : drain [] = ([], [])) by (unfold drain; by rewrite extract_body).
  pose proof (run_from_drain responseStream [] H0) as H.
  unfold parseJsonStream. cbn [run_from feed app]. rewrite app_nil_l in H.
  fold (drain (text_of responseStream)). rewrite <- H.
  destruct (run_from [] responseStream) as [outs final]. cbn.
  by rewrite app_nil_r.
Qed.

Lemma parse_brace_object s v :
  JSON.parse (lbrace :: s) = Some v → is_object v = true.
Proof.
  unfold JSON.parse.
  replace (2 * length (lbrace :: s) + 2)%nat
    with (S (2 * length (lbrace :: s) + 1)) by lia.
  cbn [parse_value skip_ws]. change (is_ws lbrace) with false. cbv iota.
  change (lbrace =? lbrace) with true. cbv iota. intros H.
  destruct (skip_ws s) as [|d r']; [done|].
  destruct (d =? rbrace).
  - destruct (skip_ws r'); [|done]. by injection H as <-.
  - destruct (parse_members _ _) as [[ms rest]|]; [|done].
    destruct (skip_ws rest); [|done]. by injection H as <-.
Qed.

Lemma substring_head (b : jsstring) s e c :
  b !! s = Some c → (s ≤ e)%nat → ∃ r, substring s (e + 1) b = c :: r.
Proof.
  intros Hb He. unfold substring.
  rewrite (drop_S _ _ _ Hb). replace (e + 1 - s)%nat with (S (e - s)) by lia.
  cbn. by eexists.
Qed.

Lemma extract_objects : ∀ n b k,
  (to_scan b (indexOf lbrace b k) ≤ n)%nat →
  Forall (fun v => is_object v = true) (fst (extract b (indexOf lbrace b k))).
Proof.
  induction n as [|n IH]; intros b k Hn.
  all: destruct (indexOf lbrace b k) as [s|] eqn:Hs; [|by rewrite extract_body].
  { cbn in Hn. lia. }
  pose proof (indexOf_bounds _ _ _ _ Hs) as Hsb.
  apply indexOf_spec in Hs as (_ & Hbs & _).
  rewrite extract_body. destruct (find_end b s) as [e|] eqn:He; [|done].
  pose proof (find_end_bounds _ _ _ He) as Heb.
  destruct (JSON.parse _) as [v|] eqn:Hp.
  - cbv zeta. specialize (IH (drop (e + 1) b) 0%nat).
    destruct (extract (drop (e + 1) b) _) as [out b1]. cbn [fst] in *.
    apply Forall_cons. split.
    + destruct (substring_head b s e lbrace Hbs) as (r & Hr); [lia|].
      rewrite Hr in Hp. by eapply parse_brace_object.
    + apply IH. cbn in Hn.
      destruct (indexOf lbrace (drop (e + 1) b) 0) as [s'|] eqn:Hs'; [|cbn; lia].
      apply indexOf_bounds in Hs'. cbn. rewrite length_drop in *. lia.
  - apply IH. cbn in Hn.
    destruct (indexOf lbrace b (s + 1)) as [s'|] eqn:Hs'; [|cbn; lia].
    apply indexOf_bounds in Hs'. cbn. lia.
Qed.

Lemma run_from_objects (responseStream : list chunk) : ∀ buffer,
  Forall (fun v => is_object v = true) (concat (fst (run_from buffer responseStream))).
Proof.
  induction responseStream as [|[text|] rest IH]; intros b; cbn [run_from feed].
  - by cbn.
  - pose proof (extract_objects _ (b ++ text) 0%nat (Nat.le_refl _)) as H.
    destruct (extract (b ++ text) _) as [o b1]. specialize (IH b1).
    destruct (run_from b1 rest) as [outs final]. cbn [fst concat] in *.
    by apply Forall_app.
  - specialize (IH b). destruct (run_from b rest) as [outs final]. by cbn in *.
Qed.

(** X2. Whatever the stream carries, every value the generator yields is an
    object: the text given to [JSON.parse] opens with a brace, and a text
    that opens with a brace parses as an object or not at all. *)
Theorem parseJsonStream_objects (responseStream : list chunk) :
  Forall (fun v => is_object v = true) (concat (parseJsonStream responseStream)).
Proof. apply run_from_objects. Qed.

Lemma index_from_shift c s i d :
  index_from c s (i + d) = (fun k => (k + d)%nat) <$> index_from c s i.
Proof.
  revert i; induction s as [|x r IH]; intros i; simpl; [done|].
  destruct (x =? c); [done|]. apply (IH (S i)).
Qed.

Lemma indexOf_offset c (p b : jsstring) k :
  indexOf c (p ++ b) (length p + k)
  = (fun s => (length p + s)%nat) <$> indexOf c b k.
Proof.
  unfold indexOf. rewrite <- drop_drop, drop_app_length.
  rewrite (Nat.add_comm (length p) k), index_from_shift.
  destruct (index_from c (drop k b) k); cbn; [f_equal; lia|done].
Qed.

Lemma scan_end_shift rest i start n d :
  scan_end rest (i + d) (start + d) n
  = (fun e => (e + d)%nat) <$> scan_end rest i start n.
Proof.
  revert i n; induction rest as [|c r IH]; intros i n; [done|].
  rewrite !scan_end_step.
  replace (start + d <? i + d)%nat with (start <? i)%nat
    by (destruct (start <? i)%nat eqn:E; symmetry;
        [apply Nat.ltb_lt in E; apply Nat.ltb_lt; lia
        |apply Nat.ltb_ge in E; apply Nat.ltb_ge; lia]).
  destruct (_ && _); [done|]. apply (IH (S i)).
Qed.

Lemma find_end_offset (p b : jsstring) s :
  find_end (p ++ b) (length p + s)
  = (fun e => (length p + e)%nat) <$> find_end b s.
Proof.
  unfold find_end. rewrite <- drop_drop, drop_app_length.
  rewrite (Nat.add_comm (length p) s), scan_end_shift.
  destruct (scan_end (drop s b) s s 0); cbn; [f_equal; lia|done].
Qed.

(** Text before the position where the loop stands does not change what
    the loop yields. *)
Lemma extract_offset p : ∀ n b k,
  (to_scan b (indexOf lbrace b k) ≤ n)%nat →
  fst (extract (p ++ b) (indexOf lbrace (p ++ b) (length p + k)))
  = fst (extract b (indexOf lbrace b k)).
Proof.
  induction n as [|n IH]; intros b k Hn; rewrite indexOf_offset.
  all: destruct (indexOf lbrace b k) as [s|] eqn:Hs;
    [|by rewrite !(extract_body _ None)].
  { cbn in Hn. lia. }
  pose proof (indexOf_bounds _ _ _ _ Hs) as Hsb. cbn [fmap option_fmap option_map].
  rewrite (extract_body (p ++ b)), (extract_body b), find_end_offset.
  destruct (find_end b s) as [e|] eqn:He; [|done].
  pose proof (find_end_bounds _ _ _ He) as Heb. cbn [fmap option_fmap option_map].
  assert (Hsub : substring (length p + s) (length p + e + 1) (p ++ b)
                 = substring s (e + 1) b).
  { unfold substring. rewrite <- drop_drop, drop_app_length. f_equal. lia. }
  rewrite Hsub. destruct (JSON.parse _) as [v|].
  - cbv zeta. replace (length p + e + 1)%nat with (length p + (e + 1))%nat by lia.
    rewrite <- drop_drop, drop_app_length.
    by destruct (extract (drop (e + 1) b) _).
  - replace (length p + s + 1)%nat with (length p + (s + 1))%nat by lia.
    apply IH. cbn in Hn.
    destruct (indexOf lbrace b (s + 1)) as [s'|] eqn:Hs'; [|cbn; lia].
    apply indexOf_bounds in Hs'. cbn. lia.
Qed.

Lemma brace_free_no_lbrace s : brace_free s → lbrace ∉ s.
Proof.
  induction s as [|c s IH]; intros Hs; [apply not_elem_of_nil|].
  apply brace_free_cons in Hs as [Hc Hs]. apply not_elem_of_cons.
  split; [|by apply IH]. intros <-. done.
Qed.

(** X3. A block in braces that [JSON.parse] rejects is passed over: the
    values yielded are those of the text that follows it. *)
Theorem parseJsonStream_skips
    (pre m rest : jsstring) (responseStream : list chunk) :
  brace_free pre → brace_free m →
  JSON.parse (lbrace :: m ++ [rbrace]) = None →
  text_of responseStream = pre ++ (lbrace :: m ++ [rbrace]) ++ rest →
  concat (parseJsonStream responseStream) = concat (parseJsonStream [Some rest]).
Proof.
  intros Hpre Hm Hp Htext.
  assert (H0 : drain [] = ([], [])) by (unfold drain; by rewrite extract_body).
  pose proof (run_from_drain responseStream [] H0) as H.
  pose proof (run_from_drain [Some rest] [] H0) as H1.
  rewrite text_of_cons in H1. cbn [from_option id text_of map concat] in H1.
  rewrite app_nil_r in H1. rewrite app_nil_l in H, H1.
  unfold parseJsonStream.
  apply (f_equal fst) in H, H1. cbn [fst] in H, H1. rewrite H, H1, Htext.
  clear H H1 Htext responseStream.
  set (j := lbrace :: m ++ [rbrace]).
  unfold drain at 1.
  replace (pre ++ j ++ rest) with (pre ++ lbrace :: m ++ rbrace :: rest)
    by (unfold j; by rewrite <- !app_comm_cons, <- app_assoc).
  rewrite indexOf_first_brace, extract_body by done.
  rewrite find_end_object by (by apply brace_free_balanced).
  assert (Hsub : substring (length pre) (length pre + length m + 1 + 1)
                   (pre ++ lbrace :: m ++ rbrace :: rest) = j).
  { unfold substring. rewrite drop_app_length.
    replace (length pre + length m + 1 + 1 - length pre)%nat
      with (S (length m + 1)) by lia.
    cbn [take]. unfold j. f_equal.
    replace (rbrace :: rest) with ([rbrace] ++ rest) by done.
    rewrite app_assoc, take_app_length'; [done|]. rewrite length_app. simpl. lia. }
  rewrite Hsub. unfold j at 1. rewrite Hp.
  replace (pre ++ lbrace :: m ++ rbrace :: rest) with ((pre ++ j) ++ rest)
    by (unfold j; by rewrite <- !app_assoc, <- !app_comm_cons, <- app_assoc).
  assert (Hnext : indexOf lbrace ((pre ++ j) ++ rest) (length pre + 1)
                  = indexOf lbrace ((pre ++ j) ++ rest) (length (pre ++ j) + 0)).
  { unfold indexOf. rewrite Nat.add_0_r, drop_app_length.
    replace ((pre ++ j) ++ rest) with (pre ++ [lbrace] ++ (m ++ [rbrace]) ++ rest)
      by (unfold j; rewrite <- (app_assoc pre); by rewrite <- app_comm_cons).
    rewrite <- drop_drop, drop_app_length. cbn [app drop]. rewrite drop_0.
    rewrite index_from_skip.
    - f_equal. unfold j. rewrite !length_app. cbn. rewrite length_app. cbn. lia.
    - rewrite elem_of_app, list_elem_of_singleton.
      intros [Hin|Heq]; [by apply (brace_free_no_lbrace m)|done]. }
  rewrite Hnext. apply (extract_offset (pre ++ j) _ rest 0%nat (Nat.le_refl _)).
Qed.

Lemma extract_suffix : ∀ n b k,
  (to_scan b (indexOf lbrace b k) ≤ n)%nat →
  ∃ p, b = p ++ snd (extract b (indexOf lbrace b k))
       ∧ (fst (extract b (indexOf lbrace b k)) = [] → p = []).
Proof.
  induction n as [|n IH]; intros b k Hn.
  all: destruct (indexOf lbrace b k) as [s|] eqn:Hs;
    [|rewrite extract_body; by exists []].
  { cbn in Hn. lia. }
  pose proof (indexOf_bounds _ _ _ _ Hs) as Hsb.
  rewrite extract_body. destruct (find_end b s) as [e|] eqn:He; [|by exists []].
  pose proof (find_end_bounds _ _ _ He) as Heb.
  destruct (JSON.parse _) as [v|] eqn:Hp.
  - cbv zeta. destruct (IH (drop (e + 1) b) 0%nat) as (p & Hb & _).
    { cbn in Hn.
      destruct (indexOf lbrace (drop (e + 1) b) 0) as [s'|] eqn:Hs'; [|cbn; lia].
      apply indexOf_bounds in Hs'. cbn. rewrite length_drop in *. lia. }
    destruct (extract (drop (e + 1) b) _) as [out b1]. cbn [fst snd] in *.
    exists (take (e + 1) b ++ p). split; [|done].
    by rewrite <- app_assoc, <- Hb, take_drop.
  - apply IH. cbn in Hn.
    destruct (indexOf lbrace b (s + 1)) as [s'|] eqn:Hs'; [|cbn; lia].
    apply indexOf_bounds in Hs'. cbn. lia.
Qed.

(** X4. The buffer left when the stream ends is a tail of the text
    received: the generator drops text from the front only, never from the
    middle or the end, and a stream that yields nothing leaves all its text
    in the buffer. *)
Theorem parseJsonStream_buffer (responseStream : list chunk) :
  ∃ consumed,
    text_of responseStream = consumed ++ snd (run_from [] responseStream)
    ∧ (concat (parseJsonStream responseStream) = [] → consumed = []).
Proof.
  assert (H0 : drain [] = ([], [])) by (unfold drain; by rewrite extract_body).
  pose proof (run_from_drain responseStream [] H0) as H. rewrite app_nil_l in H.
  destruct (extract_suffix _ (text_of responseStream) 0%nat (Nat.le_refl _))
    as (p & Hp & Hnil).
  fold (drain (text_of responseStream)) in Hp, Hnil. rewrite <- H in Hp, Hnil.
  cbn [fst snd] in Hp, Hnil. by exists p.
Qed.

(** ** Objects with braces in their strings *)

Lemma drain_blocks blocks tail :
  Forall streamed blocks → brace_free tail →
  drain (blocks_text blocks ++ tail) = (map value blocks, tail).
Proof.
  intros Hb Htail. induction Hb as [|b bs (Hl & Ho & Hp) _ IH].
  - cbn. apply extract_idle. by apply idle_brace_free.
  - unfold blocks_text in *. cbn [map concat]. rewrite <- !app_assoc.
    unfold drain in *. rewrite (extract_one _ _ (value b)) by done.
    by rewrite IH.
Qed.

Lemma run_from_take k : ∀ chunks buffer,
  take k (fst (run_from buffer chunks)) = fst (run_from buffer (take k chunks)).
Proof.
  induction k as [|k IH]; intros chunks buffer; [by rewrite !take_0|].
  destruct chunks as [|c chunks]; [done|]. cbn [run_from take].
  destruct (feed buffer c) as [out b]. specialize (IH chunks b).
  destruct (run_from b chunks) as [outs final].
  destruct (run_from b (take k chunks)) as [outs' final'].
  cbn [fst take] in *. by rewrite IH.
Qed.

(** On a part of the text, cut anywhere, the loop yields the blocks that
    are complete in it. *)
Lemma drain_blocks_prefix blocks tail : ∀ n,
  Forall streamed blocks → brace_free tail →
  fst (drain (take n (blocks_text blocks ++ tail))) = closed_blocks blocks n.
Proof.
  intros n Hb Htail. revert n. induction Hb as [|b bs (Hl & Ho & Hp) _ IH]; intros n.
  - cbn. unfold drain. rewrite extract_idle; [done|].
    by apply idle_brace_free, brace_free_take.
  - unfold blocks_text in *. cbn [map concat closed_blocks]. rewrite <- app_assoc.
    destruct (decide (length (lead b ++ body b) ≤ n)%nat) as [Hle|Hgt].
    + rewrite take_app_ge by done. rewrite <- app_assoc.
      unfold drain in *. rewrite (extract_one _ _ (value b)) by done.
      specialize (IH (n - length (lead b ++ body b))%nat).
      destruct (extract _ _) as [out r]. cbn [fst] in *. by rewrite IH.
    + rewrite take_app_le by lia. unfold drain.
      rewrite extract_idle; [done|]. apply idle_cut; [done|done|lia].
Qed.

(** X24. Braces inside strings do no harm as long as they match. When
    the text of the stream is made of objects, each written in any way
    [JSON.parse] accepts, each running from its opening brace to the closing
    brace that matches it by count, with brace-free text before, between and
    after them, the generator yields the values of those objects, all of
    them and in order, however the text is cut into fragments, and is left
    with the text after the last object; and after any number [k] of
    fragments it has yielded exactly the objects whose closing brace lies in
    the text of the first [k] fragments. *)
Theorem parseJsonStream_matching_braces
    (blocks : list Block) (tail : jsstring) (responseStream : list chunk) :
  Forall streamed blocks → brace_free tail →
  text_of responseStream = blocks_text blocks ++ tail →
  concat (parseJsonStream responseStream) = map value blocks
  ∧ snd (run_from [] responseStream) = tail
  ∧ ∀ k, concat (take k (parseJsonStream responseStream))
         = closed_blocks blocks (length (text_of (take k responseStream))).
Proof.
  intros Hb Htail Htext.
  assert (H0 : drain [] = ([], [])) by (unfold drain; by rewrite extract_body).
  pose proof (run_from_drain responseStream [] H0) as H.
  rewrite app_nil_l, Htext, drain_blocks in H by done.
  unfold parseJsonStream. injection H as -> ->. split; [done|]. split; [done|].
  intros k. rewrite run_from_take.
  pose proof (run_from_drain (take k responseStream) [] H0) as Hk.
  rewrite app_nil_l in Hk. apply (f_equal fst) in Hk. cbn [fst] in Hk.
  rewrite Hk, <- (drain_blocks_prefix blocks tail) by done. do 2 f_equal.
  assert (Hsplit : text_of responseStream
                   = text_of (take k responseStream) ++ text_of (drop k responseStream))
    by (by rewrite <- text_of_app, take_drop).
  by rewrite <- Htext, Hsplit, take_app_length.
Qed.

(** ** The vault, the drawer and the handles *)

Lemma set_savedArtifacts_id st l :
  savedArtifacts st = l → set_savedArtifacts (fun _ => l) st = st.
Proof. intros <-. by destruct st. Qed.

Lemma filter_other_ids (i : jsstring) (l : list SavedArtifact.t) :
  i ∉ map SavedArtifact.id l → filter (fun s => SavedArtifact.id s ≠ i) l = l.
Proof.
  induction l as [|s l IH]; [done|]. cbn [map]. intros Hin.
  apply not_elem_of_cons in Hin as [Hne Hin].
  rewrite filter_cons_True by congruence. by rewrite IH.
Qed.

Lemma isSaved_focused st sess focused art :
  at_index (sessions st) (currentSessionIndex st) = Some sess →
  focusedArtifactIndex st = Some focused →
  Session.artifacts sess !! focused = Some art →
  isSaved st = bool_decide (Artifact.id art ∈ vault_ids st).
Proof.
  intros Hs Hf Ha. unfold isSaved. by rewrite Hs, Hf, Ha, existsb_vault.
Qed.

(** X5. Saving the focused artifact and then removing its id from the
    vault gives back the state before the save, when that id was not in the
    vault; in between the save button reads [Saved], afterwards it does
    not. *)
Theorem save_then_remove
    (now : Z) (st : State) (sess : Session.t) (focused : nat) (art : Artifact.t) :
  at_index (sessions st) (currentSessionIndex st) = Some sess →
  focusedArtifactIndex st = Some focused →
  Session.artifacts sess !! focused = Some art →
  Artifact.id art ∉ vault_ids st →
  ∃ st', handleSaveArtifact now st = Some st'
         ∧ isSaved st' = true
         ∧ handleRemoveFromVault (Artifact.id art) st' = st
         ∧ isSaved st = false.
Proof.
  intros Hs Hf Ha Hnew.
  rewrite (handleSaveArtifact_focused now st sess focused art Hs Hf Ha).
  rewrite bool_decide_false by done. eexists. split; [done|]. split; [|split].
  - rewrite (isSaved_focused _ sess focused art) by done.
    apply bool_decide_eq_true. unfold vault_ids. cbn.
    apply list_elem_of_here.
  - unfold handleRemoveFromVault. destruct st as [v ss ci fi sv fs iv il ds].
    unfold vault_ids, set_savedArtifacts in *. cbn -[filter] in *. f_equal.
    rewrite filter_cons_False by (cbn; by intros H; apply H).
    by apply filter_other_ids.
  - rewrite (isSaved_focused _ sess focused art) by done.
    by apply bool_decide_eq_false.
Qed.

(** X6. A second save does nothing: once [handleSaveArtifact] has run, on
    whatever state, running it again, at whatever time, leaves the state it
    gave; and when an artifact is focused the save button then reads
    [Saved]. *)
Theorem handleSaveArtifact_again (now now' : Z) (st st' : State) :
  handleSaveArtifact now st = Some st' →
  handleSaveArtifact now' st' = Some st'
  ∧ (∀ sess focused art,
       at_index (sessions st) (currentSessionIndex st) = Some sess →
       focusedArtifactIndex st = Some focused →
       Session.artifacts sess !! focused = Some art →
       isSaved st' = true).
Proof.
  intros Hsave.
  destruct (at_index (sessions st) (currentSessionIndex st)) as [sess|] eqn:Hs;
    [|unfold handleSaveArtifact in *; rewrite Hs in Hsave; injection Hsave as <-;
      rewrite Hs; by split].
  destruct (focusedArtifactIndex st) as [focused|] eqn:Hf;
    [|unfold handleSaveArtifact in *; rewrite Hs, Hf in Hsave; injection Hsave as <-;
      rewrite Hs, Hf; by split].
  destruct (Session.artifacts sess !! focused) as [art|] eqn:Ha;
    [|unfold handleSaveArtifact in Hsave; by rewrite Hs, Hf, Ha in Hsave].
  rewrite (handleSaveArtifact_focused now st sess focused art Hs Hf Ha) in Hsave.
  injection Hsave as <-.
  assert (Hin : Artifact.id art ∈ vault_ids
            (if bool_decide (Artifact.id art ∈ vault_ids st) then st
             else set_savedArtifacts
                    (cons (SavedArtifact.mk art (Session.prompt sess) now)) st)).
  { destruct (bool_decide _) eqn:E; [by apply bool_decide_eq_true in E|].
    unfold vault_ids. cbn. apply list_elem_of_here. }
  assert (Hs' : ∀ b : bool, at_index (sessions (if b then st else set_savedArtifacts
                    (cons (SavedArtifact.mk art (Session.prompt sess) now)) st))
                  (currentSessionIndex (if b then st else set_savedArtifacts
                    (cons (SavedArtifact.mk art (Session.prompt sess) now)) st))
                = Some sess) by (by intros []).
  assert (Hf' : ∀ b : bool, focusedArtifactIndex (if b then st else set_savedArtifacts
                    (cons (SavedArtifact.mk art (Session.prompt sess) now)) st)
                = Some focused) by (by intros []).
  split.
  - rewrite (handleSaveArtifact_focused now' _ sess focused art (Hs' _) (Hf' _) Ha).
    by rewrite bool_decide_true.
  - intros sess0 focused0 art0 [= <-] [= <-] Ha0. rewrite Ha in Ha0.
    injection Ha0 as <-.
    rewrite (isSaved_focused _ sess focused art (Hs' _) (Hf' _) Ha).
    by apply bool_decide_eq_true.
Qed.

(** X7. A removal takes entries out of the vault and does nothing else:
    the entries with another id stay, in their order; removing an id that
    is not in the vault changes nothing, so that removing twice is removing
    once; and two removals can be made in either order. *)
Theorem handleRemoveFromVault_only_removes (id id' : jsstring) (st : State) :
  vault_ids (handleRemoveFromVault id st)
  = filter (fun i => i ≠ id) (vault_ids st)
  ∧ (id ∉ vault_ids st → handleRemoveFromVault id st = st)
  ∧ handleRemoveFromVault id (handleRemoveFromVault id st)
    = handleRemoveFromVault id st
  ∧ handleRemoveFromVault id (handleRemoveFromVault id' st)
    = handleRemoveFromVault id' (handleRemoveFromVault id st)
  ∧ sessions (handleRemoveFromVault id st) = sessions st.
Proof.
  assert (Habs : ∀ i s, i ∉ vault_ids s → handleRemoveFromVault i s = s).
  { intros i s Hi. unfold handleRemoveFromVault, set_savedArtifacts.
    rewrite filter_other_ids by done. by destruct s. }
  split; [|split; [|split; [|split]]].
  - unfold vault_ids, handleRemoveFromVault. cbn [savedArtifacts set_savedArtifacts].
    induction (savedArtifacts st) as [|s l IH]; [done|].
    rewrite filter_cons. cbn [map]. rewrite filter_cons.
    destruct (decide (SavedArtifact.id s ≠ id)); cbn [map]; by rewrite IH.
  - apply Habs.
  - apply Habs. intros Hin. unfold vault_ids, handleRemoveFromVault in Hin.
    cbn [savedArtifacts set_savedArtifacts] in Hin.
    apply list_elem_of_fmap in Hin as (s & Hs & Hin).
    apply list_elem_of_filter in Hin as [Hne _]. done.
  - unfold handleRemoveFromVault, set_savedArtifacts.
    cbn [savedArtifacts view sessions currentSessionIndex focusedArtifactIndex
         isFullscreen inputValue isLoading drawerState].
    f_equal. induction (savedArtifacts st) as [|s l IH]; [done|].
    rewrite !filter_cons.
    destruct (decide (SavedArtifact.id s ≠ id')), (decide (SavedArtifact.id s ≠ id));
      rewrite ?filter_cons_True, ?filter_cons_False by done; by rewrite ?IH.
  - done.
Qed.

Lemma applyVariation_current h st sess focused art :
  at_index (sessions st) (currentSessionIndex st) = Some sess →
  focusedArtifactIndex st = Some focused →
  Session.artifacts sess !! focused = Some art →
  ∃ sess',
    at_index (sessions (applyVariation h st)) (currentSessionIndex (applyVariation h st))
    = Some sess'
    ∧ Session.prompt sess' = Session.prompt sess
    ∧ Session.artifacts sess' !! focused
      = Some (Artifact.mk (Artifact.id art) (Artifact.styleName art) h complete)
    ∧ focusedArtifactIndex (applyVariation h st) = Some focused
    ∧ savedArtifacts (applyVariation h st) = savedArtifacts st.
Proof.
  intros Hs Hf Ha. unfold applyVariation. rewrite Hf.
  cbn [sessions currentSessionIndex set_drawerState set_sessions focusedArtifactIndex
       savedArtifacts].
  pose proof Hs as Hs0. apply at_index_Some in Hs0 as [Hpos Hl].
  unfold at_index in *. destruct (_ <? 0)%Z; [done|].
  rewrite list_lookup_imap, Hl. cbn [fmap option_fmap option_map].
  replace (Z.of_nat (Z.to_nat (currentSessionIndex st)) =? currentSessionIndex st)%Z
    with true by (symmetry; apply Z.eqb_eq; lia).
  eexists. split; [done|]. split; [done|]. split; [|done].
  cbn [Session.artifacts Session.with_artifacts].
  rewrite list_lookup_imap, Ha. cbn. by rewrite Nat.eqb_refl.
Qed.

(** X8. Once a variation has been applied to the focused artifact, the
    source drawer shows the text of that variation and a save stores it:
    [handleShowCode] opens the drawer in [code] mode on exactly [h], and
    [handleSaveArtifact], the id of the artifact not being in the vault,
    puts in front of the vault the artifact with [html = h] and
    [status = complete], under the prompt of its session. *)
Theorem applyVariation_then_show_and_save
    (h : jsstring) (now : Z) (st : State) (sess : Session.t) (focused : nat)
    (art : Artifact.t) :
  at_index (sessions st) (currentSessionIndex st) = Some sess →
  focusedArtifactIndex st = Some focused →
  Session.artifacts sess !! focused = Some art →
  (∃ st', handleShowCode (applyVariation h st) = Some st'
          ∧ drawerState st'
            = {| isOpen := true; mode := Some code; title := js "Source Code";
                 data := Some h |}
          ∧ sessions st' = sessions (applyVariation h st))
  ∧ (Artifact.id art ∉ vault_ids st →
     ∃ st', handleSaveArtifact now (applyVariation h st) = Some st'
            ∧ savedArtifacts st'
              = SavedArtifact.mk
                  (Artifact.mk (Artifact.id art) (Artifact.styleName art) h complete)
                  (Session.prompt sess) now
                :: savedArtifacts st).
Proof.
  intros Hs Hf Ha.
  destruct (applyVariation_current h st sess focused art Hs Hf Ha)
    as (sess' & Hs' & Hp & Ha' & Hf' & Hv).
  split.
  - unfold handleShowCode. rewrite Hs', Hf', Ha'. by eexists.
  - intros Hnew.
    rewrite (handleSaveArtifact_focused now _ sess' focused _ Hs' Hf' Ha').
    rewrite bool_decide_false by (unfold vault_ids; by rewrite Hv).
    eexists. split; [done|]. cbn [savedArtifacts set_savedArtifacts].
    by rewrite Hv, Hp.
Qed.

Lemma well_shaped_sessions st st' :
  currentSessionIndex st' = currentSessionIndex st →
  map (fun s => length (Session.artifacts s)) (sessions st')
  = map (fun s => length (Session.artifacts s)) (sessions st) →
  well_shaped st → well_shaped st'.
Proof.
  intros Hi Hl [Hr Hb]. split.
  - unfold session_in_range in *. rewrite Hi.
    assert (Hlen : length (sessions st') = length (sessions st))
      by (apply (f_equal length) in Hl; by rewrite !length_map in Hl).
    rewrite Hlen. destruct Hr as [[Hnil Hm]|Hr]; [left|by right].
    split; [|done]. rewrite Hnil in Hlen. by apply nil_length_inv.
  - unfold batch_sized in *.
    apply (proj1 (List.Forall_map (fun s => length (Session.artifacts s))
                    (fun n => (n ≤ 3)%nat) (sessions st'))).
    rewrite Hl.
    by apply (proj2 (List.Forall_map (fun s => length (Session.artifacts s))
                       (fun n => (n ≤ 3)%nat) (sessions st))).
Qed.

Lemma well_shaped_append st newSession rest :
  (length (Session.artifacts newSession) ≤ 3)%nat →
  sessions rest = sessions st ++ [newSession] →
  currentSessionIndex rest = Z.of_nat (length (sessions st)) →
  batch_sized st → well_shaped rest.
Proof.
  intros Hn Hs Hi Hb. split.
  - right. rewrite Hi, Hs, length_app. cbn. lia.
  - unfold batch_sized. rewrite Hs. apply Forall_app. split; [done|].
    by apply Forall_singleton.
Qed.

(** X9. The shape of the history is kept by every handler: the current
    session index points at a session of the history, or is [-1] with an
    empty history, and no session has more than three artifacts. It holds at
    the first render and after [nextItem], [prevItem], a click on a card or
    on the grid button, [handleGoHome], [handleToggleFullscreen],
    [handleSendMessage], [handleRestoreFromVault], [applyVariation],
    [handleShowCode], [handleSaveArtifact], [handleRemoveFromVault] and the
    patches of a running batch. *)
Theorem well_shaped_kept (st : State) :
  well_shaped st →
  well_shaped (nextItem st)
  ∧ well_shaped (prevItem st)
  ∧ (∀ aIndex, well_shaped (focus aIndex st))
  ∧ well_shaped (unfocus st)
  ∧ well_shaped (handleGoHome st)
  ∧ well_shaped (handleToggleFullscreen st)
  ∧ (∀ manualPrompt sessionId baseTime,
       well_shaped (handleSendMessage_begin manualPrompt sessionId baseTime st))
  ∧ (∀ sessionId artifactId now saved,
       well_shaped (handleRestoreFromVault sessionId artifactId now saved st))
  ∧ (∀ html, well_shaped (applyVariation html st))
  ∧ (∀ st', handleShowCode st = Some st' → well_shaped st')
  ∧ (∀ now st', handleSaveArtifact now st = Some st' → well_shaped st')
  ∧ (∀ id, well_shaped (handleRemoveFromVault id st))
  ∧ (∀ sessionId styles, well_shaped (set_sessions (apply_styles sessionId styles) st))
  ∧ (∀ sessionId artifactId text,
       well_shaped (set_sessions (publish_html sessionId artifactId text) st)
       ∧ well_shaped (set_sessions (publish_final sessionId artifactId text) st)).
Proof.
  intros Hw. pose proof Hw as [Hr Hb].
  assert (Hsame : ∀ st', currentSessionIndex st' = currentSessionIndex st →
            sessions st' = sessions st → well_shaped st').
  { intros st' Hi Hs. apply (well_shaped_sessions st); [done| |done]. by rewrite Hs. }
  repeat lazymatch goal with |- _ ∧ _ => split end.
  - unfold nextItem. destruct (focusedArtifactIndex st) as [f|].
    + destruct (f <? 2)%nat; [by apply Hsame|done].
    + destruct (_ <? _)%Z eqn:E; [|done]. apply Z.ltb_lt in E. split; [|done].
      right. cbn. destruct Hr as [[Hnil Hm]|Hr]; [|lia].
      rewrite Hnil in E. cbn in E. lia.
  - unfold prevItem. destruct (focusedArtifactIndex st) as [f|].
    + destruct (0 <? f)%nat; [by apply Hsame|done].
    + destruct (0 <? _)%Z eqn:E; [|done]. apply Z.ltb_lt in E. split; [|done].
      right. cbn. destruct Hr as [[Hnil Hm]|Hr]; lia.
  - intros aIndex. by apply Hsame.
  - by apply Hsame.
  - split; [by left|apply Forall_nil_2].
  - by apply Hsame.
  - intros manualPrompt sessionId baseTime. unfold handleSendMessage_begin.
    destruct (trim _); [done|]. destruct (isLoading st); [done|].
    eapply well_shaped_append; [|done|done|done]. cbn. lia.
  - intros sessionId artifactId now saved.
    eapply (well_shaped_append st); [|done| |done]; cbn; [lia|].
    rewrite length_app. cbn. lia.
  - intros html. unfold applyVariation.
    destruct (focusedArtifactIndex st) as [f|]; [|done].
    apply (well_shaped_sessions st); [done| |done].
    cbn [sessions set_drawerState set_sessions].
    apply list_eq. intros i. rewrite !list_lookup_fmap, list_lookup_imap.
    destruct (sessions st !! i) as [s|]; [|done]. cbn.
    destruct (_ =? _)%Z; [|done]. cbn. by rewrite length_imap.
  - intros st'. unfold handleShowCode.
    destruct (at_index _ _) as [sess|]; [|by intros [= <-]].
    destruct (focusedArtifactIndex st) as [f|]; [|by intros [= <-]].
    destruct (_ !! f); [|done]. intros [= <-]. by apply Hsame.
  - intros now st'. unfold handleSaveArtifact.
    destruct (at_index _ _) as [sess|]; [|by intros [= <-]].
    destruct (focusedArtifactIndex st) as [f|]; [|by intros [= <-]].
    destruct (_ !! f); [|done]. destruct (existsb _ _); intros [= <-]; [done|].
    by apply Hsame.
  - intros id. by apply Hsame.
  - intros sessionId styles. apply (well_shaped_sessions st); [done| |done].
    cbn [sessions set_sessions]. unfold apply_styles. rewrite <- list_fmap_compose.
    apply list_fmap_ext. intros i s _. cbn.
    destruct (bool_decide _); [done|]. cbn. by rewrite length_imap.
  - intros sessionId artifactId text. split.
    all: apply (well_shaped_sessions st); [done| |done].
    all: cbn [sessions set_sessions]; unfold publish_html, publish_final.
    all: rewrite <- list_fmap_compose; apply list_fmap_ext; intros i s _; cbn.
    all: destruct (bool_decide _); [|done]; cbn; by rewrite length_map.
Qed.

(** X10. The two handles undo each other. In a well-shaped state, when the
    right-hand handle is rendered [nextItem] moves, the left-hand handle is
    rendered afterwards and [prevItem] comes back to the state left; and
    when the left-hand handle is rendered, with the focus inside the current
    session, [prevItem] moves, the right-hand handle is rendered afterwards
    and [nextItem] comes back. *)
Theorem nextItem_prevItem (st : State) :
  well_shaped st → focus_in_range st →
  (canGoForward st = true →
   nextItem st ≠ st ∧ canGoBack (nextItem st) = true
   ∧ prevItem (nextItem st) = st)
  ∧ (canGoBack st = true →
     prevItem st ≠ st ∧ canGoForward (prevItem st) = true
     ∧ nextItem (prevItem st) = st).
Proof.
  intros [Hr Hb] Hin. unfold canGoForward, canGoBack, nextItem, prevItem,
    focus_in_range, hasStarted, session_in_range, current_count in *.
  assert (Hcount : (from_option (fun s => length (Session.artifacts s)) 0
                      (at_index (sessions st) (currentSessionIndex st)) ≤ 3)%nat).
  { unfold at_index. destruct (_ <? 0)%Z; [cbn; lia|].
    destruct (sessions st !! _) as [s|] eqn:Hs; [|cbn; lia].
    apply (Forall_lookup_1 _ _ _ _ Hb Hs). }
  destruct st as [v ss ci fi sv fs iv il ds]. cbn -[Nat.ltb Z.ltb] in *.
  destruct ((0 <? length ss)%nat || il) eqn:Hst; [|by split].
  destruct v; [|by split..]. destruct fs; [by split|]. cbn -[Nat.ltb Z.ltb].
  unfold set_focusedArtifactIndex, set_currentSessionIndex.
  destruct fi as [f|].
  - set (n := from_option _ _ _) in *. split; intros Hgo.
    + apply Z.ltb_lt in Hgo.
      replace (f <? 2)%nat with true by (symmetry; apply Nat.ltb_lt; lia).
      cbn -[Nat.ltb Z.ltb]. rewrite Hst. cbn -[Nat.ltb Z.ltb].
      replace (0 <? f + 1)%nat with true by (symmetry; apply Nat.ltb_lt; lia).
      split; [intros [= H]; lia|]. split; [done|].
      cbn. do 2 f_equal. lia.
    + apply Nat.ltb_lt in Hgo.
      replace (0 <? f)%nat with true by (symmetry; apply Nat.ltb_lt; lia).
      cbn -[Nat.ltb Z.ltb]. rewrite Hst. cbn -[Nat.ltb Z.ltb]. fold n.
      replace (f - 1 <? 2)%nat with true by (symmetry; apply Nat.ltb_lt; lia).
      split; [intros [= H]; lia|].
      split; [apply Z.ltb_lt; lia|]. cbn. do 2 f_equal. lia.
  - split; intros Hgo.
    + rewrite Hgo. apply Z.ltb_lt in Hgo. cbn -[Nat.ltb Z.ltb]. rewrite Hst. cbn -[Nat.ltb Z.ltb].
      assert (0 ≤ ci)%Z by (destruct Hr as [[-> ->]|Hr]; [cbn in Hgo|]; lia).
      replace (0 <? ci + 1)%Z with true by (symmetry; apply Z.ltb_lt; lia).
      split; [intros [= H']; lia|]. split; [done|].
      cbn. f_equal. lia.
    + rewrite Hgo. apply Z.ltb_lt in Hgo. cbn -[Nat.ltb Z.ltb]. rewrite Hst. cbn -[Nat.ltb Z.ltb].
      assert (ci < Z.of_nat (length ss))%Z by (destruct Hr as [[-> ->]|Hr]; lia).
      replace (ci - 1 <? Z.of_nat (length ss) - 1)%Z with true
        by (symmetry; apply Z.ltb_lt; lia).
      split; [intros [= H']; lia|]. split; [done|].
      cbn. f_equal. lia.
Qed.

Lemma trimStart_nil s : trimStart s = [] ↔ all_ws s.
Proof.
  unfold all_ws. induction s as [|c s IH]; [done|]. simpl.
  destruct (is_white_space c); [done|]. split; [done|]. by intros [? _]%andb_true_iff.
Qed.

Lemma trim_nil s : trim s = [] ↔ all_ws s.
Proof.
  unfold trim. split.
  - intros H. destruct (trimEnd_split (trimStart s)) as (w & Hw & Hs).
    rewrite H in Hs. cbn in Hs. apply trimStart_nil.
    destruct (trimStart s) as [|c r] eqn:E; [done|].
    pose proof (trimStart_start_trimmed s) as Hst. rewrite E in Hst.
    unfold start_trimmed in Hst. cbn in Hst.
    rewrite <- Hs in Hw. unfold all_ws in Hw. cbn in Hw.
    apply andb_true_iff in Hw as [Hc _]. congruence.
  - intros H. apply trimStart_nil in H. by rewrite H.
Qed.

(** X11. The text that [handleSendMessage] sends is the prompt handed in
    or, failing one, the input value. When that text is empty or white
    space only, or while a batch is loading, nothing changes. Otherwise the
    history gets one more session, which becomes the current one: it carries
    the trimmed text, the time and the id just drawn, and three empty
    [streaming] placeholders whose ids differ; the focus is cleared, the
    view is [main], the loading flag is set, the vault is not touched, and
    the input is cleared exactly when it was the text sent. *)
Theorem handleSendMessage_begin_spec
    (manualPrompt : option jsstring) (sessionId : jsstring) (baseTime : Z) (st : State) :
  let promptToUse :=
    match manualPrompt with
    | Some (c :: p) => c :: p
    | _ => inputValue st
    end in
  let st' := handleSendMessage_begin manualPrompt sessionId baseTime st in
  let newSession :=
    Session.mk sessionId (trim promptToUse) baseTime (placeholderArtifacts sessionId) in
  (all_ws promptToUse ∨ isLoading st = true → st' = st)
  ∧ (¬ all_ws promptToUse → isLoading st = false →
     sessions st' = sessions st ++ [newSession]
     ∧ at_index (sessions st') (currentSessionIndex st') = Some newSession
     ∧ focusedArtifactIndex st' = None
     ∧ view st' = main ∧ isLoading st' = true
     ∧ savedArtifacts st' = savedArtifacts st
     ∧ inputValue st' = match manualPrompt with
                        | Some (_ :: _) => inputValue st
                        | _ => []
                        end)
  ∧ NoDup (map Artifact.id (placeholderArtifacts sessionId))
  ∧ Forall (fun art => Artifact.html art = [] ∧ Artifact.status art = streaming)
      (placeholderArtifacts sessionId).
Proof.
  intros promptToUse st' newSession.
  split; [|split; [|split]].
  - intros H. unfold st', handleSendMessage_begin. fold promptToUse.
    destruct (trim promptToUse) as [|c r] eqn:E; [done|].
    destruct H as [H|H]; [|by rewrite H].
    apply trim_nil in H. congruence.
  - intros Hws Hl. unfold st', handleSendMessage_begin. fold promptToUse.
    destruct (trim promptToUse) as [|c r] eqn:E; [by apply trim_nil in E|].
    rewrite Hl. cbn [sessions currentSessionIndex focusedArtifactIndex view isLoading
                     savedArtifacts inputValue].
    fold newSession. split; [done|]. split.
    { pose proof (at_index_last (sessions st) newSession) as H.
      rewrite length_app in H. cbn [length] in H.
      by replace (Z.of_nat (length (sessions st) + 1) - 1)%Z
        with (Z.of_nat (length (sessions st))) in H by lia. }
    by do 4 (split; [done|]).
  - apply placeholder_ids_NoDup.
  - repeat constructor.
Qed.

(** ** What [finalize] keeps of the text *)

Lemma occurs_in_refl s : occurs_in s s.
Proof. exists [], []. by rewrite app_nil_r. Qed.

Lemma occurs_in_trans a b c : occurs_in a b → occurs_in b c → occurs_in a c.
Proof.
  intros (p & q & ->) (p' & q' & ->). exists (p' ++ p), (q ++ q').
  by rewrite <- !app_assoc.
Qed.

Lemma occurs_in_trimStart s : occurs_in (trimStart s) s.
Proof.
  destruct (trimStart_split s) as (w & _ & Hs). exists w, [].
  by rewrite app_nil_r.
Qed.

Lemma occurs_in_trimEnd s : occurs_in (trimEnd s) s.
Proof. destruct (trimEnd_split s) as (w & _ & Hs). by exists [], w. Qed.

Lemma occurs_in_drop k s : occurs_in (drop k s) s.
Proof. exists (take k s), []. by rewrite app_nil_r, take_drop. Qed.

Lemma occurs_in_take k s : occurs_in (take k s) s.
Proof. exists [], (drop k s). cbn. by rewrite take_drop. Qed.

Lemma end_trimmed_nil : end_trimmed [].
Proof. done. Qed.

Lemma start_trimmed_take k s : start_trimmed s → start_trimmed (take k s).
Proof.
  intros H. rewrite <- (take_drop k s) in H. by apply start_trimmed_prefix in H.
Qed.

(** X12. The text [finalize] gives is a run of consecutive code units of the
    accumulated text, so that nothing is added or reordered and it is no
    longer than the text received; and it neither begins nor ends with
    white space. *)
Theorem finalize_cuts (accumulatedHtml : jsstring) :
  occurs_in (finalize accumulatedHtml) accumulatedHtml
  ∧ (length (finalize accumulatedHtml) ≤ length accumulatedHtml)%nat
  ∧ start_trimmed (finalize accumulatedHtml)
  ∧ end_trimmed (finalize accumulatedHtml).
Proof.
  assert (H : occurs_in (finalize accumulatedHtml) accumulatedHtml
              ∧ start_trimmed (finalize accumulatedHtml)
              ∧ end_trimmed (finalize accumulatedHtml)).
  { unfold finalize. cbv zeta.
    set (t0 := trim accumulatedHtml).
    assert (H0 : occurs_in t0 accumulatedHtml ∧ start_trimmed t0 ∧ end_trimmed t0).
    { split; [|split].
      - unfold t0, trim. eapply occurs_in_trans;
          [apply occurs_in_trimEnd|apply occurs_in_trimStart].
      - apply trim_start_trimmed.
      - apply trim_end_trimmed. }
    revert H0. generalize t0. clear t0. intros t0 (Ho0 & Hs0 & He0).
    set (t1 := if startsWith fence_html t0 then trimStart (drop 7 t0) else t0).
    assert (H1 : occurs_in t1 accumulatedHtml ∧ start_trimmed t1 ∧ end_trimmed t1).
    { unfold t1. destruct (startsWith fence_html t0); [|done]. split; [|split].
      - eapply occurs_in_trans; [apply occurs_in_trimStart|].
        eapply occurs_in_trans; [apply occurs_in_drop|done].
      - apply trimStart_start_trimmed.
      - by apply end_trimmed_trimStart, end_trimmed_drop. }
    revert H1. generalize t1. clear t1. intros t1 (Ho1 & Hs1 & He1).
    set (t2 := if startsWith fence t1 then trimStart (drop 3 t1) else t1).
    assert (H2 : occurs_in t2 accumulatedHtml ∧ start_trimmed t2 ∧ end_trimmed t2).
    { unfold t2. destruct (startsWith fence t1); [|done]. split; [|split].
      - eapply occurs_in_trans; [apply occurs_in_trimStart|].
        eapply occurs_in_trans; [apply occurs_in_drop|done].
      - apply trimStart_start_trimmed.
      - by apply end_trimmed_trimStart, end_trimmed_drop. }
    revert H2. generalize t2. clear t2. intros t2 (Ho2 & Hs2 & He2).
    destruct (endsWith fence t2); [|done]. split; [|split].
    - eapply occurs_in_trans; [apply occurs_in_trimEnd|].
      unfold substring. rewrite drop_0, Nat.sub_0_r.
      eapply occurs_in_trans; [apply occurs_in_take|done].
    - apply start_trimmed_trimEnd. unfold substring. rewrite drop_0.
      by apply start_trimmed_take.
    - apply trimEnd_end_trimmed. }
  destruct H as ((before & after & Ht) & Hs & He).
  split; [by exists before, after|]. split; [|done].
  rewrite Ht at 2. rewrite !length_app. lia.
Qed.

(** ** Patches of one artifact and of two *)

Lemma publish_html_patch sessionId artifactId h prev :
  publish_html sessionId artifactId h prev
  = patch sessionId artifactId (Artifact.with_html h) prev.
Proof. done. Qed.

Lemma publish_final_patch sessionId artifactId h prev :
  publish_final sessionId artifactId h prev
  = patch sessionId artifactId (Artifact.with_html_status h (final_status h)) prev.
Proof. done. Qed.

Lemma patch_patch sessionId a f g prev :
  (∀ art, Artifact.id (g art) = Artifact.id art) →
  patch sessionId a f (patch sessionId a g prev)
  = patch sessionId a (fun art => f (g art)) prev.
Proof.
  intros Hg. unfold patch. rewrite map_map. apply map_ext. intros sess.
  destruct (bool_decide (Session.id sess = sessionId)) eqn:Hs;
    cbn [Session.id Session.with_artifacts]; rewrite Hs; [|done].
  unfold Session.with_artifacts. cbn. f_equal. rewrite map_map.
  apply map_ext. intros art.
  destruct (bool_decide (Artifact.id art = a)) eqn:Ha; [|by rewrite Ha].
  by rewrite Hg, Ha.
Qed.

Lemma patch_comm sessionId a1 a2 f g prev :
  a1 ≠ a2 →
  (∀ art, Artifact.id (f art) = Artifact.id art) →
  (∀ art, Artifact.id (g art) = Artifact.id art) →
  patch sessionId a1 f (patch sessionId a2 g prev)
  = patch sessionId a2 g (patch sessionId a1 f prev).
Proof.
  intros Hne Hf Hg. unfold patch. rewrite !map_map. apply map_ext. intros sess.
  destruct (bool_decide (Session.id sess = sessionId)) eqn:Hs;
    cbn [Session.id Session.with_artifacts]; rewrite Hs; [|done].
  unfold Session.with_artifacts. cbn. f_equal. rewrite !map_map.
  apply map_ext. intros art.
  destruct (bool_decide (Artifact.id art = a1)) eqn:H1;
    destruct (bool_decide (Artifact.id art = a2)) eqn:H2;
    rewrite ?Hf, ?Hg, ?H1, ?H2; try done.
  apply bool_decide_eq_true in H1, H2. congruence.
Qed.

(** X13. Of the patches one generator makes, the last one counts: an
    increment replaces the increment before it, and the final publish
    replaces the increments, so that the history after them is the history
    the last patch alone would give. *)
Theorem publish_overwrites
    (sessionId artifactId h1 h2 : jsstring) (prev : list Session.t) :
  publish_html sessionId artifactId h2 (publish_html sessionId artifactId h1 prev)
  = publish_html sessionId artifactId h2 prev
  ∧ publish_final sessionId artifactId h2 (publish_html sessionId artifactId h1 prev)
    = publish_final sessionId artifactId h2 prev.
Proof.
  rewrite !publish_html_patch, !publish_final_patch, !patch_patch by done.
  done.
Qed.

(** X14. The final publish of one generator and any patch of another
    generator, addressed to artifacts with different ids, give the same
    history in either order. *)
Theorem publish_final_isolated
    (sessionId a1 h1 a2 h2 : jsstring) (prev : list Session.t) :
  a1 ≠ a2 →
  publish_final sessionId a1 h1 (publish_html sessionId a2 h2 prev)
  = publish_html sessionId a2 h2 (publish_final sessionId a1 h1 prev)
  ∧ publish_final sessionId a1 h1 (publish_final sessionId a2 h2 prev)
    = publish_final sessionId a2 h2 (publish_final sessionId a1 h1 prev).
Proof.
  intros Hne. rewrite !publish_html_patch, !publish_final_patch.
  split; by apply patch_comm.
Qed.

(** ** The batch and the rest of the history *)

Lemma patch_length sessionId a f prev :
  length (patch sessionId a f prev) = length prev.
Proof. unfold patch. by rewrite length_map. Qed.

Lemma patch_take sessionId a f prev n :
  take n (patch sessionId a f prev) = patch sessionId a f (take n prev).
Proof. unfold patch. symmetry. apply fmap_take. Qed.

Lemma patch_orphan sessionId a f prev :
  Forall (fun sess => Session.id sess ≠ sessionId) prev →
  patch sessionId a f prev = prev.
Proof.
  intros H. unfold patch. rewrite <- (map_id prev) at 2. apply map_ext_Forall.
  eapply Forall_impl; [exact H|]. intros s Hs. by rewrite bool_decide_false.
Qed.

Lemma generator_turn_older sessionId g h n older :
  Forall (fun sess => Session.id sess ≠ sessionId) older →
  take n h = older →
  take n (snd (generator_turn sessionId g h)) = older
  ∧ length (snd (generator_turn sessionId g h)) = length h.
Proof.
  intros Hold Hh. unfold generator_turn.
  destruct (incoming g) as [|[text|] rest]; cbn [snd]; [|split..]; try done.
  - destruct (will_break g); [done|]. rewrite publish_final_patch.
    by rewrite patch_take, patch_length, Hh, patch_orphan.
  - by rewrite publish_html_patch, patch_take, Hh, patch_orphan.
  - by rewrite publish_html_patch, patch_length.
Qed.

Lemma batch_run_older sessionId n older schedule : ∀ b b',
  Forall (fun sess => Session.id sess ≠ sessionId) older →
  take n (history b) = older →
  batch_run sessionId b schedule = Some b' →
  take n (history b') = older ∧ length (history b') = length (history b).
Proof.
  induction schedule as [|e rest IH]; intros b b' Hold Hh; cbn.
  - by intros [= <-].
  - destruct (batch_step sessionId b e) as [b1|] eqn:Hstep; [|done].
    intros Hrun.
    assert (H1 : take n (history b1) = older
                 ∧ length (history b1) = length (history b)).
    { destruct e as [k|]; cbn [batch_step] in Hstep.
      - destruct (generators b !! k) as [g|]; [|done].
        destruct (promise g); try done.
        pose proof (generator_turn_older sessionId g (history b) n older Hold Hh) as Ht.
        destruct (generator_turn sessionId g (history b)) as [g' h'].
        by injection Hstep as <-.
      - destruct (_ && _); [|done]. by injection Hstep as <-. }
    destruct H1 as [H1 H2]. destruct (IH b1 b' Hold H1 Hrun) as [H3 H4].
    split; [done|]. by rewrite H4.
Qed.

(** X15. A batch works on its own session only. The ids of the older
    sessions differing from the id just drawn, whatever the order of the
    turns and however far the batch has run, the history is the older
    sessions, as they were, followed by the session of the batch with its
    three artifacts. *)
Theorem batch_leaves_older_sessions
    (sessionId prompt : jsstring) (baseTime : Z) (styles : list json)
    (streams : nat → Stream) (prev : list Session.t)
    (schedule : list Event) (b : Batch) :
  Forall (fun sess => Session.id sess ≠ sessionId) prev →
  batch_run sessionId
    (start_batch sessionId prompt baseTime styles streams prev) schedule = Some b →
  ∃ arts,
    history b = prev ++ [Session.mk sessionId prompt baseTime arts]
    ∧ map Artifact.id arts = map Artifact.id (placeholderArtifacts sessionId).
Proof.
  intros Hprev Hrun.
  destruct (start_batch_inv sessionId prompt baseTime styles streams prev) as [Hnd Hinv0].
  set (b0 := start_batch sessionId prompt baseTime styles streams prev) in *.
  destruct (batch_run_inv _ _ _ _ _ _ _ _ Hnd Hinv0 Hrun) as (Hev & Hh & _).
  assert (H0 : take (length prev) (history b0) = prev ∧ length (history b0) = S (length prev)).
  { unfold b0, start_batch. cbn [history].
    rewrite apply_styles_new by done. rewrite take_app_length, length_app. cbn.
    split; [done|lia]. }
  destruct H0 as [H0 Hl0].
  destruct (batch_run_older sessionId _ prev schedule b0 b Hprev H0 Hrun) as [Hold Hlen].
  exists (map shown (generators b)). split.
  - rewrite <- (take_drop (length prev) (history b)), Hold. f_equal.
    apply list_eq. intros i. rewrite lookup_drop.
    destruct i as [|i].
    + by rewrite Nat.add_0_r, Hh.
    + cbn. apply lookup_ge_None. lia.
  - rewrite map_map. cbn [shown Artifact.id].
    change (map (fun x => Artifact.id (artifact x)) (generators b))
      with (map (fun g => Artifact.id (artifact g)) (generators b)).
    assert (Hids : map (fun g => Artifact.id (artifact g)) (generators b)
                   = map (fun g => Artifact.id (artifact g)) (generators b0)).
    { clear -Hev. induction Hev as [|g0 g l0 l (Ha & _) _ IH]; [done|].
      cbn. by rewrite Ha, IH. }
    rewrite Hids. unfold b0, start_batch. cbn [generators].
    apply list_eq. intros i. rewrite !list_lookup_fmap, list_lookup_imap.
    by destruct (placeholderArtifacts sessionId !! i).
Qed.

Lemma batch_step_not_rejected sessionId b e b' :
  Forall (fun g => promise g ≠ rejected) (generators b) →
  batch_step sessionId b e = Some b' →
  Forall (fun g => promise g ≠ rejected) (generators b').
Proof.
  intros Hnr. destruct e as [k|]; cbn [batch_step].
  - destruct (generators b !! k) as [g|] eqn:Hk; [|done].
    destruct (promise g); try done.
    assert (Hg : promise (fst (generator_turn sessionId g (history b))) ≠ rejected).
    { unfold generator_turn. by destruct (incoming g) as [|[text|] rest]. }
    destruct (generator_turn sessionId g (history b)) as [g' h']. intros [= <-].
    cbn [generators]. apply Forall_insert; done.
  - destruct (_ && _); [|done]. by intros [= <-].
Qed.

Lemma batch_run_on sessionId : ∀ n b,
  (events_left b ≤ n)%nat →
  Forall (fun g => promise g ≠ rejected) (generators b) →
  ∃ schedule b', batch_run sessionId b schedule = Some b' ∧ loading b' = false.
Proof.
  induction n as [|n IH]; intros b Hn Hnr.
  all: destruct (loading b) eqn:Hl; [|by exists [], b].
  { unfold events_left in Hn. rewrite Hl in Hn. lia. }
  destruct (batch_progress sessionId b Hnr Hl) as (e & b1 & Hstep).
  pose proof (batch_step_left _ _ _ _ Hstep) as Hlt.
  destruct (IH b1 ltac:(lia) (batch_step_not_rejected _ _ _ _ Hnr Hstep))
    as (schedule & b' & Hrun & Hdone).
  exists (e :: schedule), b'. cbn. by rewrite Hstep.
Qed.

(** X23. A batch cannot hang: however far it has run, in whatever order,
    the events that can still happen lead in finitely many steps to the
    state in which the loading flag is cleared. *)
Theorem batch_runs_to_its_end
    (sessionId prompt : jsstring) (baseTime : Z) (styles : list json)
    (streams : nat → Stream) (prev : list Session.t)
    (schedule : list Event) (b : Batch) :
  batch_run sessionId
    (start_batch sessionId prompt baseTime styles streams prev) schedule = Some b →
  ∃ rest b',
    batch_run sessionId
      (start_batch sessionId prompt baseTime styles streams prev) (schedule ++ rest)
    = Some b'
    ∧ loading b' = false.
Proof.
  intros Hrun.
  destruct (start_batch_inv sessionId prompt baseTime styles streams prev) as [Hnd Hinv0].
  destruct (batch_run_inv _ _ _ _ _ _ _ _ Hnd Hinv0 Hrun) as (Hev & _ & _).
  assert (Hnr : Forall (fun g => promise g ≠ rejected) (generators b)).
  { eapply Forall2_Forall_r; [exact Hev|]. apply Forall_true.
    intros g0 g (_ & _ & _ & _ & Hr & _). done. }
  destruct (batch_run_on sessionId _ b (Nat.le_refl _) Hnr) as (rest & b' & Hrest & Hdone).
  exists rest, b'. split; [|done].
  clear -Hrun Hrest. revert Hrun. generalize (start_batch sessionId prompt baseTime
    styles streams prev). induction schedule as [|e s IH]; intros b0; cbn.
  - by intros [= ->].
  - destruct (batch_step sessionId b0 e); [apply IH|done].
Qed.

(** ** The overlay of a card after a batch *)

Lemma final_status_settled finalHtml : final_status finalHtml ≠ streaming.
Proof. by destruct finalHtml. Qed.

(** X25. When a batch is over, the cards that still show the overlay are
    those of the generators whose stream broke, and no others: whatever the
    order of the turns, once the loading flag is cleared the card of the
    artifact at position [k] is blurred exactly when the stream of generator
    [k] broke. *)
Theorem overlay_marks_broken_streams
    (sessionId prompt : jsstring) (baseTime : Z) (styles : list json)
    (streams : nat → Stream) (prev : list Session.t)
    (schedule : list Event) (b : Batch) :
  batch_run sessionId
    (start_batch sessionId prompt baseTime styles streams prev) schedule = Some b →
  loading b = false →
  ∃ arts,
    history b !! length prev = Some (Session.mk sessionId prompt baseTime arts)
    ∧ length arts = 3%nat
    ∧ ∀ k art, arts !! k = Some art → isBlurring art = breaks (streams k).
Proof.
  intros Hrun Hdone.
  destruct (start_batch_inv sessionId prompt baseTime styles streams prev) as [Hnd Hinv0].
  destruct (batch_run_inv _ _ _ _ _ _ _ _ Hnd Hinv0 Hrun) as (Hev & Hh & Hl).
  exists (map shown (generators b)). split; [done|]. split.
  { rewrite length_map, <- (Forall2_length _ _ _ Hev). done. }
  intros k art Hart. rewrite list_lookup_fmap in Hart.
  destruct (generators b !! k) as [g|] eqn:Hg; [|done]. injection Hart as <-.
  destruct (Forall2_lookup_r _ _ _ _ _ Hev Hg) as (g0 & Hg0 & _ & _ & Hb & _).
  cbn [start_batch generators] in Hg0.
  apply list_lookup_imap_Some in Hg0 as (p & _ & ->).
  cbn [start_generator will_break] in Hb.
  pose proof (Forall_lookup_1 _ _ _ _ (Hl Hdone) Hg) as Hful. cbn beta in Hful.
  unfold isBlurring, shown, completed. cbn [Artifact.status].
  rewrite Hful, Hb. destruct (breaks (streams k)); [done|]. cbn.
  pose proof (final_status_settled (finalize (accumulatedHtml g))) as Hs.
  by destruct (final_status _).
Qed.

(** ** The vault in [localStorage] *)












(** ** The variations *)

Lemma collect_objects number_truthy vs :
  Forall (fun v => is_object v = true) vs →
  collect number_truthy vs = List.filter (wanted number_truthy) vs.
Proof.
  induction vs as [|v vs IH]; [done|]. intros [Hv Hvs]%Forall_cons.
  destruct v; try done. cbn [collect List.filter]. by rewrite IH.
Qed.

Lemma filter_sublist {A} (f : A → bool) (l : list A) : sublist (List.filter f l) l.
Proof.
  induction l as [|x l IH]; [done|]. cbn. destruct (f x).
  - by apply sublist_skip.
  - by apply sublist_cons.
Qed.

(** X17. With an artifact focused, [handleGenerateVariations] always comes
    to its end, whatever the request does: the loading flag is cleared, the
    drawer is open on the variations of that artifact, the history, the
    focus and the vault are as they were, and the list shown holds, in the
    order of the stream, those of the values yielded that have a truthy
    [name] and a truthy [html], and nothing else; it is empty when the
    request fails. Without a current session or a focused index nothing
    changes. With a focused index outside the current session the handler
    stops on the missing artifact: the list is empty and the loading flag
    stays set. *)
Theorem handleGenerateVariations_settles
    (number_truthy : jsstring → bool) (request : option Stream)
    (st : State) (componentVariations : list json) :
  let '(st', listed) :=
    handleGenerateVariations number_truthy request st componentVariations in
  (at_index (sessions st) (currentSessionIndex st) = None
   ∨ focusedArtifactIndex st = None →
   st' = st ∧ listed = componentVariations)
  ∧ (∀ sess focused art,
       at_index (sessions st) (currentSessionIndex st) = Some sess →
       focusedArtifactIndex st = Some focused →
       Session.artifacts sess !! focused = Some art →
       isLoading st' = false
       ∧ drawerState st'
         = {| isOpen := true; mode := Some variations; title := js "Variations";
              data := Some (Artifact.id art) |}
       ∧ sessions st' = sessions st
       ∧ currentSessionIndex st' = currentSessionIndex st
       ∧ focusedArtifactIndex st' = focusedArtifactIndex st
       ∧ savedArtifacts st' = savedArtifacts st
       ∧ listed
         = match request with
           | None => []
           | Some responseStream =>
               List.filter (wanted number_truthy)
                 (concat (parseJsonStream (delivered responseStream)))
           end)
  ∧ (∀ sess focused,
       at_index (sessions st) (currentSessionIndex st) = Some sess →
       focusedArtifactIndex st = Some focused →
       Session.artifacts sess !! focused = None →
       isLoading st' = true ∧ listed = []
       ∧ drawerState st' = drawerState st ∧ sessions st' = sessions st).
Proof.
  unfold handleGenerateVariations.
  destruct (at_index (sessions st) (currentSessionIndex st)) as [sess|] eqn:Hs;
    [|split; [done|split; by intros]].
  destruct (focusedArtifactIndex st) as [focused|] eqn:Hf;
    [|split; [done|split; by intros]].
  destruct (Session.artifacts sess !! focused) as [art|] eqn:Ha.
  - split; [by intros [|]|]. split.
    + intros sess0 focused0 art0 [= <-] [= <-] Ha0. rewrite Ha in Ha0.
      injection Ha0 as <-. do 6 (split; [done|]).
      destruct request as [responseStream|]; [|done].
      apply collect_objects, run_from_objects.
    + intros sess0 focused0 [= <-] [= <-] Ha0. by rewrite Ha in Ha0.
  - split; [by intros [|]|]. split.
    + intros sess0 focused0 art0 [= <-] [= <-] Ha0. by rewrite Ha in Ha0.
    + by intros.
Qed.

(** X18. The variations of a response are all shown, markup with style
    sheets and scripts included: when the stream carries, cut into fragments
    anywhere, objects written in any way [JSON.parse] accepts, each running
    from its opening brace to the closing brace that matches it by count,
    the list shown is made of those of them that have a truthy [name] and a
    truthy [html], in their order, whether the stream then ends or
    breaks. *)
Theorem handleGenerateVariations_lists
    (number_truthy : jsstring → bool) (blocks : list Block)
    (tail : jsstring) (responseStream : Stream)
    (st : State) (componentVariations : list json)
    (sess : Session.t) (focused : nat) (art : Artifact.t) :
  at_index (sessions st) (currentSessionIndex st) = Some sess →
  focusedArtifactIndex st = Some focused →
  Session.artifacts sess !! focused = Some art →
  Forall streamed blocks → brace_free tail →
  text_of (delivered responseStream) = blocks_text blocks ++ tail →
  snd (handleGenerateVariations number_truthy (Some responseStream) st
         componentVariations)
  = List.filter (wanted number_truthy) (map value blocks).
Proof.
  intros Hs Hf Ha Hb Htail Htext. unfold handleGenerateVariations.
  rewrite Hs, Hf, Ha. cbn [snd]. unfold parseJsonStream.
  rewrite collect_objects by apply run_from_objects.
  assert (H0 : drain [] = ([], [])) by (unfold drain; by rewrite extract_body).
  pose proof (run_from_drain (delivered responseStream) [] H0) as H.
  rewrite app_nil_l, Htext, drain_blocks in H by done.
  injection H as Hy _. by rewrite Hy.
Qed.

(** ** The placeholders *)

(** X19. The placeholder shown always exists. Fetching placeholders keeps
    the list that was there, in front, and adds at most ten entries,
    whatever the response and the order the sort leaves; and on a list that
    is not empty the tick of the
    interval moves the index to the next position, back to 0 after the
    last, so that an index inside the list stays inside it through ticks
    and fetches. *)
Theorem placeholders_in_range
    (response : option (option jsstring)) (sorted : list json → list json)
    (placeholders : list json) (placeholderIndex : nat) :
  (placeholderIndex < length placeholders)%nat →
  let fetched := fetchDynamicPlaceholders response sorted placeholders in
  (∃ added, fetched = placeholders ++ added ∧ (length added ≤ 10)%nat)
  ∧ fetched !! placeholderIndex = placeholders !! placeholderIndex
  ∧ ∃ i, next_placeholder placeholders (Some placeholderIndex) = Some i
         ∧ (i < length placeholders)%nat
         ∧ i = (if (placeholderIndex + 1 <? length placeholders)%nat
                then (placeholderIndex + 1)%nat else 0%nat).
Proof.
  intros Hi fetched.
  assert (Hadd : ∃ added, fetched = placeholders ++ added ∧ (length added ≤ 10)%nat).
  { unfold fetched, fetchDynamicPlaceholders.
    assert (Hnone : ∃ added, placeholders = placeholders ++ added
                             ∧ (length added ≤ 10)%nat)
      by (exists []; rewrite app_nil_r; split; [done|cbn; lia]).
    destruct response as [responseText|]; [|done].
    destruct (match_brackets _) as [jsonMatch|]; [|done].
    destruct (JSON.parse jsonMatch) as [[]|]; try done.
    destruct (0 <? _)%nat; [|done].
    eexists. split; [done|]. rewrite length_take. lia. }
  split; [done|]. split.
  - destruct Hadd as (added & -> & _). by rewrite lookup_app_l.
  - unfold next_placeholder. destruct placeholders as [|p ps]; [cbn in Hi; lia|].
    eexists. split; [done|].
    set (n := length (p :: ps)) in *.
    assert (n ≠ 0)%nat by (unfold n; cbn; lia).
    split; [by apply Nat.mod_upper_bound|].
    destruct (placeholderIndex + 1 <? n)%nat eqn:E.
    + apply Nat.ltb_lt in E. by apply Nat.mod_small.
    + apply Nat.ltb_ge in E. replace (placeholderIndex + 1)%nat with n by lia.
      by apply Nat.Div0.mod_same.
Qed.

(** ** Statuses and focus through the handlers *)

Lemma Forall2_map_r_same {A} (R : A → A → Prop) (f : A → A) (l : list A) :
  (∀ x, R x (f x)) → Forall2 R l (map f l).
Proof. intros H. induction l; cbn; by constructor. Qed.

Lemma Forall2_imap_r_same {A} (R : A → A → Prop) (f : nat → A → A) (l : list A) :
  (∀ i x, R x (f i x)) → Forall2 R l (imap f l).
Proof.
  intros H. revert f H. induction l as [|x l IH]; intros f H; cbn; constructor.
  - apply H.
  - apply IH. intros i y. apply H.
Qed.

Lemma statuses_advance_refl_art (arts : list Artifact.t) :
  Forall2 (fun a a' => Artifact.status a ≠ streaming → Artifact.status a' ≠ streaming)
    arts arts.
Proof. by apply Forall_Forall2_diag, Forall_true. Qed.

(** X20. No patch takes an artifact back to [streaming]: through an
    increment, a final publish, the writing of the labels and the applying
    of a variation, every session keeps its artifacts at their positions,
    and an artifact whose status was [complete] or [error] does not become
    [streaming]. *)
Theorem statuses_never_go_back (prev : list Session.t) :
  (∀ sessionId artifactId text,
     statuses_advance prev (publish_html sessionId artifactId text prev)
     ∧ statuses_advance prev (publish_final sessionId artifactId text prev))
  ∧ (∀ sessionId styles, statuses_advance prev (apply_styles sessionId styles prev))
  ∧ (∀ html st, sessions st = prev →
       statuses_advance prev (sessions (applyVariation html st))).
Proof.
  split; [|split].
  - intros sessionId artifactId text. split.
    + apply Forall2_map_r_same. intros s. destruct (bool_decide _);
        [|apply statuses_advance_refl_art].
      cbn. apply Forall2_map_r_same. intros a. by destruct (bool_decide _).
    + apply Forall2_map_r_same. intros s. destruct (bool_decide _);
        [|apply statuses_advance_refl_art].
      cbn. apply Forall2_map_r_same. intros a. destruct (bool_decide _); [|done].
      cbn. intros _. by destruct text.
  - intros sessionId styles. apply Forall2_map_r_same. intros s.
    destruct (bool_decide _); [apply statuses_advance_refl_art|].
    cbn. by apply Forall2_imap_r_same.
  - intros html st <-. unfold applyVariation.
    destruct (focusedArtifactIndex st) as [f|].
    + cbn [sessions set_drawerState set_sessions].
      apply Forall2_imap_r_same. intros i s. destruct (_ =? _)%Z;
        [|apply statuses_advance_refl_art].
      cbn. apply Forall2_imap_r_same. intros j a. by destruct (j =? f)%nat.
    + apply Forall_Forall2_diag, Forall_true. intros s.
      apply statuses_advance_refl_art.
Qed.




(** X22. With the focus inside the current session no handler fails on a
    missing artifact: [handleShowCode] and [handleSaveArtifact] return, and
    [handleGenerateVariations], when an artifact is focused, ends with the
    loading flag cleared. *)
Theorem focused_handlers_return
    (number_truthy : jsstring → bool) (request : option Stream) (now : Z)
    (st : State) (componentVariations : list json) :
  focus_in_range st →
  is_Some (handleShowCode st)
  ∧ is_Some (handleSaveArtifact now st)
  ∧ (is_Some (focusedArtifactIndex st) →
     isLoading (fst (handleGenerateVariations number_truthy request st
                       componentVariations)) = false).
Proof.
  unfold focus_in_range, current_count, handleShowCode, handleSaveArtifact,
    handleGenerateVariations.
  destruct (focusedArtifactIndex st) as [f|].
  - destruct (at_index _ _) as [sess|]; [|cbn; lia]. cbn [from_option].
    intros Hlt. destruct (lookup_lt_is_Some_2 _ _ Hlt) as [art Ha]. rewrite Ha.
    split; [by eexists|]. split; [destruct (existsb _ _); by eexists|done].
  - intros _. destruct (at_index _ _).
    all: split; [by eexists|]; split; [by eexists|]; by intros [? ?].
Qed.

(** ** The theorems at sample inputs *)

Lemma publish_html_isolated_witness :
  js "s1_0" ≠ js "s1_1"
  ∧ publish_html (js "s1") (js "s1_0") (js "<p>x") (publish_html (js "s1") (js "s1_1") (js "<p>y") [sample_session])
    = publish_html (js "s1") (js "s1_1") (js "<p>y") (publish_html (js "s1") (js "s1_0") (js "<p>x") [sample_session]).
Proof.
  assert (H : js "s1_0" ≠ js "s1_1") by (vm_compute; discriminate).
  split; [exact H|].
  exact (proj1 (publish_html_isolated (js "s1") (js "s1_0") (js "<p>x")
                  (js "s1_1") (js "<p>y") [sample_session] H)).
Defined.

Lemma orphan_update_dropped_witness :
  Forall (fun sess => Session.id sess ≠ js "gone") (sessions sample_state)
  ∧ set_sessions (publish_html (js "gone") (js "gone_0") (js "<p>late")) sample_state
    = sample_state.
Proof.
  assert (H : Forall (fun sess => Session.id sess ≠ js "gone") (sessions sample_state))
    by (repeat constructor; vm_compute; discriminate).
  split; [exact H|].
  exact (proj1 (orphan_update_dropped (js "gone") (js "gone_0") (js "<p>late")
                  sample_state H)).
Defined.

Lemma applyVariation_focused_witness :
  at_index (sessions sample_state) (currentSessionIndex sample_state) = Some sample_session
  ∧ focusedArtifactIndex sample_state = Some 1%nat
  ∧ Session.artifacts sample_session !! 1%nat
    = Some (Artifact.mk (js "s1_1") (Some (JString (js "Brutalist"))) (js "<p>b") streaming)
  ∧ sessions (applyVariation (js "<div>X</div>") sample_state)
    = [Session.mk (js "s1") (js "a pricing card") 0
         [Artifact.mk (js "s1_0") (Some (JString (js "Soft Glass"))) (js "<p>a</p>") complete;
          Artifact.mk (js "s1_1") (Some (JString (js "Brutalist"))) (js "<div>X</div>") complete;
          Artifact.mk (js "s1_2") (Some (JString (js "Neon"))) [] streaming]].
Proof.
  assert (H1 : at_index (sessions sample_state) (currentSessionIndex sample_state)
               = Some sample_session) by reflexivity.
  assert (H2 : focusedArtifactIndex sample_state = Some 1%nat) by reflexivity.
  assert (H3 : Session.artifacts sample_session !! 1%nat
               = Some (Artifact.mk (js "s1_1") (Some (JString (js "Brutalist")))
                         (js "<p>b") streaming)) by reflexivity.
  split; [exact H1|]. split; [exact H2|]. split; [exact H3|].
  exact (proj1 (applyVariation_focused (js "<div>X</div>") sample_state
                  sample_session 1%nat _ H1 H2 H3)).
Defined.


Lemma batch_tolerates_failure_witness :
  ∃ b, batch_run (js "s1") sample_batch sample_schedule = Some b
       ∧ loading b = false
       ∧ Forall (fun g => promise g = fulfilled) (generators b)
       ∧ (map (fun a => (Artifact.html a, Artifact.status a))
            <$> (Session.artifacts <$> history b !! 0%nat))
         = Some [(js "<p>a</p>", complete); (js "<div", streaming);
                 (js "<b>c</b>", complete)].
Proof.
  destruct (batch_run (js "s1") sample_batch sample_schedule) as [b|] eqn:Hrun;
    [|vm_compute in Hrun; discriminate].
  exists b. split; [reflexivity|].
  pose proof (batch_tolerates_failure (js "s1") (js "a pricing card") 0
                fallback_styles sample_streams [] sample_schedule b Hrun)
    as (_ & Hl & _ & _ & _).
  vm_compute in Hrun. injection Hrun as <-.
  split; [reflexivity|]. split; [by apply Hl|]. vm_compute. reflexivity.
Defined.

Lemma parseJsonStream_matching_braces_witness :
  Forall streamed [styled_block] ∧ brace_free (js " done")
  ∧ text_of styled_stream = blocks_text [styled_block] ++ js " done"
  ∧ concat (parseJsonStream styled_stream) = [value styled_block]
  ∧ snd (run_from [] styled_stream) = js " done".
Proof.
  assert (H1 : Forall streamed [styled_block]).
  { apply Forall_cons. split; [|apply Forall_nil_2].
    split; [reflexivity|]. split; [|vm_compute; reflexivity].
    exists styled_members. split; [reflexivity|].
    split; [reflexivity|]. apply nested_check. vm_compute. reflexivity. }
  assert (H2 : brace_free (js " done")) by reflexivity.
  assert (H3 : text_of styled_stream = blocks_text [styled_block] ++ js " done")
    by (vm_compute; reflexivity).
  split; [exact H1|]. split; [exact H2|]. split; [exact H3|].
  pose proof (parseJsonStream_matching_braces [styled_block] (js " done")
                styled_stream H1 H2 H3) as (Hy & Hb & _).
  split; [exact Hy|exact Hb].
Defined.

Lemma overlay_marks_broken_streams_witness :
  ∃ b, batch_run (js "s1") sample_batch sample_schedule = Some b
       ∧ loading b = false
       ∧ (map isBlurring <$> (Session.artifacts <$> history b !! 0%nat))
         = Some [false; true; false].
Proof.
  destruct (batch_run (js "s1") sample_batch sample_schedule) as [b|] eqn:Hrun;
    [|vm_compute in Hrun; discriminate].
  assert (Hdone : loading b = false)
    by (vm_compute in Hrun; injection Hrun as <-; reflexivity).
  exists b. split; [reflexivity|]. split; [exact Hdone|].
  destruct (overlay_marks_broken_streams (js "s1") (js "a pricing card") 0
              fallback_styles sample_streams [] sample_schedule b Hrun Hdone)
    as (arts & Hh & Hlen & Hk).
  cbn [length] in Hh. rewrite Hh. cbn [fmap option_fmap option_map Session.artifacts].
  destruct arts as [|a0 [|a1 [|a2 [|a3 arts]]]]; try discriminate Hlen.
  cbn [map]. by rewrite (Hk 0%nat a0), (Hk 1%nat a1), (Hk 2%nat a2).
Defined.

Lemma parseJsonStream_skips_witness :
  brace_free (js "data: ") ∧ brace_free (js "oops")
  ∧ JSON.parse (lbrace :: js "oops" ++ [rbrace]) = None
  ∧ text_of junk_stream
    = js "data: " ++ (lbrace :: js "oops" ++ [rbrace]) ++ jsq "{'a':1}"
  ∧ concat (parseJsonStream junk_stream)
    = concat (parseJsonStream [Some (jsq "{'a':1}")]).
Proof.
  assert (H1 : brace_free (js "data: ")) by reflexivity.
  assert (H2 : brace_free (js "oops")) by reflexivity.
  assert (H3 : JSON.parse (lbrace :: js "oops" ++ [rbrace]) = None)
    by (vm_compute; reflexivity).
  assert (H4 : text_of junk_stream
               = js "data: " ++ (lbrace :: js "oops" ++ [rbrace]) ++ jsq "{'a':1}")
    by (vm_compute; reflexivity).
  split; [exact H1|]. split; [exact H2|]. split; [exact H3|]. split; [exact H4|].
  exact (parseJsonStream_skips _ _ _ junk_stream H1 H2 H3 H4).
Defined.

Example parseJsonStream_junk :
  parseJsonStream junk_stream = [[]; [JObject [(js "a", JNumber (js "1"))]]].
Proof. vm_compute. reflexivity. Qed.

Lemma save_then_remove_witness :
  at_index (sessions sample_state) (currentSessionIndex sample_state) = Some sample_session
  ∧ focusedArtifactIndex sample_state = Some 1%nat
  ∧ Session.artifacts sample_session !! 1%nat = Some sample_artifact
  ∧ (Artifact.id sample_artifact ∉ vault_ids sample_state)
  ∧ ∃ st', handleSaveArtifact 5 sample_state = Some st'
           ∧ isSaved st' = true
           ∧ handleRemoveFromVault (Artifact.id sample_artifact) st' = sample_state
           ∧ isSaved sample_state = false.
Proof.
  assert (H1 : at_index (sessions sample_state) (currentSessionIndex sample_state)
               = Some sample_session) by reflexivity.
  assert (H2 : focusedArtifactIndex sample_state = Some 1%nat) by reflexivity.
  assert (H3 : Session.artifacts sample_session !! 1%nat = Some sample_artifact)
    by reflexivity.
  assert (H4 : Artifact.id sample_artifact ∉ vault_ids sample_state)
    by apply not_elem_of_nil.
  split; [exact H1|]. split; [exact H2|]. split; [exact H3|]. split; [exact H4|].
  exact (save_then_remove 5 sample_state sample_session 1%nat sample_artifact
           H1 H2 H3 H4).
Defined.

Lemma handleSaveArtifact_again_witness :
  handleSaveArtifact 5 sample_state
  = Some (set_savedArtifacts
            (cons (SavedArtifact.mk sample_artifact (js "a pricing card") 5))
            sample_state)
  ∧ handleSaveArtifact 6
      (set_savedArtifacts
         (cons (SavedArtifact.mk sample_artifact (js "a pricing card") 5))
         sample_state)
    = Some (set_savedArtifacts
              (cons (SavedArtifact.mk sample_artifact (js "a pricing card") 5))
              sample_state).
Proof.
  assert (H : handleSaveArtifact 5 sample_state
              = Some (set_savedArtifacts
                        (cons (SavedArtifact.mk sample_artifact (js "a pricing card") 5))
                        sample_state)) by reflexivity.
  split; [exact H|].
  exact (proj1 (handleSaveArtifact_again 5 6 sample_state _ H)).
Defined.

Lemma applyVariation_then_show_and_save_witness :
  at_index (sessions sample_state) (currentSessionIndex sample_state) = Some sample_session
  ∧ focusedArtifactIndex sample_state = Some 1%nat
  ∧ Session.artifacts sample_session !! 1%nat = Some sample_artifact
  ∧ ∃ st', handleShowCode (applyVariation (js "<div>X</div>") sample_state) = Some st'
           ∧ drawerState st'
             = {| isOpen := true; mode := Some code; title := js "Source Code";
                  data := Some (js "<div>X</div>") |}
           ∧ sessions st' = sessions (applyVariation (js "<div>X</div>") sample_state).
Proof.
  assert (H1 : at_index (sessions sample_state) (currentSessionIndex sample_state)
               = Some sample_session) by reflexivity.
  assert (H2 : focusedArtifactIndex sample_state = Some 1%nat) by reflexivity.
  assert (H3 : Session.artifacts sample_session !! 1%nat = Some sample_artifact)
    by reflexivity.
  split; [exact H1|]. split; [exact H2|]. split; [exact H3|].
  exact (proj1 (applyVariation_then_show_and_save (js "<div>X</div>") 5 sample_state
                  sample_session 1%nat sample_artifact H1 H2 H3)).
Defined.

Lemma well_shaped_kept_witness :
  well_shaped sample_state
  ∧ well_shaped (nextItem sample_state)
  ∧ well_shaped (prevItem sample_state).
Proof.
  assert (H : well_shaped sample_state).
  { split; [right; vm_compute; split; [discriminate|reflexivity]|].
    repeat constructor. }
  split; [exact H|].
  pose proof (well_shaped_kept sample_state H) as (Hn & Hp & _).
  split; [exact Hn|exact Hp].
Defined.

Lemma nextItem_prevItem_witness :
  well_shaped sample_state ∧ focus_in_range sample_state
  ∧ canGoForward sample_state = true
  ∧ prevItem (nextItem sample_state) = sample_state.
Proof.
  assert (H1 : well_shaped sample_state).
  { split; [right; vm_compute; split; [discriminate|reflexivity]|].
    repeat constructor. }
  assert (H2 : focus_in_range sample_state) by (vm_compute; lia).
  assert (H3 : canGoForward sample_state = true) by reflexivity.
  split; [exact H1|]. split; [exact H2|]. split; [exact H3|].
  exact (proj2 (proj2 (proj1 (nextItem_prevItem sample_state H1 H2) H3))).
Defined.

Lemma publish_final_isolated_witness :
  js "s1_0" ≠ js "s1_1"
  ∧ publish_final (js "s1") (js "s1_0") (js "<p>a</p>")
      (publish_html (js "s1") (js "s1_1") (js "<p>b</p>") [sample_session])
    = publish_html (js "s1") (js "s1_1") (js "<p>b</p>")
        (publish_final (js "s1") (js "s1_0") (js "<p>a</p>") [sample_session]).
Proof.
  assert (H : js "s1_0" ≠ js "s1_1") by (vm_compute; discriminate).
  split; [exact H|].
  exact (proj1 (publish_final_isolated (js "s1") (js "s1_0") (js "<p>a</p>")
                  (js "s1_1") (js "<p>b</p>") [sample_session] H)).
Defined.

Lemma batch_leaves_older_sessions_witness :
  Forall (fun sess => Session.id sess ≠ js "s2") [sample_session]
  ∧ ∃ b, batch_run (js "s2") later_batch sample_schedule = Some b
         ∧ ∃ arts,
             history b = [sample_session] ++ [Session.mk (js "s2") (js "a clock") 9 arts]
             ∧ map Artifact.id arts
               = map Artifact.id (placeholderArtifacts (js "s2")).
Proof.
  assert (H : Forall (fun sess => Session.id sess ≠ js "s2") [sample_session])
    by (repeat constructor; vm_compute; discriminate).
  split; [exact H|].
  destruct (batch_run (js "s2") later_batch sample_schedule) as [b|] eqn:Hrun;
    [|vm_compute in Hrun; discriminate].
  exists b. split; [reflexivity|].
  exact (batch_leaves_older_sessions (js "s2") (js "a clock") 9 fallback_styles
           sample_streams [sample_session] sample_schedule b H Hrun).
Defined.


Example sync_vault_sample :
  sync_vault sample_vault
  = jsq "[{'id':'s1_1','styleName':'Brutalist','html':'<p>b','status':'streaming','prompt':'a pricing card','savedAt':1700000000000},{'id':'s0_2','html':'<b>c</b>','status':'complete','prompt':'a clock','savedAt':-1}]".
Proof. vm_compute. reflexivity. Qed.

Lemma handleGenerateVariations_lists_witness :
  at_index (sessions sample_state) (currentSessionIndex sample_state) = Some sample_session
  ∧ focusedArtifactIndex sample_state = Some 1%nat
  ∧ Session.artifacts sample_session !! 1%nat = Some sample_artifact
  ∧ Forall streamed variation_blocks ∧ brace_free []
  ∧ text_of (delivered variation_stream) = blocks_text variation_blocks ++ []
  ∧ snd (handleGenerateVariations (fun _ => true) (Some variation_stream)
           sample_state [])
    = List.filter (wanted (fun _ => true)) (map value variation_blocks).
Proof.
  assert (H1 : at_index (sessions sample_state) (currentSessionIndex sample_state)
               = Some sample_session) by reflexivity.
  assert (H2 : focusedArtifactIndex sample_state = Some 1%nat) by reflexivity.
  assert (H3 : Session.artifacts sample_session !! 1%nat = Some sample_artifact)
    by reflexivity.
  assert (H4 : Forall streamed variation_blocks).
  { apply Forall_cons. split; [|apply Forall_cons; split; [|apply Forall_nil_2]].
    - split; [reflexivity|]. split; [|vm_compute; reflexivity].
      exists styled_members. split; [reflexivity|].
      split; [reflexivity|]. apply nested_check. vm_compute. reflexivity.
    - split; [reflexivity|]. split; [|vm_compute; reflexivity].
      exists (jsq "'name':'','html':'<p>y</p>'"). split; [reflexivity|].
      split; [reflexivity|]. apply nested_check. vm_compute. reflexivity. }
  assert (H5 : brace_free []) by reflexivity.
  assert (H6 : text_of (delivered variation_stream) = blocks_text variation_blocks ++ [])
    by (vm_compute; reflexivity).
  split; [exact H1|]. split; [exact H2|]. split; [exact H3|]. split; [exact H4|].
  split; [exact H5|]. split; [exact H6|].
  exact (handleGenerateVariations_lists (fun _ => true) variation_blocks []
           variation_stream sample_state [] sample_session 1%nat sample_artifact
           H1 H2 H3 H4 H5 H6).
Defined.

Example handleGenerateVariations_sample :
  snd (handleGenerateVariations (fun _ => true) (Some variation_stream) sample_state [])
  = [JObject [(js "name", JString (js "Calm"));
              (js "html", JString (js "<style>p { margin: 0 }</style><p>x</p>"))]].
Proof. vm_compute. reflexivity. Qed.

Lemma placeholders_in_range_witness :
  (1 < length [JString (js "a"); JString (js "b")])%nat
  ∧ fetchDynamicPlaceholders (Some (Some (jsq "['x','y']"))) id
      [JString (js "a"); JString (js "b")] !! 1%nat
    = [JString (js "a"); JString (js "b")] !! 1%nat.
Proof.
  assert (H : (1 < length [JString (js "a"); JString (js "b")])%nat) by (simpl; lia).
  split; [exact H|].
  exact (proj1 (proj2 (placeholders_in_range (Some (Some (jsq "['x','y']"))) id
                         [JString (js "a"); JString (js "b")] 1%nat H))).
Defined.


Lemma focused_handlers_return_witness :
  focus_in_range sample_state
  ∧ is_Some (handleShowCode sample_state)
  ∧ is_Some (handleSaveArtifact 5 sample_state).
Proof.
  assert (H : focus_in_range sample_state) by (vm_compute; lia).
  split; [exact H|].
  pose proof (focused_handlers_return (fun _ => true) None 5 sample_state [] H)
    as (Hs & Hv & _).
  split; [exact Hs|exact Hv].
Defined.

Lemma batch_runs_to_its_end_witness :
  batch_run (js "s1") sample_batch [Turn 1; Turn 0] ≠ None
  ∧ ∃ b, batch_run (js "s1") sample_batch [Turn 1; Turn 0] = Some b
         ∧ ∃ rest b',
             batch_run (js "s1") sample_batch ([Turn 1; Turn 0] ++ rest) = Some b'
             ∧ loading b' = false.
Proof.
  destruct (batch_run (js "s1") sample_batch [Turn 1; Turn 0]) as [b|] eqn:Hrun;
    [|vm_compute in Hrun; discriminate].
  split; [discriminate|]. exists b. split; [reflexivity|].
  exact (batch_runs_to_its_end (js "s1") (js "a pricing card") 0 fallback_styles
           sample_streams [] [Turn 1; Turn 0] b Hrun).
Defined.
